(** * Monks and monsters: the river-crossing game

    A shallow embedding of [src/js/enums.js], [src/js/models/MountObj.js]
    and the model and view classes of [src/js/main.js], followed by the
    properties of the crossing rules.

    Modelling choices.
    - An [Avatar] object is identified by its two immutable fields
      ([_type], [_id]); [Game.initialize] is the only place that creates
      avatars and gives each a different id (see [initialize_avatars_NoDup]).
      The two mutable fields of an avatar ([_location], [_mounted]) live in
      a heap indexed by the avatar, so every passenger array that holds the
      avatar sees the same fields, as the JS references do.
    - The two docks are objects held in the fields [dockOrigin] and
      [dockDestination]; a [DockRef] says which of the two objects a
      reference points to ([getDockByLocation] returns such a reference,
      or [null]).
    - Counts and capacities are natural numbers: the configuration form
      accepts integers [>= 1] only, and the defaults are 3, 3 and 2.
    - A JS method is a function from the world to a completion (normal
      return or thrown exception) and the world it leaves behind; what was
      mutated before a [throw] stays mutated.
    - Of the view, the flag [isAnimating], the click listeners installed
      by [render], the pending [setTimeout] callbacks that touch the flag
      or the game, and the list of calls the game makes on its view are
      modelled; the DOM and the CSS classes are not. *)

From Stdlib Require Import String DecimalString DecimalNat.
From Stdlib Require Import List Arith Bool Lia Permutation.
Import ListNotations.

Set Implicit Arguments.

(** ** Enumerations ([src/js/enums.js]) *)

Inductive Location : Type := ORIGIN | DESTINATION | RIVER.
Inductive MountStatus : Type := ON_DOCK | ON_BOAT.
Inductive AvatarType : Type := HUMAN | MONSTER.
Inductive GameStatus : Type := ONGOING | WON | LOST.
Inductive BoatStatus : Type := DOCKED | SAILING.

Definition Location_eqb (a b : Location) : bool :=
  match a, b with
  | ORIGIN, ORIGIN | DESTINATION, DESTINATION | RIVER, RIVER => true
  | _, _ => false
  end.

Definition AvatarType_eqb (a b : AvatarType) : bool :=
  match a, b with
  | HUMAN, HUMAN | MONSTER, MONSTER => true
  | _, _ => false
  end.

Definition GameStatus_eqb (a b : GameStatus) : bool :=
  match a, b with
  | ONGOING, ONGOING | WON, WON | LOST, LOST => true
  | _, _ => false
  end.

(** ** Avatars *)

(** The immutable part of an avatar; it stands for the object itself. *)
Record Avatar : Type := mkAvatar { _type : AvatarType; _id : string }.

(** The mutable part of an avatar. *)
Record AvatarFields : Type :=
  mkAvatarFields { _location : Location; _mounted : MountStatus }.

(** [constructor(type, id)]: a new avatar stands on the origin dock. *)
Definition Avatar_new (type : AvatarType) (id : string) : Avatar * AvatarFields :=
  (mkAvatar type id, mkAvatarFields ORIGIN ON_DOCK).

Definition getType (a : Avatar) : AvatarType := _type a.
Definition getId (a : Avatar) : string := _id a.

(** Reference equality of two avatar objects ([indexOf], [includes]). *)
Definition Avatar_eqb (a b : Avatar) : bool :=
  AvatarType_eqb (_type a) (_type b) && String.eqb (_id a) (_id b).

Definition Heap : Type := Avatar -> AvatarFields.

Definition heap_set (h : Heap) (a : Avatar) (f : AvatarFields) : Heap :=
  fun b => if Avatar_eqb b a then f else h b.

(** ** MountObj ([src/js/models/MountObj.js]) *)

Record MountObj : Type := mkMountObj {
  _minCapacity : nat;
  _maxCapacity : nat;
  _passengers : list Avatar
}.

Definition MountObj_new (minCapacity maxCapacity : nat) : MountObj :=
  mkMountObj minCapacity maxCapacity [].

Definition getPassengers (m : MountObj) : list Avatar := _passengers m.

Definition getPassengerCount (m : MountObj) : nat := length (_passengers m).

(** [this._passengers.length >= this._maxCapacity] *)
Definition isFull (m : MountObj) : bool :=
  _maxCapacity m <=? length (_passengers m).

Definition isEmpty (m : MountObj) : bool := length (_passengers m) =? 0.

(** [Array.prototype.includes] *)
Definition hasPassenger (m : MountObj) (avatar : Avatar) : bool :=
  existsb (Avatar_eqb avatar) (_passengers m).

(** [Array.prototype.indexOf]; [None] is the JS result [-1]. *)
Fixpoint indexOf (avatar : Avatar) (l : list Avatar) : option nat :=
  match l with
  | [] => None
  | x :: l' =>
      if Avatar_eqb x avatar then Some 0
      else match indexOf avatar l' with
           | Some i => Some (S i)
           | None => None
           end
  end.

(** [array.splice(index, 1)] *)
Definition splice1 (index : nat) (l : list Avatar) : list Avatar :=
  firstn index l ++ skipn (S index) l.

Definition addPassenger (avatar : Avatar) (m : MountObj) : bool * MountObj :=
  if isFull m then (false, m)
  else (true, mkMountObj (_minCapacity m) (_maxCapacity m)
                (_passengers m ++ [avatar])).

Definition removePassenger (avatar : Avatar) (m : MountObj) : bool * MountObj :=
  match indexOf avatar (_passengers m) with
  | None => (false, m)
  | Some index =>
      (true, mkMountObj (_minCapacity m) (_maxCapacity m)
               (splice1 index (_passengers m)))
  end.

(** ** Dock and Boat ([src/js/main.js]) *)

Record Dock : Type := mkDock {
  dock_super :> MountObj;
  dock_location : Location
}.

(** [super(0, maxCapacity)] *)
Definition Dock_new (location : Location) (maxCapacity : nat) : Dock :=
  mkDock (MountObj_new 0 maxCapacity) location.

Record Boat : Type := mkBoat {
  boat_super :> MountObj;
  boat_location : Location;
  boat_status : BoatStatus
}.

(** [super(minCapacity, maxCapacity)]; the boat starts docked at the origin. *)
Definition Boat_new (maxCapacity minCapacity : nat) : Boat :=
  mkBoat (MountObj_new minCapacity maxCapacity) ORIGIN DOCKED.

Definition Boat_setLocation (location : Location) (b : Boat) : Boat :=
  mkBoat (boat_super b) location (boat_status b).

Definition Boat_setStatus (st : BoatStatus) (b : Boat) : Boat :=
  mkBoat (boat_super b) (boat_location b) st.

Definition getDestinationLocation (b : Boat) : Location :=
  match boat_location b with
  | ORIGIN => DESTINATION
  | DESTINATION => ORIGIN
  | RIVER => ORIGIN
  end.

(** [this._passengers.length >= this._minCapacity] *)
Definition canSail (b : Boat) : bool :=
  _minCapacity b <=? length (_passengers b).

(** ** Game and view state *)

Record Game : Type := mkGame {
  numMonsters : nat;
  numHumans : nat;
  totalAvatars : nat;
  boatCapacity : nat;
  status : GameStatus;
  tripCount : nat;
  avatars : list Avatar;
  boat : Boat;
  dockOrigin : Dock;
  dockDestination : Dock
}.

(** A call of the game on its view ([this.view.method(args)]). *)
Inductive ViewCall : Type :=
| ShowMessage (message type : string)
| Render
| PlayVoyageAnimation
| PlayWinAnimation
| PlayFeastAnimation (predatorList preyList : list Avatar).

(** A pending [setTimeout] callback that writes [isAnimating] or calls
    the game.  [VoyageTimeout voyageTo] is the one set by
    [playVoyageAnimation]; its callback closes over [voyageTo].
    [FeastTimeout] is the last one set by [playFeastAnimation], the end
    of the feast.  The other timeouts of the view only change the page
    and are not kept here: the one by which [showMessage] hides the
    message box again, and the two by which [playFeastAnimation] changes
    the pictures. *)
Inductive Timer : Type :=
| VoyageTimeout (voyageTo : Location)
| FeastTimeout.

Record ViewController : Type := mkView {
  isAnimating : bool;
  listeners : list Avatar;
  timers : list Timer;
  calls : list ViewCall
}.

Record World : Type := mkWorld {
  game : Game;
  heap : Heap;
  view : ViewController
}.

(** Field updates. *)

Definition set_game (f : Game -> Game) (w : World) : World :=
  mkWorld (f (game w)) (heap w) (view w).

Definition set_view (f : ViewController -> ViewController) (w : World) : World :=
  mkWorld (game w) (heap w) (f (view w)).

Definition set_heap (f : Heap -> Heap) (w : World) : World :=
  mkWorld (game w) (f (heap w)) (view w).

Definition with_status (s : GameStatus) (g : Game) : Game :=
  mkGame (numMonsters g) (numHumans g) (totalAvatars g) (boatCapacity g)
         s (tripCount g) (avatars g) (boat g) (dockOrigin g) (dockDestination g).

Definition with_tripCount (n : nat) (g : Game) : Game :=
  mkGame (numMonsters g) (numHumans g) (totalAvatars g) (boatCapacity g)
         (status g) n (avatars g) (boat g) (dockOrigin g) (dockDestination g).

Definition with_avatars (l : list Avatar) (g : Game) : Game :=
  mkGame (numMonsters g) (numHumans g) (totalAvatars g) (boatCapacity g)
         (status g) (tripCount g) l (boat g) (dockOrigin g) (dockDestination g).

Definition with_boat (b : Boat) (g : Game) : Game :=
  mkGame (numMonsters g) (numHumans g) (totalAvatars g) (boatCapacity g)
         (status g) (tripCount g) (avatars g) b (dockOrigin g) (dockDestination g).

Definition with_dockOrigin (d : Dock) (g : Game) : Game :=
  mkGame (numMonsters g) (numHumans g) (totalAvatars g) (boatCapacity g)
         (status g) (tripCount g) (avatars g) (boat g) d (dockDestination g).

Definition with_dockDestination (d : Dock) (g : Game) : Game :=
  mkGame (numMonsters g) (numHumans g) (totalAvatars g) (boatCapacity g)
         (status g) (tripCount g) (avatars g) (boat g) (dockOrigin g) d.

Definition with_isAnimating (b : bool) (v : ViewController) : ViewController :=
  mkView b (listeners v) (timers v) (calls v).

Definition with_listeners (l : list Avatar) (v : ViewController) : ViewController :=
  mkView (isAnimating v) l (timers v) (calls v).

Definition with_timers (l : list Timer) (v : ViewController) : ViewController :=
  mkView (isAnimating v) (listeners v) l (calls v).

Definition with_calls (l : list ViewCall) (v : ViewController) : ViewController :=
  mkView (isAnimating v) (listeners v) (timers v) l.

(** References to the two dock objects. *)
Inductive DockRef : Type := DockOrigin | DockDestination.

Definition dockAt (r : DockRef) (g : Game) : Dock :=
  match r with
  | DockOrigin => dockOrigin g
  | DockDestination => dockDestination g
  end.

Definition with_dockAt (r : DockRef) (d : Dock) (g : Game) : Game :=
  match r with
  | DockOrigin => with_dockOrigin d g
  | DockDestination => with_dockDestination d g
  end.

(** ** Completions and the method monad *)

Inductive Exn : Type := TypeError.

Inductive Completion (A : Type) : Type :=
| Normal (a : A)
| Throw (e : Exn).

Arguments Normal {A} a.
Arguments Throw {A} e.

Definition Js (A : Type) : Type := World -> Completion A * World.

Definition ret {A : Type} (a : A) : Js A := fun w => (Normal a, w).

Definition bind {A B : Type} (m : Js A) (k : A -> Js B) : Js B :=
  fun w =>
    match m w with
    | (Normal a, w') => k a w'
    | (Throw e, w') => (Throw e, w')
    end.

Definition throw {A : Type} (e : Exn) : Js A := fun w => (Throw e, w).

Definition gets {A : Type} (f : World -> A) : Js A := fun w => (Normal (f w), w).

Definition modify (f : World -> World) : Js unit := fun w => (Normal tt, f w).

Declare Scope js_scope.
Delimit Scope js_scope with js.
Notation "x <- c1 ;; c2" := (bind c1 (fun x => c2))
  (at level 61, c1 at next level, right associativity) : js_scope.
Notation "c1 ;; c2" := (bind c1 (fun _ => c2))
  (at level 61, right associativity) : js_scope.
Open Scope js_scope.

(** [array.forEach(f)] *)
Fixpoint forEach {A : Type} (l : list A) (f : A -> Js unit) : Js unit :=
  match l with
  | [] => ret tt
  | x :: l' => f x ;; forEach l' f
  end.

(** The result world and the completion of running a method. *)
Definition exec {A : Type} (m : Js A) (w : World) : World := snd (m w).
Definition completion {A : Type} (m : Js A) (w : World) : Completion A := fst (m w).

(** ** Avatar methods on the heap *)

Definition getLocation (h : Heap) (avatar : Avatar) : Location := _location (h avatar).
Definition getMounted (h : Heap) (avatar : Avatar) : MountStatus := _mounted (h avatar).

Definition Avatar_setLocation (location : Location) (avatar : Avatar) : Js unit :=
  modify (set_heap (fun h =>
    heap_set h avatar (mkAvatarFields location (_mounted (h avatar))))).

Definition Avatar_setMounted (mountStatus : MountStatus) (avatar : Avatar) : Js unit :=
  modify (set_heap (fun h =>
    heap_set h avatar (mkAvatarFields (_location (h avatar)) mountStatus))).

(** ** Mount methods called through the game's fields *)

Definition Dock_addPassenger (r : DockRef) (avatar : Avatar) : Js bool :=
  fun w =>
    let d := dockAt r (game w) in
    let (ok, m) := addPassenger avatar d in
    (Normal ok, set_game (with_dockAt r (mkDock m (dock_location d))) w).

Definition Dock_removePassenger (r : DockRef) (avatar : Avatar) : Js bool :=
  fun w =>
    let d := dockAt r (game w) in
    let (ok, m) := removePassenger avatar d in
    (Normal ok, set_game (with_dockAt r (mkDock m (dock_location d))) w).

Definition Boat_addPassenger (avatar : Avatar) : Js bool :=
  fun w =>
    let b := boat (game w) in
    let (ok, m) := addPassenger avatar b in
    (Normal ok, set_game (with_boat (mkBoat m (boat_location b) (boat_status b))) w).

Definition Boat_removePassenger (avatar : Avatar) : Js bool :=
  fun w =>
    let b := boat (game w) in
    let (ok, m) := removePassenger avatar b in
    (Normal ok, set_game (with_boat (mkBoat m (boat_location b) (boat_status b))) w).

(** ** ViewController *)

(** Records a call of the game on its view. *)
Definition called (c : ViewCall) : Js unit :=
  modify (set_view (fun v => with_calls (calls v ++ [c]) v)).

(** [createAvatarElement(avatar, isOnBoat)]: whether the element gets a
    click listener. *)
Definition createAvatarElement (g : Game) (isOnBoat : bool) : bool :=
  negb isOnBoat || negb (Location_eqb (boat_location (boat g)) RIVER).

(** The avatars whose element carries a click listener after
    [renderDock(dockOrigin)], [renderDock(dockDestination)], [renderBoat()]. *)
Definition renderedListeners (g : Game) : list Avatar :=
  (if createAvatarElement g false then getPassengers (dockOrigin g) else []) ++
  (if createAvatarElement g false then getPassengers (dockDestination g) else []) ++
  (if createAvatarElement g true then getPassengers (boat g) else []).

(** What [render()] does, whoever calls it. *)
Definition renderElements : Js unit :=
  modify (fun w => set_view (with_listeners (renderedListeners (game w))) w).

Definition render : Js unit := called Render ;; renderElements.

(** [showMessage] writes to the message box and sets a timeout that
    hides it again; both touch the page only. *)
Definition showMessage (message type : string) : Js unit :=
  called (ShowMessage message type).

(** [playVoyageAnimation(callback)]; the callback is determined by the
    [voyageTo] it closes over (see [voyageCallback]). *)
Definition playVoyageAnimation (voyageTo : Location) : Js unit :=
  called PlayVoyageAnimation ;;
  modify (set_view (with_isAnimating true)) ;;
  renderElements ;;
  modify (set_view (fun v => with_timers (timers v ++ [VoyageTimeout voyageTo]) v)).

Definition playWinAnimation : Js unit := called PlayWinAnimation.

(** [playFeastAnimation(predatorList, preyList)]: assigning a target to
    each predator reads [preyList[preyIndex].getId()], which throws when
    there is a predator and no prey.  Of its three timeouts the last one
    clears [isAnimating]; the first two change pictures on the page. *)
Definition playFeastAnimation (predatorList preyList : list Avatar) : Js unit :=
  called (PlayFeastAnimation predatorList preyList) ;;
  modify (set_view (with_isAnimating true)) ;;
  match predatorList, preyList with
  | _ :: _, [] => throw TypeError
  | _, _ =>
      modify (set_view (fun v => with_timers (timers v ++ [FeastTimeout]) v))
  end.

(** [ViewController.initialize()]: [bindEvents(); render()], called by
    the controller before the game holds its view. *)
Definition ViewController_initialize : Js unit := renderElements.

(** ** Game *)

(** [getDockByLocation(location)]; [None] is [null]. *)
Definition getDockByLocation (location : Location) : option DockRef :=
  match location with
  | ORIGIN => Some DockOrigin
  | DESTINATION => Some DockDestination
  | RIVER => None
  end.

Definition string_of_nat (i : nat) : string :=
  NilEmpty.string_of_uint (Nat.to_uint i).

(** One turn of a creation loop of [initialize]. *)
Definition createAvatar (type : AvatarType) (prefix : string) (i : nat) : Js unit :=
  let (avatar, fields) := Avatar_new type (String.append prefix (string_of_nat i)) in
  modify (set_heap (fun h => heap_set h avatar fields)) ;;
  modify (set_game (fun g => with_avatars (avatars g ++ [avatar]) g)) ;;
  Dock_addPassenger DockOrigin avatar ;;
  ret tt.

Definition initialize : Js unit :=
  modify (set_game (with_status ONGOING)) ;;
  modify (set_game (with_tripCount 0)) ;;
  modify (set_game (fun g => with_dockOrigin (Dock_new ORIGIN (totalAvatars g)) g)) ;;
  modify (set_game (fun g => with_dockDestination (Dock_new DESTINATION (totalAvatars g)) g)) ;;
  modify (set_game (fun g => with_boat (Boat_new (boatCapacity g) 1) g)) ;;
  numMonsters <- gets (fun w => numMonsters (game w)) ;;
  forEach (seq 0 numMonsters) (createAvatar MONSTER "monster-") ;;
  numHumans <- gets (fun w => numHumans (game w)) ;;
  forEach (seq 0 numHumans) (createAvatar HUMAN "human-").

(** The body of the two [forEach] loops of [isBalanced]. *)
Definition countAvatar (counts : nat * nat) (avatar : Avatar) : nat * nat :=
  let (monsters, humans) := counts in
  match getType avatar with
  | MONSTER => (monsters + 1, humans)
  | HUMAN => (monsters, humans + 1)
  end.

Definition isBalanced (g : Game) (dock : Dock) : bool :=
  let counts := fold_left countAvatar (getPassengers dock) (0, 0) in
  let counts :=
    if Location_eqb (dock_location dock) (boat_location (boat g))
    then fold_left countAvatar (getPassengers (boat g)) counts
    else counts in
  let (monsters, humans) := counts in
  (humans =? 0) || (monsters <=? humans).

(** The body of the two [forEach] loops of [handleFeast]. *)
Definition listAvatar (lists : list Avatar * list Avatar) (avatar : Avatar)
  : list Avatar * list Avatar :=
  let (predatorList, preyList) := lists in
  match getType avatar with
  | MONSTER => (predatorList ++ [avatar], preyList)
  | HUMAN => (predatorList, preyList ++ [avatar])
  end.

Definition feastLists (g : Game) (dock : Dock) : list Avatar * list Avatar :=
  let lists := fold_left listAvatar (getPassengers dock) ([], []) in
  if Location_eqb (dock_location dock) (boat_location (boat g))
  then fold_left listAvatar (getPassengers (boat g)) lists
  else lists.

Definition handleFeast (r : DockRef) : Js unit :=
  lists <- gets (fun w => feastLists (game w) (dockAt r (game w))) ;;
  playFeastAnimation (fst lists) (snd lists).

(** [handleGameStatus()]; the result is [Some true] for [return true] and
    [None] for [undefined].  The statements after [return true] in the
    win branch are never run. *)
Definition handleGameStatus : Js (option bool) :=
  st <- gets (fun w => status (game w)) ;;
  if negb (GameStatus_eqb st ONGOING) then ret None
  else
    win <- gets (fun w =>
      let g := game w in
      isEmpty (dockOrigin g) &&
      Location_eqb (boat_location (boat g)) DESTINATION &&
      (totalAvatars g <=?
         getPassengerCount (dockDestination g) + getPassengerCount (boat g))) ;;
    if win then
      modify (set_game (with_status WON)) ;;
      playWinAnimation ;;
      ret (Some true)
    else
      balancedOrigin <- gets (fun w => isBalanced (game w) (dockOrigin (game w))) ;;
      if negb balancedOrigin then
        modify (set_game (with_status LOST)) ;;
        handleFeast DockOrigin ;;
        ret None
      else
        balancedDestination <-
          gets (fun w => isBalanced (game w) (dockDestination (game w))) ;;
        if negb balancedDestination then
          modify (set_game (with_status LOST)) ;;
          handleFeast DockDestination ;;
          ret None
        else ret None.

Definition handleAvatarClick (avatar : Avatar) : Js unit :=
  st <- gets (fun w => status (game w)) ;;
  if negb (GameStatus_eqb st ONGOING) then ret tt
  else
    mounted <- gets (fun w => getMounted (heap w) avatar) ;;
    match mounted with
    | ON_DOCK =>
        currentDock <- gets (fun w => getDockByLocation (boat_location (boat (game w)))) ;;
        match currentDock with
        | None => throw TypeError (* [currentDock.hasPassenger] on [null] *)
        | Some currentDock =>
            here <- gets (fun w => hasPassenger (dockAt currentDock (game w)) avatar) ;;
            if negb here then showMessage "Boat is on the other side!" "info"
            else
              full <- gets (fun w => isFull (boat (game w))) ;;
              if full then showMessage "Boat is at full capacity!" "info"
              else
                Dock_removePassenger currentDock avatar ;;
                Boat_addPassenger avatar ;;
                Avatar_setMounted ON_BOAT avatar ;;
                render
        end
    | ON_BOAT =>
        aboard <- gets (fun w => hasPassenger (boat (game w)) avatar) ;;
        if negb aboard then ret tt
        else
          Boat_removePassenger avatar ;;
          currentDock <- gets (fun w => getDockByLocation (boat_location (boat (game w)))) ;;
          match currentDock with
          | None => throw TypeError (* [currentDock.addPassenger] on [null] *)
          | Some currentDock =>
              Dock_addPassenger currentDock avatar ;;
              Avatar_setMounted ON_DOCK avatar ;;
              render
          end
    end.

(** The callback [handleBoatClick] hands to [playVoyageAnimation]:
    first the statements that dock the boat, *)
Definition voyageArrival (voyageTo : Location) : Js unit :=
  modify (set_game (fun g => with_boat (Boat_setStatus DOCKED (boat g)) g)) ;;
  modify (set_game (fun g => with_boat (Boat_setLocation voyageTo (boat g)) g)) ;;
  passengers <- gets (fun w => getPassengers (boat (game w))) ;;
  forEach passengers (Avatar_setLocation voyageTo) ;;
  render.

(** then the evaluation of the outcome. *)
Definition voyageCallback (voyageTo : Location) : Js unit :=
  voyageArrival voyageTo ;;
  handleGameStatus ;;
  ret tt.

Definition handleBoatClick : Js unit :=
  st <- gets (fun w => status (game w)) ;;
  if negb (GameStatus_eqb st ONGOING) then ret tt
  else
    sail <- gets (fun w => canSail (boat (game w))) ;;
    if negb sail then showMessage "Someone needs to row the boat!" "info"
    else
      voyageTo <- gets (fun w => getDestinationLocation (boat (game w))) ;;
      modify (set_game (fun g => with_boat (Boat_setStatus SAILING (boat g)) g)) ;;
      modify (set_game (fun g => with_boat (Boat_setLocation RIVER (boat g)) g)) ;;
      passengers <- gets (fun w => getPassengers (boat (game w))) ;;
      forEach passengers (Avatar_setLocation RIVER) ;;
      modify (set_game (fun g => with_tripCount (tripCount g + 1) g)) ;;
      playVoyageAnimation voyageTo.

(** ** The running program: controller, listeners and timeouts *)

(** [new Game(numMonsters, numHumans, boatCapacity)] with a new view.
    The constructor leaves [boat] and the docks [null]; [initialize],
    which [startNewGame] calls next, assigns them before anything reads
    them, so empty objects stand for [null] here. *)
Definition World_new (numMonsters numHumans boatCapacity : nat) : World :=
  mkWorld
    (mkGame numMonsters numHumans (numMonsters + numHumans) boatCapacity
            ONGOING 0 [] (Boat_new 0 0) (Dock_new ORIGIN 0) (Dock_new DESTINATION 0))
    (fun _ => mkAvatarFields ORIGIN ON_DOCK)
    (mkView false [] [] []).

(** [GameController.startNewGame] *)
Definition startNewGame (numMonsters numHumans boatCapacity : nat) : World :=
  exec (initialize ;; ViewController_initialize)
       (World_new numMonsters numHumans boatCapacity).

(** The function [playVoyageAnimation] passes to [setTimeout]. *)
Definition voyageTimeout (voyageTo : Location) : Js unit :=
  modify (set_view (with_isAnimating false)) ;;
  voyageCallback voyageTo.

(** The last function [playFeastAnimation] passes to [setTimeout]. *)
Definition feastTimeout : Js unit :=
  modify (set_view (with_isAnimating false)).

(** What the browser can deliver to the view of the current game: a
    click on an avatar or on the boat button, and one of the view's
    pending timeouts.  The restart button and the configuration form
    replace the game and its view by those of [startNewGame]; the
    listener and the timeouts which the replaced view leaves behind
    belong to that view, whose fields [destroy] has set to [null]; they
    are not events of the current view and are not modelled. *)
Inductive Event : Type :=
| AvatarClicked (avatar : Avatar)
| BoatClicked
| TimeoutFired (n : nat).

Definition removeNth {A : Type} (n : nat) (l : list A) : list A :=
  firstn n l ++ skipn (S n) l.

(** The listeners of [createAvatarElement] and [bindEvents] of the
    current view, and its pending timeouts. *)
Definition dispatch (e : Event) : Js unit :=
  match e with
  | AvatarClicked avatar =>
      listening <- gets (fun w => existsb (Avatar_eqb avatar) (listeners (view w))) ;;
      if negb listening then ret tt
      else
        animating <- gets (fun w => isAnimating (view w)) ;;
        if negb animating then handleAvatarClick avatar else ret tt
  | BoatClicked =>
      animating <- gets (fun w => isAnimating (view w)) ;;
      if negb animating then handleBoatClick else ret tt
  | TimeoutFired n =>
      pending <- gets (fun w => nth_error (timers (view w)) n) ;;
      match pending with
      | None => ret tt
      | Some t =>
          modify (set_view (fun v => with_timers (removeNth n (timers v)) v)) ;;
          match t with
          | VoyageTimeout voyageTo => voyageTimeout voyageTo
          | FeastTimeout => feastTimeout
          end
      end
  end.

(** The worlds the current game and its view can be in: any new game
    (the one of the page load, or the one a restart or a submitted
    configuration starts), and what the events of its own view make of
    it. *)
Inductive reachable : World -> Prop :=
| reachable_start (numMonsters numHumans boatCapacity : nat) :
    reachable (startNewGame numMonsters numHumans boatCapacity)
| reachable_step (e : Event) (w : World) :
    reachable w -> reachable (exec (dispatch e) w).

(** Running a list of events. *)
Definition run (events : list Event) (w : World) : World :=
  fold_left (fun w e => exec (dispatch e) w) events w.

(** ** Definitions used in the statements

    Predicates, the worlds the methods leave behind, the invariant of the
    running program and some concrete games. *)

(** Equality of avatars is decidable. *)
Definition Avatar_eq_dec (a b : Avatar) : {a = b} + {a <> b}.
Proof.
  decide equality; [apply string_dec | decide equality].
Defined.

(** The avatars that count for a dock: those of the dock, and those of
    the boat when the boat lies at the dock's side. *)
Definition sideAvatars (g : Game) (dock : Dock) : list Avatar :=
  getPassengers dock ++
  (if Location_eqb (dock_location dock) (boat_location (boat g))
   then getPassengers (boat g) else []).

(** [avatar.getType() === t] *)
Definition isType (t : AvatarType) (a : Avatar) : bool :=
  AvatarType_eqb (getType a) t.

(** The number of avatars of a type in an array. *)
Definition countType (t : AvatarType) (l : list Avatar) : nat :=
  length (filter (isType t) l).

(** The win condition of [handleGameStatus]. *)
Definition winCondition (g : Game) : Prop :=
  isEmpty (dockOrigin g) = true /\
  boat_location (boat g) = DESTINATION /\
  totalAvatars g <= getPassengerCount (dockDestination g) + getPassengerCount (boat g).

(** The same as the boolean the [if] of [handleGameStatus] tests. *)
Definition winConditionb (g : Game) : bool :=
  isEmpty (dockOrigin g) &&
  Location_eqb (boat_location (boat g)) DESTINATION &&
  (totalAvatars g <=?
     getPassengerCount (dockDestination g) + getPassengerCount (boat g)).

(** What [handleGameStatus] does when it declares a loss at a dock:
    [this.status = GameStatus.LOST; this.handleFeast(dock)]. *)
Definition declareLoss (r : DockRef) : Js (option bool) :=
  modify (set_game (with_status LOST)) ;; handleFeast r ;; ret None.

(** What it does when it declares the game won. *)
Definition declareWin : Js (option bool) :=
  modify (set_game (with_status WON)) ;; playWinAnimation ;; ret (Some true).

(** The heap after [passengers.forEach(avatar => avatar.setLocation(location))]. *)
Definition setLocations (location : Location) (l : list Avatar) (h : Heap) : Heap :=
  fold_left (fun h a => heap_set h a (mkAvatarFields location (_mounted (h a)))) l h.

(** The world a successful [handleBoatClick] leaves behind. *)
Definition launched (w : World) : World :=
  let g := game w in
  let g' := with_tripCount (tripCount g + 1)
              (with_boat (mkBoat (boat_super (boat g)) RIVER SAILING) g) in
  mkWorld g'
    (setLocations RIVER (getPassengers (boat g)) (heap w))
    (mkView true (renderedListeners g')
            (timers (view w) ++ [VoyageTimeout (getDestinationLocation (boat g))])
            (calls (view w) ++ [PlayVoyageAnimation])).

(** The side across the river; the river has none. *)
Definition oppositeSide (l : Location) : option Location :=
  match l with
  | ORIGIN => Some DESTINATION
  | DESTINATION => Some ORIGIN
  | RIVER => None
  end.

(** The array without the first occurrence of the avatar. *)
Fixpoint removeFirst (a : Avatar) (l : list Avatar) : list Avatar :=
  match l with
  | [] => []
  | x :: l' => if Avatar_eqb x a then l' else x :: removeFirst a l'
  end.

(** The dock on the other shore. *)
Definition otherDock (r : DockRef) : DockRef :=
  match r with
  | DockOrigin => DockDestination
  | DockDestination => DockOrigin
  end.

(** The statements of [handleAvatarClick] that move an avatar from the
    dock to the boat, *)
Definition board (currentDock : DockRef) (avatar : Avatar) : Js unit :=
  Dock_removePassenger currentDock avatar ;;
  Boat_addPassenger avatar ;;
  Avatar_setMounted ON_BOAT avatar ;;
  render.

(** and those that move it from the boat to the dock. *)
Definition disembark (avatar : Avatar) : Js unit :=
  Boat_removePassenger avatar ;;
  currentDock <- gets (fun w => getDockByLocation (boat_location (boat (game w)))) ;;
  match currentDock with
  | None => throw TypeError
  | Some currentDock =>
      Dock_addPassenger currentDock avatar ;;
      Avatar_setMounted ON_DOCK avatar ;;
      render
  end.

(** The world after boarding. *)
Definition boarded (currentDock : DockRef) (avatar : Avatar) (w : World) : World :=
  let g := game w in
  let d := dockAt currentDock g in
  let g1 := with_dockAt currentDock
              (mkDock (mkMountObj (_minCapacity d) (_maxCapacity d)
                                  (removeFirst avatar (_passengers d)))
                      (dock_location d)) g in
  let g2 := with_boat
              (mkBoat (mkMountObj (_minCapacity (boat g)) (_maxCapacity (boat g))
                                  (_passengers (boat g) ++ [avatar]))
                      (boat_location (boat g)) (boat_status (boat g))) g1 in
  mkWorld g2
    (heap_set (heap w) avatar (mkAvatarFields (_location (heap w avatar)) ON_BOAT))
    (mkView (isAnimating (view w)) (renderedListeners g2) (timers (view w))
            (calls (view w) ++ [Render])).

(** The world after leaving the boat for the dock [currentDock]. *)
Definition disembarked (currentDock : DockRef) (avatar : Avatar) (w : World) : World :=
  let g := game w in
  let g1 := with_boat
              (mkBoat (mkMountObj (_minCapacity (boat g)) (_maxCapacity (boat g))
                                  (removeFirst avatar (_passengers (boat g))))
                      (boat_location (boat g)) (boat_status (boat g))) g in
  let d := dockAt currentDock g in
  let g2 := with_dockAt currentDock
              (mkDock (mkMountObj (_minCapacity d) (_maxCapacity d)
                                  (_passengers d ++ [avatar]))
                      (dock_location d)) g1 in
  mkWorld g2
    (heap_set (heap w) avatar (mkAvatarFields (_location (heap w avatar)) ON_DOCK))
    (mkView (isAnimating (view w)) (renderedListeners g2) (timers (view w))
            (calls (view w) ++ [Render])).

(** The three passenger arrays, one after the other. *)
Definition allPassengers (g : Game) : list Avatar :=
  getPassengers (dockOrigin g) ++ getPassengers (boat g) ++
  getPassengers (dockDestination g).

(** What holds of every world the program reaches. *)
Record Inv (w : World) : Prop := mkInv {
  inv_nodup : NoDup (avatars (game w));
  inv_perm : Permutation (allPassengers (game w)) (avatars (game w));
  inv_config : totalAvatars (game w) = numMonsters (game w) + numHumans (game w);
  inv_total : totalAvatars (game w) = length (avatars (game w));
  inv_origin_cap : _maxCapacity (dockOrigin (game w)) = totalAvatars (game w);
  inv_dest_cap : _maxCapacity (dockDestination (game w)) = totalAvatars (game w);
  inv_boat_cap : getPassengerCount (boat (game w)) <= _maxCapacity (boat (game w));
  inv_boat_max : _maxCapacity (boat (game w)) = boatCapacity (game w);
  inv_origin_loc : dock_location (dockOrigin (game w)) = ORIGIN;
  inv_dest_loc : dock_location (dockDestination (game w)) = DESTINATION;
  inv_sailing : boat_location (boat (game w)) = RIVER <->
                boat_status (boat (game w)) = SAILING;
  inv_river : boat_location (boat (game w)) = RIVER ->
              isAnimating (view w) = true /\ status (game w) = ONGOING;
  inv_voyage : forall l, In (VoyageTimeout l) (timers (view w)) -> l <> RIVER;
  inv_feast : In FeastTimeout (timers (view w)) -> status (game w) <> ONGOING;
  inv_on_boat : forall a, In a (getPassengers (boat (game w))) ->
                          getMounted (heap w) a = ON_BOAT;
  inv_on_dock : forall a, In a (getPassengers (dockOrigin (game w))) \/
                          In a (getPassengers (dockDestination (game w))) ->
                          getMounted (heap w) a = ON_DOCK
}.

(** The world when the voyage callback reaches [handleGameStatus]. *)
Definition arrived (voyageTo : Location) (w : World) : World :=
  let g := game w in
  let g' := with_boat (mkBoat (boat_super (boat g)) voyageTo DOCKED) g in
  mkWorld g'
    (setLocations voyageTo (getPassengers (boat g)) (heap w))
    (mkView (isAnimating (view w)) (renderedListeners g') (timers (view w))
            (calls (view w) ++ [Render])).

(** The avatar a creation loop of [initialize] makes at turn [i]. *)
Definition newAvatar (type : AvatarType) (prefix : string) (i : nat) : Avatar :=
  mkAvatar type (String.append prefix (string_of_nat i)).

(** The avatars of a new game, in creation order. *)
Definition initialAvatars (numMonsters numHumans : nat) : list Avatar :=
  map (newAvatar MONSTER "monster-") (seq 0 numMonsters) ++
  map (newAvatar HUMAN "human-") (seq 0 numHumans).

(** The game [initialize] sets up: everybody on the origin dock. *)
Definition initialGame (numMonsters numHumans boatCapacity : nat) : Game :=
  mkGame numMonsters numHumans (numMonsters + numHumans) boatCapacity ONGOING 0
    (initialAvatars numMonsters numHumans)
    (Boat_new boatCapacity 1)
    (mkDock (mkMountObj 0 (numMonsters + numHumans)
                        (initialAvatars numMonsters numHumans)) ORIGIN)
    (Dock_new DESTINATION (numMonsters + numHumans)).

(** How many times an avatar occurs in the three arrays together. *)
Definition occurrences (g : Game) (a : Avatar) : nat :=
  count_occ Avatar_eq_dec (getPassengers (dockOrigin g)) a +
  count_occ Avatar_eq_dec (getPassengers (boat g)) a +
  count_occ Avatar_eq_dec (getPassengers (dockDestination g)) a.

(** [size <= maxCapacity] for the boat. *)
Definition boatWithinCapacity (w : World) : Prop :=
  getPassengerCount (boat (game w)) <= _maxCapacity (boat (game w)).

(** The avatars by number. *)
Definition human (i : nat) : Avatar := newAvatar HUMAN "human-" i.
Definition monster (i : nat) : Avatar := newAvatar MONSTER "monster-" i.

(** The world in which the callback of the first pending timeout, a
    voyage to [voyageTo], evaluates the outcome. *)
Definition atEvaluation (voyageTo : Location) (w : World) : World :=
  arrived voyageTo
    (set_view (with_isAnimating false)
       (set_view (fun v => with_timers (removeNth 0 (timers v)) v) w)).

(** The default game: three monsters, three humans, a boat for two. *)
Definition classicStart : World := startNewGame 3 3 2.

(** One human aboard, at the origin. *)
Definition oneAboard : World := run [AvatarClicked (human 0)] classicStart.

(** The same, after the boat was launched. *)
Definition midVoyage : World := run [BoatClicked] oneAboard.

(** A human and a monster have crossed and are still aboard. *)
Definition landed : World :=
  run [AvatarClicked (human 0); AvatarClicked (monster 0); BoatClicked; TimeoutFired 0]
      classicStart.

(** A human crosses alone: the origin side is left with three monsters
    and two humans when the outcome is evaluated. *)
Definition humanAlone : World := atEvaluation DESTINATION midVoyage.

(** One monster and one human cross together and the game is won. *)
Definition wonGame : World :=
  run [AvatarClicked (human 0); AvatarClicked (monster 0); BoatClicked; TimeoutFired 0]
      (startNewGame 1 1 2).

(** Two monsters and one human: the human ferries the monsters across;
    on the last crossing the destination side holds two monsters and the
    human. *)
Definition outnumberedSailing : World :=
  run [AvatarClicked (human 0); AvatarClicked (monster 0); BoatClicked; TimeoutFired 0;
       AvatarClicked (monster 0); BoatClicked; TimeoutFired 0;
       AvatarClicked (monster 1); BoatClicked]
      (startNewGame 2 1 2).

(** The arrival of that last crossing. *)
Definition outnumberedArrival : World := atEvaluation DESTINATION outnumberedSailing.

(** Four monsters, two humans, a boat for three: two monsters and a
    human cross, leaving two monsters and a human behind. *)
Definition splitSailing : World :=
  run [AvatarClicked (monster 0); AvatarClicked (monster 1); AvatarClicked (human 0);
       BoatClicked]
      (startNewGame 4 2 3).

(** Their arrival: both sides then hold two monsters and one human. *)
Definition splitArrival : World := atEvaluation DESTINATION splitSailing.

(** One monster and one human, both aboard, on their way across. *)
Definition lastSailing : World :=
  run [AvatarClicked (human 0); AvatarClicked (monster 0); BoatClicked]
      (startNewGame 1 1 2).

(** ** More of the code, and what its properties are stated with *)

(** [getAvatarById(id)]: [this.avatars.find(avatar => avatar.getId() === id)];
    [None] is [undefined]. *)
Definition getAvatarById (g : Game) (id : string) : option Avatar :=
  find (fun avatar => String.eqb (getId avatar) id) (avatars g).

(** [Map.prototype.set] on a map from predator id to prey id, kept as
    the list of its entries in insertion order: an existing key keeps its
    place and takes the new value. *)
Fixpoint Map_set (key value : string) (targets : list (string * string))
  : list (string * string) :=
  match targets with
  | [] => [(key, value)]
  | (k, v) :: rest =>
      if String.eqb k key then (k, value) :: rest
      else (k, v) :: Map_set key value rest
  end.

(** [Map.prototype.get]; [None] is [undefined]. *)
Fixpoint Map_get (key : string) (targets : list (string * string)) : option string :=
  match targets with
  | [] => None
  | (k, v) :: rest => if String.eqb k key then Some v else Map_get key rest
  end.

(** The target assignment of [playFeastAnimation]:
    [predatorList.forEach(predator => { targets.set(predator.getId(),
    preyList[preyIndex].getId()); preyIndex = (preyIndex + 1) %
    preyList.length; })].  Reading [preyList[preyIndex]] past the end
    gives [undefined], whose [getId] throws. *)
Fixpoint assignTargets (predatorList preyList : list Avatar) (preyIndex : nat)
                       (targets : list (string * string))
  : Completion (list (string * string)) :=
  match predatorList with
  | [] => Normal targets
  | predator :: rest =>
      match nth_error preyList preyIndex with
      | None => Throw TypeError
      | Some prey =>
          assignTargets rest preyList
            ((preyIndex + 1) mod (length preyList))
            (Map_set (getId predator) (getId prey) targets)
      end
  end.

(** A call of [addPassenger] or [removePassenger] on a mount. *)
Inductive MountOp : Type :=
| AddPassenger (avatar : Avatar)
| RemovePassenger (avatar : Avatar).

Definition applyMountOp (m : MountObj) (op : MountOp) : MountObj :=
  match op with
  | AddPassenger avatar => snd (addPassenger avatar m)
  | RemovePassenger avatar => snd (removePassenger avatar m)
  end.

(** The three phases of the running program. *)
Definition atRest (w : World) : Prop :=
  timers (view w) = [] /\
  isAnimating (view w) = false /\
  boat_location (boat (game w)) <> RIVER.

Definition inFlight (voyageTo : Location) (w : World) : Prop :=
  timers (view w) = [VoyageTimeout voyageTo] /\
  isAnimating (view w) = true /\
  boat_location (boat (game w)) = RIVER /\
  status (game w) = ONGOING /\
  voyageTo <> RIVER /\
  getPassengers (boat (game w)) <> [] /\
  Nat.even (tripCount (game w)) = Location_eqb voyageTo ORIGIN.

Definition feasting (w : World) : Prop :=
  timers (view w) = [FeastTimeout] /\
  isAnimating (view w) = true /\
  status (game w) = LOST /\
  boat_location (boat (game w)) <> RIVER.

Definition phase (w : World) : Prop :=
  atRest w \/ (exists voyageTo, inFlight voyageTo w) \/ feasting w.

(** More of what holds of every world the program reaches: the roster,
    the zones of the avatars, the phase, the parity of the trip counter,
    the balance of a game at rest and the meaning of a decided game. *)
Record Coherent (w : World) : Prop := mkCoherent {
  co_roster : avatars (game w) =
              initialAvatars (numMonsters (game w)) (numHumans (game w));
  co_min : _minCapacity (boat (game w)) = 1;
  co_zone_origin : forall a, In a (getPassengers (dockOrigin (game w))) ->
                             getLocation (heap w) a = ORIGIN;
  co_zone_dest : forall a, In a (getPassengers (dockDestination (game w))) ->
                           getLocation (heap w) a = DESTINATION;
  co_zone_boat : forall a, In a (getPassengers (boat (game w))) ->
                           getLocation (heap w) a = boat_location (boat (game w));
  co_phase : phase w;
  co_parity : boat_location (boat (game w)) <> RIVER ->
              Nat.even (tripCount (game w)) =
              Location_eqb (boat_location (boat (game w))) ORIGIN;
  co_balanced : status (game w) = ONGOING ->
                boat_location (boat (game w)) <> RIVER ->
                1 <= tripCount (game w) ->
                isBalanced (game w) (dockOrigin (game w)) = true /\
                isBalanced (game w) (dockDestination (game w)) = true;
  co_won : status (game w) = WON -> winCondition (game w);
  co_lost : status (game w) = LOST ->
            isBalanced (game w) (dockOrigin (game w)) = false \/
            isBalanced (game w) (dockDestination (game w)) = false;
  co_listeners : listeners (view w) = renderedListeners (game w)
}.

(** A human and a monster aboard, at the origin. *)
Definition twoAboard : World :=
  run [AvatarClicked (human 0); AvatarClicked (monster 0)] classicStart.

(** A human has crossed alone and the game is lost; the feast is on. *)
Definition lostGame : World :=
  run [AvatarClicked (human 0); BoatClicked; TimeoutFired 0] classicStart.

(** ** The methods of the game, whoever calls them *)

(** What the conservation of the avatars needs of a game. *)
Record Conserved (g : Game) : Prop := mkConserved {
  cs_nodup : NoDup (avatars g);
  cs_perm : Permutation (allPassengers g) (avatars g);
  cs_config : totalAvatars g = numMonsters g + numHumans g;
  cs_total : totalAvatars g = length (avatars g);
  cs_origin_cap : _maxCapacity (dockOrigin g) = totalAvatars g;
  cs_dest_cap : _maxCapacity (dockDestination g) = totalAvatars g
}.

(** The worlds reached from a new game when the methods of the game are
    called by any caller, the view's flag [isAnimating] not being asked:
    [handleBoatClick] at any time, also during a voyage; the callbacks of
    the pending timeouts; and [handleAvatarClick] for any avatar whenever
    the boat lies at a dock.  Only a call of [handleAvatarClick] with the
    boat on the river is left out. *)
Inductive engineReachable : World -> Prop :=
| engine_start (numMonsters numHumans boatCapacity : nat) :
    engineReachable (startNewGame numMonsters numHumans boatCapacity)
| engine_avatar (avatar : Avatar) (w : World) :
    engineReachable w ->
    boat_location (boat (game w)) <> RIVER ->
    engineReachable (exec (handleAvatarClick avatar) w)
| engine_boat (w : World) :
    engineReachable w -> engineReachable (exec handleBoatClick w)
| engine_timeout (n : nat) (w : World) :
    engineReachable w -> engineReachable (exec (dispatch (TimeoutFired n)) w).

(** [handleBoatClick] called once more while the voyage of [midVoyage] is
    in flight. *)
Definition relaunched : World := exec handleBoatClick midVoyage.

(** [handleAvatarClick] called for the passenger during that voyage. *)
Definition overboard : World := exec (handleAvatarClick (human 0)) midVoyage.

(** * Properties *)

(** ** Equality tests *)

Lemma Location_eqb_eq (a b : Location) : Location_eqb a b = true <-> a = b.
Proof. destruct a, b; cbn; split; congruence. Qed.

Lemma AvatarType_eqb_eq (a b : AvatarType) : AvatarType_eqb a b = true <-> a = b.
Proof. destruct a, b; cbn; split; congruence. Qed.

Lemma GameStatus_eqb_eq (a b : GameStatus) : GameStatus_eqb a b = true <-> a = b.
Proof. destruct a, b; cbn; split; congruence. Qed.

Lemma Avatar_eqb_eq (a b : Avatar) : Avatar_eqb a b = true <-> a = b.
Proof.
  destruct a as [ta ia], b as [tb ib]; unfold Avatar_eqb; cbn.
  rewrite andb_true_iff, AvatarType_eqb_eq, String.eqb_eq.
  split; [intros [-> ->]; reflexivity | intros H; inversion H; auto].
Qed.

Lemma Avatar_eqb_refl (a : Avatar) : Avatar_eqb a a = true.
Proof. apply Avatar_eqb_eq; reflexivity. Qed.

Lemma Avatar_eqb_neq (a b : Avatar) : Avatar_eqb a b = false <-> a <> b.
Proof.
  rewrite <- Avatar_eqb_eq. destruct (Avatar_eqb a b); split; congruence.
Qed.

(** ** Counting the avatars of a side *)

Lemma countType_app (t : AvatarType) (l1 l2 : list Avatar) :
  countType t (l1 ++ l2) = countType t l1 + countType t l2.
Proof. unfold countType. rewrite filter_app, length_app. reflexivity. Qed.

Lemma fold_countAvatar (l : list Avatar) (monsters humans : nat) :
  fold_left countAvatar l (monsters, humans) =
  (monsters + countType MONSTER l, humans + countType HUMAN l).
Proof.
  revert monsters humans.
  induction l as [|a l IH]; intros monsters humans; cbn.
  - f_equal; lia.
  - destruct a as [[] id]; cbn; rewrite IH; unfold countType; cbn; f_equal; lia.
Qed.

Lemma isBalanced_counts (g : Game) (dock : Dock) :
  isBalanced g dock =
  (countType HUMAN (sideAvatars g dock) =? 0) ||
  (countType MONSTER (sideAvatars g dock) <=? countType HUMAN (sideAvatars g dock)).
Proof.
  unfold isBalanced, sideAvatars.
  rewrite !countType_app, fold_countAvatar.
  destruct (Location_eqb (dock_location dock) (boat_location (boat g))).
  - rewrite fold_countAvatar. cbn. reflexivity.
  - cbn. rewrite !Nat.add_0_r. reflexivity.
Qed.

(** The balance rule: a side is unbalanced exactly when it has a human
    and more monsters than humans. *)
Lemma isBalanced_false_iff (g : Game) (dock : Dock) :
  isBalanced g dock = false <->
  0 < countType HUMAN (sideAvatars g dock) /\
  countType HUMAN (sideAvatars g dock) < countType MONSTER (sideAvatars g dock).
Proof.
  rewrite isBalanced_counts, orb_false_iff, Nat.eqb_neq, Nat.leb_gt. lia.
Qed.

Lemma fold_listAvatar (l predatorList preyList : list Avatar) :
  fold_left listAvatar l (predatorList, preyList) =
  (predatorList ++ filter (isType MONSTER) l, preyList ++ filter (isType HUMAN) l).
Proof.
  revert predatorList preyList.
  induction l as [|a l IH]; intros predatorList preyList; cbn.
  - rewrite !app_nil_r; reflexivity.
  - destruct a as [[] id]; cbn; rewrite IH, <- !app_assoc; reflexivity.
Qed.

(** The lists handed to the feast are the monsters and the humans of the
    dock's side. *)
Lemma feastLists_filter (g : Game) (dock : Dock) :
  feastLists g dock =
  (filter (isType MONSTER) (sideAvatars g dock),
   filter (isType HUMAN) (sideAvatars g dock)).
Proof.
  unfold feastLists, sideAvatars.
  rewrite !filter_app, fold_listAvatar.
  destruct (Location_eqb (dock_location dock) (boat_location (boat g))).
  - rewrite fold_listAvatar. reflexivity.
  - cbn. rewrite !app_nil_r. reflexivity.
Qed.

(** ** Outcome evaluation *)

Lemma winConditionb_true (g : Game) : winConditionb g = true <-> winCondition g.
Proof.
  unfold winConditionb, winCondition.
  rewrite !andb_true_iff, Location_eqb_eq, Nat.leb_le. tauto.
Qed.

(** The decision tree of [handleGameStatus]. *)
Lemma handleGameStatus_cases (w : World) :
  handleGameStatus w =
  if negb (GameStatus_eqb (status (game w)) ONGOING) then (Normal None, w)
  else if winConditionb (game w) then declareWin w
  else if negb (isBalanced (game w) (dockOrigin (game w))) then declareLoss DockOrigin w
  else if negb (isBalanced (game w) (dockDestination (game w)))
       then declareLoss DockDestination w
  else (Normal None, w).
Proof.
  unfold handleGameStatus, declareLoss, declareWin, winConditionb, bind, gets, ret.
  destruct (negb (GameStatus_eqb (status (game w)) ONGOING)); [reflexivity|].
  destruct (isEmpty (dockOrigin (game w)) &&
            Location_eqb (boat_location (boat (game w))) DESTINATION &&
            (totalAvatars (game w) <=?
             getPassengerCount (dockDestination (game w)) +
             getPassengerCount (boat (game w)))); [reflexivity|].
  destruct (negb (isBalanced (game w) (dockOrigin (game w)))); [reflexivity|].
  destruct (negb (isBalanced (game w) (dockDestination (game w)))); reflexivity.
Qed.

Lemma declareWin_status (w : World) : status (game (exec declareWin w)) = WON.
Proof. reflexivity. Qed.

Lemma declareLoss_game (r : DockRef) (w : World) :
  game (exec (declareLoss r) w) = with_status LOST (game w).
Proof.
  unfold declareLoss, handleFeast, playFeastAnimation, exec, bind, gets, modify, called, ret.
  cbn.
  destruct (fst (feastLists _ _)), (snd (feastLists _ _)); reflexivity.
Qed.

(** The view call made by a declared loss carries the monsters and the
    humans of the side of the dock it is declared at. *)
Lemma declareLoss_calls (r : DockRef) (w : World) :
  calls (view (exec (declareLoss r) w)) =
  calls (view w) ++
  [PlayFeastAnimation
     (filter (isType MONSTER) (sideAvatars (game w) (dockAt r (game w))))
     (filter (isType HUMAN) (sideAvatars (game w) (dockAt r (game w))))].
Proof.
  unfold declareLoss, handleFeast, playFeastAnimation, exec, bind, gets, modify, called, ret.
  cbn [fst snd game view set_game set_view].
  replace (dockAt r (with_status LOST (game w))) with (dockAt r (game w))
    by (destruct r; reflexivity).
  replace (feastLists (with_status LOST (game w)) (dockAt r (game w)))
    with (feastLists (game w) (dockAt r (game w))) by reflexivity.
  rewrite feastLists_filter. cbn [fst snd].
  destruct (filter (isType MONSTER) _), (filter (isType HUMAN) _); reflexivity.
Qed.

(** A side that is unbalanced has a human, so the feast finds a prey and
    does not throw. *)
Lemma declareLoss_completion (r : DockRef) (w : World) :
  isBalanced (game w) (dockAt r (game w)) = false ->
  completion (declareLoss r) w = Normal None.
Proof.
  intros Hb. apply isBalanced_false_iff in Hb. destruct Hb as [Hh _].
  unfold declareLoss, handleFeast, playFeastAnimation, completion, bind, gets, modify,
    called, ret.
  cbn [fst snd game view set_game set_view].
  replace (dockAt r (with_status LOST (game w))) with (dockAt r (game w))
    by (destruct r; reflexivity).
  replace (feastLists (with_status LOST (game w)) (dockAt r (game w)))
    with (feastLists (game w) (dockAt r (game w))) by reflexivity.
  rewrite feastLists_filter. cbn [fst snd].
  unfold countType in Hh.
  destruct (filter (isType HUMAN) _); [cbn in Hh; lia|].
  destruct (filter (isType MONSTER) _); reflexivity.
Qed.

(** With the origin dock bound to the origin side, a game that meets the
    win condition has nobody on the origin side. *)
Lemma winCondition_origin_balanced (g : Game) :
  dock_location (dockOrigin g) = ORIGIN ->
  winCondition g -> isBalanced g (dockOrigin g) = true.
Proof.
  intros Hloc (Hempty & Hboat & _).
  rewrite isBalanced_counts. unfold sideAvatars, getPassengers.
  unfold isEmpty in Hempty. apply Nat.eqb_eq in Hempty.
  apply length_zero_iff_nil in Hempty. rewrite Hempty, Hloc, Hboat. reflexivity.
Qed.

(** C2, as the code has it.  A side is unbalanced exactly when it has a
    human and more monsters than humans, counting the dock and, when it
    lies there, the boat.  On an ongoing game that does not meet the win
    condition, [handleGameStatus] declares a loss at the origin dock when
    the origin side is unbalanced, otherwise at the destination dock when
    the destination side is unbalanced, and otherwise changes nothing; so
    the game is lost exactly when one of the two sides is unbalanced.  A
    game that meets the win condition is won whatever the balance. *)
Theorem handleGameStatus_loss (w : World) :
  let g := game w in
  (forall dock : Dock,
      isBalanced g dock = false <->
      0 < countType HUMAN (sideAvatars g dock) /\
      countType HUMAN (sideAvatars g dock) < countType MONSTER (sideAvatars g dock)) /\
  (status g = ONGOING -> ~ winCondition g ->
     (isBalanced g (dockOrigin g) = false ->
        handleGameStatus w = declareLoss DockOrigin w) /\
     (isBalanced g (dockOrigin g) = true ->
      isBalanced g (dockDestination g) = false ->
        handleGameStatus w = declareLoss DockDestination w) /\
     (isBalanced g (dockOrigin g) = true ->
      isBalanced g (dockDestination g) = true ->
        handleGameStatus w = (Normal None, w)) /\
     (status (game (exec handleGameStatus w)) = LOST <->
      isBalanced g (dockOrigin g) = false \/
      isBalanced g (dockDestination g) = false)) /\
  (status g = ONGOING -> winCondition g ->
     handleGameStatus w = declareWin w /\
     status (game (exec handleGameStatus w)) = WON).
Proof.
  intros g. subst g. split; [intros dock; apply isBalanced_false_iff|].
  split.
  - intros Hs Hw. rewrite <- winConditionb_true in Hw.
    apply not_true_is_false in Hw.
    unfold exec. rewrite handleGameStatus_cases, Hs, Hw. cbn [GameStatus_eqb negb].
    repeat split.
    + intros ->; reflexivity.
    + intros -> ->; reflexivity.
    + intros -> ->; reflexivity.
    + destruct (isBalanced (game w) (dockOrigin (game w))); cbn [negb].
      * destruct (isBalanced (game w) (dockDestination (game w))); cbn [negb].
        -- cbn. rewrite Hs. intros H; discriminate.
        -- intros _. right; reflexivity.
      * intros _. left; reflexivity.
    + destruct (isBalanced (game w) (dockOrigin (game w))); cbn [negb].
      * destruct (isBalanced (game w) (dockDestination (game w))); cbn [negb].
        -- intros [H|H]; discriminate.
        -- intros _. fold (exec (declareLoss DockDestination) w).
           rewrite declareLoss_game. reflexivity.
      * intros _. fold (exec (declareLoss DockOrigin) w).
        rewrite declareLoss_game. reflexivity.
  - intros Hs Hw. rewrite <- winConditionb_true in Hw.
    unfold exec. rewrite handleGameStatus_cases, Hs, Hw. cbn [GameStatus_eqb negb].
    split; reflexivity.
Qed.

(** C10. When both sides are unbalanced at the evaluation, the loss is
    declared at the origin dock: the game is lost and the feast is played
    with the monsters and the humans of the origin dock, followed by those
    of the boat when the boat lies at the origin; the avatars of the
    destination dock take no part in it. *)
Theorem handleGameStatus_origin_first (w : World) :
  let g := game w in
  let originSide :=
    getPassengers (dockOrigin g) ++
    (if Location_eqb ORIGIN (boat_location (boat g))
     then getPassengers (boat g) else []) in
  status g = ONGOING ->
  dock_location (dockOrigin g) = ORIGIN ->
  isBalanced g (dockOrigin g) = false ->
  isBalanced g (dockDestination g) = false ->
  handleGameStatus w = declareLoss DockOrigin w /\
  completion handleGameStatus w = Normal None /\
  status (game (exec handleGameStatus w)) = LOST /\
  calls (view (exec handleGameStatus w)) =
    calls (view w) ++
    [PlayFeastAnimation (filter (isType MONSTER) originSide)
                        (filter (isType HUMAN) originSide)].
Proof.
  intros g originSide Hs Hloc Ho Hd. subst g originSide.
  assert (Hw : winConditionb (game w) = false).
  { destruct (winConditionb (game w)) eqn:E; [|reflexivity].
    apply winConditionb_true in E.
    apply (winCondition_origin_balanced Hloc) in E. congruence. }
  assert (E : handleGameStatus w = declareLoss DockOrigin w).
  { rewrite handleGameStatus_cases, Hs, Hw, Ho. reflexivity. }
  unfold exec, completion. rewrite E.
  fold (exec (declareLoss DockOrigin) w). fold (completion (declareLoss DockOrigin) w).
  rewrite declareLoss_game, declareLoss_calls.
  repeat split.
  - apply declareLoss_completion. exact Ho.
  - unfold sideAvatars. cbn [dockAt]. rewrite Hloc. reflexivity.
Qed.

(** ** Launching the boat *)

Lemma forEach_setLocation (location : Location) (l : list Avatar) (w : World) :
  forEach l (Avatar_setLocation location) w =
  (Normal tt, mkWorld (game w) (setLocations location l (heap w)) (view w)).
Proof.
  revert w. induction l as [|a l IH]; intros [g h v].
  - reflexivity.
  - cbn [forEach]. unfold bind. cbn. rewrite IH. reflexivity.
Qed.

Lemma setLocations_cons (location : Location) (a : Avatar) (l : list Avatar) (h : Heap) :
  setLocations location (a :: l) h =
  setLocations location l (heap_set h a (mkAvatarFields location (_mounted (h a)))).
Proof. reflexivity. Qed.

Lemma setLocations_mounted (location : Location) (l : list Avatar) (h : Heap) (b : Avatar) :
  _mounted (setLocations location l h b) = _mounted (h b).
Proof.
  revert h. induction l as [|a l IH]; intros h; [reflexivity|].
  rewrite setLocations_cons, IH. unfold heap_set.
  destruct (Avatar_eqb b a) eqn:E; [|reflexivity].
  apply Avatar_eqb_eq in E. subst b. reflexivity.
Qed.

Lemma setLocations_notin (location : Location) (l : list Avatar) (h : Heap) (b : Avatar) :
  ~ In b l -> setLocations location l h b = h b.
Proof.
  revert h. induction l as [|a l IH]; intros h Hn; [reflexivity|].
  rewrite setLocations_cons, IH by (intros H; apply Hn; right; exact H).
  unfold heap_set.
  destruct (Avatar_eqb b a) eqn:E; [|reflexivity].
  apply Avatar_eqb_eq in E. subst b. exfalso. apply Hn. left; reflexivity.
Qed.

Lemma setLocations_in (location : Location) (l : list Avatar) (h : Heap) (b : Avatar) :
  In b l -> _location (setLocations location l h b) = location.
Proof.
  revert h. induction l as [|a l IH]; intros h Hin; [destruct Hin|].
  rewrite setLocations_cons. destruct (in_dec Avatar_eq_dec b l) as [Hl|Hl].
  - apply IH. exact Hl.
  - rewrite setLocations_notin by exact Hl.
    destruct Hin as [->|Hin]; [|contradiction].
    unfold heap_set. rewrite Avatar_eqb_refl. reflexivity.
Qed.

Lemma handleBoatClick_cases (w : World) :
  handleBoatClick w =
  if negb (GameStatus_eqb (status (game w)) ONGOING) then (Normal tt, w)
  else if negb (canSail (boat (game w)))
       then showMessage "Someone needs to row the boat!" "info" w
  else (Normal tt, launched w).
Proof.
  unfold handleBoatClick, bind, gets.
  destruct (negb (GameStatus_eqb (status (game w)) ONGOING)); [reflexivity|].
  destruct (negb (canSail (boat (game w)))); [reflexivity|].
  unfold modify at 1 2. cbn [fst snd game set_game with_boat boat Boat_setStatus
    Boat_setLocation boat_super boat_location boat_status].
  rewrite forEach_setLocation. reflexivity.
Qed.

Lemma getDestinationLocation_opposite (b : Boat) (side : Location) :
  oppositeSide (boat_location b) = Some side -> getDestinationLocation b = side.
Proof.
  unfold getDestinationLocation. destruct (boat_location b); cbn; congruence.
Qed.

Lemma getDestinationLocation_side (b : Boat) : getDestinationLocation b <> RIVER.
Proof. unfold getDestinationLocation. destruct (boat_location b); discriminate. Qed.

(** C3. On an ongoing game [handleBoatClick] launches the boat exactly
    when the boat holds at least [_minCapacity] passengers.  A launch puts
    the boat in status sailing on the river, puts every passenger on the
    river, adds one to the trip counter and schedules the arrival at the
    side opposite the one the boat left; nothing else of the game changes.
    Otherwise (so with nobody aboard, the minimum being 1) the game and the
    avatars are unchanged, the game stays ongoing, and the view is asked to
    show a message. *)
Theorem handleBoatClick_launch (w : World) :
  let g := game w in
  let w' := exec handleBoatClick w in
  let g' := game w' in
  status g = ONGOING ->
  completion handleBoatClick w = Normal tt /\
  (tripCount g' = tripCount g + 1 <->
   _minCapacity (boat g) <= getPassengerCount (boat g)) /\
  (_minCapacity (boat g) <= getPassengerCount (boat g) ->
     boat_status (boat g') = SAILING /\
     boat_location (boat g') = RIVER /\
     (forall a, In a (getPassengers (boat g')) -> getLocation (heap w') a = RIVER) /\
     tripCount g' = tripCount g + 1 /\
     timers (view w') =
       timers (view w) ++ [VoyageTimeout (getDestinationLocation (boat g))] /\
     (forall side, oppositeSide (boat_location (boat g)) = Some side ->
                   getDestinationLocation (boat g) = side) /\
     isAnimating (view w') = true /\
     status g' = ONGOING /\
     boat_super (boat g') = boat_super (boat g) /\
     dockOrigin g' = dockOrigin g /\
     dockDestination g' = dockDestination g /\
     (forall a, getMounted (heap w') a = getMounted (heap w) a)) /\
  (getPassengerCount (boat g) < _minCapacity (boat g) ->
     g' = g /\ heap w' = heap w /\ status g' = ONGOING /\
     isAnimating (view w') = isAnimating (view w) /\
     timers (view w') = timers (view w) /\
     calls (view w') =
       calls (view w) ++ [ShowMessage "Someone needs to row the boat!" "info"]).
Proof.
  intros g w' g' Hs. subst g w' g'.
  unfold exec, completion. rewrite handleBoatClick_cases, Hs.
  cbn [GameStatus_eqb negb]. unfold canSail, getPassengerCount.
  destruct (_minCapacity (boat (game w)) <=? length (_passengers (boat (game w)))) eqn:E;
    cbn [negb fst snd].
  - apply Nat.leb_le in E.
    split; [reflexivity|]. split; [cbn; tauto|]. split; [|lia].
    intros _. cbn. repeat split; try assumption.
    + intros a Ha. unfold getLocation. apply setLocations_in. exact Ha.
    + intros side. apply getDestinationLocation_opposite.
    + intros a. unfold getMounted. apply setLocations_mounted.
  - apply Nat.leb_gt in E.
    split; [reflexivity|]. split; [cbn; lia|]. split; [lia|].
    intros _. cbn. repeat split. exact Hs.
Qed.

(** ** Boarding and leaving the boat *)

Lemma splice1_indexOf (a : Avatar) (l : list Avatar) (i : nat) :
  indexOf a l = Some i -> splice1 i l = removeFirst a l.
Proof.
  revert i. induction l as [|x l IH]; intros i; cbn; [discriminate|].
  destruct (Avatar_eqb x a).
  - intros H; inversion H; reflexivity.
  - destruct (indexOf a l) as [j|]; [|discriminate].
    intros H; inversion H; subst i. unfold splice1 in *. cbn.
    f_equal. apply IH. reflexivity.
Qed.

Lemma indexOf_None (a : Avatar) (l : list Avatar) :
  indexOf a l = None -> removeFirst a l = l.
Proof.
  induction l as [|x l IH]; cbn; [reflexivity|].
  destruct (Avatar_eqb x a); [discriminate|].
  destruct (indexOf a l); [discriminate|].
  intros _. f_equal. apply IH. reflexivity.
Qed.

Lemma hasPassenger_In (m : MountObj) (a : Avatar) :
  hasPassenger m a = true <-> In a (_passengers m).
Proof.
  unfold hasPassenger. rewrite existsb_exists. split.
  - intros (x & Hx & E). apply Avatar_eqb_eq in E. subst x. exact Hx.
  - intros H. exists a. split; [exact H | apply Avatar_eqb_refl].
Qed.

Lemma hasPassenger_false (m : MountObj) (a : Avatar) :
  hasPassenger m a = false <-> ~ In a (_passengers m).
Proof.
  rewrite <- hasPassenger_In. destruct (hasPassenger m a); split; congruence.
Qed.

Lemma removePassenger_snd (a : Avatar) (m : MountObj) :
  snd (removePassenger a m) =
  mkMountObj (_minCapacity m) (_maxCapacity m) (removeFirst a (_passengers m)).
Proof.
  unfold removePassenger. destruct (indexOf a (_passengers m)) as [i|] eqn:E; cbn.
  - rewrite (splice1_indexOf _ _ E). reflexivity.
  - rewrite (indexOf_None _ _ E). destruct m; reflexivity.
Qed.

Lemma addPassenger_snd (a : Avatar) (m : MountObj) :
  snd (addPassenger a m) =
  if isFull m then m
  else mkMountObj (_minCapacity m) (_maxCapacity m) (_passengers m ++ [a]).
Proof. unfold addPassenger. destruct (isFull m); reflexivity. Qed.

Lemma removeFirst_Permutation (a : Avatar) (l : list Avatar) :
  In a l -> Permutation l (a :: removeFirst a l).
Proof.
  induction l as [|x l IH]; [intros []|].
  intros Hin. cbn. destruct (Avatar_eqb x a) eqn:E.
  - apply Avatar_eqb_eq in E. subst x. reflexivity.
  - destruct Hin as [->|Hin]; [rewrite Avatar_eqb_refl in E; discriminate|].
    rewrite (IH Hin) at 1. apply perm_swap.
Qed.

Lemma removeFirst_notin (a : Avatar) (l : list Avatar) :
  ~ In a l -> removeFirst a l = l.
Proof.
  induction l as [|x l IH]; intros Hn; cbn; [reflexivity|].
  destruct (Avatar_eqb x a) eqn:E.
  - apply Avatar_eqb_eq in E. subst x. exfalso; apply Hn; left; reflexivity.
  - f_equal. apply IH. intros H; apply Hn; right; exact H.
Qed.

Lemma handleAvatarClick_cases (avatar : Avatar) (w : World) :
  handleAvatarClick avatar w =
  if negb (GameStatus_eqb (status (game w)) ONGOING) then (Normal tt, w)
  else match getMounted (heap w) avatar with
       | ON_DOCK =>
           match getDockByLocation (boat_location (boat (game w))) with
           | None => (Throw TypeError, w)
           | Some currentDock =>
               if negb (hasPassenger (dockAt currentDock (game w)) avatar)
               then showMessage "Boat is on the other side!" "info" w
               else if isFull (boat (game w))
                    then showMessage "Boat is at full capacity!" "info" w
                    else board currentDock avatar w
           end
       | ON_BOAT =>
           if negb (hasPassenger (boat (game w)) avatar) then (Normal tt, w)
           else disembark avatar w
       end.
Proof.
  unfold handleAvatarClick, board, disembark.
  unfold bind at 1, gets at 1. cbn [fst snd].
  destruct (negb (GameStatus_eqb (status (game w)) ONGOING)); [reflexivity|].
  unfold bind at 1, gets at 1.
  destruct (getMounted (heap w) avatar).
  - unfold bind at 1, gets at 1.
    destruct (getDockByLocation (boat_location (boat (game w)))); [|reflexivity].
    unfold bind at 1, gets at 1.
    destruct (negb (hasPassenger (dockAt d (game w)) avatar)); [reflexivity|].
    unfold bind at 1, gets at 1.
    destruct (isFull (boat (game w))); reflexivity.
  - unfold bind at 1, gets at 1.
    destruct (negb (hasPassenger (boat (game w)) avatar)); reflexivity.
Qed.

Lemma dockAt_with_boat (r : DockRef) (b : Boat) (g : Game) :
  dockAt r (with_boat b g) = dockAt r g.
Proof. destruct r; reflexivity. Qed.

Lemma boat_with_dockAt (r : DockRef) (d : Dock) (g : Game) :
  boat (with_dockAt r d g) = boat g.
Proof. destruct r; reflexivity. Qed.

Lemma dockAt_with_dockAt (r : DockRef) (d : Dock) (g : Game) :
  dockAt r (with_dockAt r d g) = d.
Proof. destruct r; reflexivity. Qed.

Lemma dockAt_with_dockAt_other (r : DockRef) (d : Dock) (g : Game) :
  dockAt (otherDock r) (with_dockAt r d g) = dockAt (otherDock r) g.
Proof. destruct r; reflexivity. Qed.

Lemma board_boarded (currentDock : DockRef) (avatar : Avatar) (w : World) :
  isFull (boat (game w)) = false ->
  board currentDock avatar w = (Normal tt, boarded currentDock avatar w).
Proof.
  intros Hfull.
  unfold board, bind, Dock_removePassenger, Boat_addPassenger.
  destruct (removePassenger avatar (dockAt currentDock (game w))) as [ok m] eqn:Er.
  pose proof (removePassenger_snd avatar (dockAt currentDock (game w))) as Hm.
  rewrite Er in Hm. cbn [snd] in Hm. subst m.
  cbn [game set_game].
  rewrite boat_with_dockAt.
  destruct (addPassenger avatar (boat (game w))) as [ok' m'] eqn:Ea.
  pose proof (addPassenger_snd avatar (boat (game w))) as Hm'.
  rewrite Ea, Hfull in Hm'. cbn [snd] in Hm'. subst m'.
  reflexivity.
Qed.

Lemma disembark_disembarked (currentDock : DockRef) (avatar : Avatar) (w : World) :
  getDockByLocation (boat_location (boat (game w))) = Some currentDock ->
  isFull (dockAt currentDock (game w)) = false ->
  disembark avatar w = (Normal tt, disembarked currentDock avatar w).
Proof.
  intros Hdock Hfull.
  unfold disembark, bind, Boat_removePassenger, gets.
  destruct (removePassenger avatar (boat (game w))) as [ok m] eqn:Er.
  pose proof (removePassenger_snd avatar (boat (game w))) as Hm.
  rewrite Er in Hm. cbn [snd] in Hm. subst m.
  cbn [game set_game with_boat boat boat_location]. rewrite Hdock.
  unfold Dock_addPassenger. cbn [game set_game].
  rewrite dockAt_with_boat.
  destruct (addPassenger avatar (dockAt currentDock (game w))) as [ok' m'] eqn:Ea.
  pose proof (addPassenger_snd avatar (dockAt currentDock (game w))) as Hm'.
  rewrite Ea, Hfull in Hm'. cbn [snd] in Hm'. subst m'.
  reflexivity.
Qed.

(** On the river there is no dock to step onto: the avatar has left the
    boat's array when the exception is thrown. *)
Lemma disembark_river (avatar : Avatar) (w : World) :
  boat_location (boat (game w)) = RIVER ->
  disembark avatar w =
  (Throw TypeError,
   set_game (fun g => with_boat
      (mkBoat (mkMountObj (_minCapacity (boat g)) (_maxCapacity (boat g))
                          (removeFirst avatar (_passengers (boat g))))
              (boat_location (boat g)) (boat_status (boat g))) g) w).
Proof.
  intros Hloc.
  assert (Hnull : getDockByLocation (boat_location (boat (game w))) = None)
    by (rewrite Hloc; reflexivity).
  unfold disembark, bind, Boat_removePassenger, gets.
  destruct (removePassenger avatar (boat (game w))) as [ok m] eqn:Er.
  pose proof (removePassenger_snd avatar (boat (game w))) as Hm.
  rewrite Er in Hm. cbn [snd] in Hm. subst m.
  cbn [game set_game with_boat boat boat_location]. rewrite Hnull. reflexivity.
Qed.

Lemma showMessage_exec (message type : string) (w : World) :
  showMessage message type w =
  (Normal tt,
   mkWorld (game w) (heap w)
           (with_calls (calls (view w) ++ [ShowMessage message type]) (view w))).
Proof. reflexivity. Qed.

(** C6. Boarding.  For an avatar whose mount state is on-dock, with the
    boat lying at the side of [currentDock]: if the game is ongoing, the
    avatar is on that dock and the boat is not full, the avatar leaves the
    dock's array, joins the boat's array and becomes on-boat, and nothing
    else of the game changes; if the avatar is not on that dock (the boat
    is on the other shore), or the boat is full, the game and the avatars
    are unchanged and, the game being ongoing, the view is asked to show
    the reason. *)
Theorem handleAvatarClick_board (avatar : Avatar) (currentDock : DockRef) (w : World) :
  let g := game w in
  let w' := exec (handleAvatarClick avatar) w in
  let g' := game w' in
  getMounted (heap w) avatar = ON_DOCK ->
  getDockByLocation (boat_location (boat g)) = Some currentDock ->
  (status g = ONGOING ->
   In avatar (getPassengers (dockAt currentDock g)) ->
   isFull (boat g) = false ->
     completion (handleAvatarClick avatar) w = Normal tt /\
     getPassengers (dockAt currentDock g') =
       removeFirst avatar (getPassengers (dockAt currentDock g)) /\
     getPassengers (boat g') = getPassengers (boat g) ++ [avatar] /\
     getMounted (heap w') avatar = ON_BOAT /\
     getLocation (heap w') avatar = getLocation (heap w) avatar /\
     (forall b, b <> avatar -> heap w' b = heap w b) /\
     dockAt (otherDock currentDock) g' = dockAt (otherDock currentDock) g /\
     status g' = ONGOING /\
     tripCount g' = tripCount g /\
     boat_location (boat g') = boat_location (boat g) /\
     boat_status (boat g') = boat_status (boat g)) /\
  (~ In avatar (getPassengers (dockAt currentDock g)) ->
     completion (handleAvatarClick avatar) w = Normal tt /\
     g' = g /\ heap w' = heap w /\
     (status g = ONGOING ->
      calls (view w') =
        calls (view w) ++ [ShowMessage "Boat is on the other side!" "info"])) /\
  (In avatar (getPassengers (dockAt currentDock g)) ->
   isFull (boat g) = true ->
     completion (handleAvatarClick avatar) w = Normal tt /\
     g' = g /\ heap w' = heap w /\
     (status g = ONGOING ->
      calls (view w') =
        calls (view w) ++ [ShowMessage "Boat is at full capacity!" "info"])).
Proof.
  intros g w' g' Hm Hdock. subst g w' g'.
  unfold exec, completion. rewrite handleAvatarClick_cases, Hm, Hdock.
  unfold getPassengers.
  split; [|split].
  - intros Hs Hin Hfull. apply hasPassenger_In in Hin.
    rewrite Hs, Hin, Hfull. cbn [GameStatus_eqb negb].
    rewrite board_boarded by exact Hfull. cbn [fst snd].
    assert (Hself : getMounted (heap (boarded currentDock avatar w)) avatar = ON_BOAT /\
                    getLocation (heap (boarded currentDock avatar w)) avatar =
                    getLocation (heap w) avatar).
    { unfold boarded, getMounted, getLocation, heap_set. cbn [heap].
      rewrite Avatar_eqb_refl. split; reflexivity. }
    assert (Hothers : forall b, b <> avatar ->
                                heap (boarded currentDock avatar w) b = heap w b).
    { intros b Hb. unfold boarded, heap_set. cbn [heap].
      apply Avatar_eqb_neq in Hb. rewrite Hb. reflexivity. }
    destruct Hself as [Hself1 Hself2].
    destruct currentDock; (repeat split; try assumption).
  - intros Hin. apply hasPassenger_false in Hin. rewrite Hin.
    destruct (negb (GameStatus_eqb (status (game w)) ONGOING)) eqn:E; cbn [negb fst snd].
    + repeat split. intros Hs. rewrite Hs in E. discriminate.
    + repeat split.
  - intros Hin Hfull. apply hasPassenger_In in Hin. rewrite Hin, Hfull.
    destruct (negb (GameStatus_eqb (status (game w)) ONGOING)) eqn:E; cbn [negb fst snd].
    + repeat split. intros Hs. rewrite Hs in E. discriminate.
    + repeat split.
Qed.

(** ** The invariant of the running program *)

(** The invariant looks at the game, the mount states, the flag and the
    timeouts only. *)
Lemma Inv_ext (w w' : World) :
  game w' = game w ->
  (forall a, getMounted (heap w') a = getMounted (heap w) a) ->
  isAnimating (view w') = isAnimating (view w) ->
  timers (view w') = timers (view w) ->
  Inv w -> Inv w'.
Proof.
  intros Hg Hh Ha Ht [].
  constructor; rewrite ?Hg, ?Ha, ?Ht; try assumption.
  - intros a. rewrite Hh. auto.
  - intros a. rewrite Hh. auto.
Qed.

Lemma Inv_showMessage (message type : string) (w : World) :
  Inv w -> Inv (exec (showMessage message type) w).
Proof. apply Inv_ext; reflexivity. Qed.

Lemma removeFirst_incl (a b : Avatar) (l : list Avatar) :
  In b (removeFirst a l) -> In b l.
Proof.
  induction l as [|x l IH]; cbn; [auto|].
  destruct (Avatar_eqb x a); [auto|].
  intros [H|H]; [left; exact H | right; apply IH; exact H].
Qed.

Lemma removeFirst_NoDup (a : Avatar) (l : list Avatar) :
  NoDup l -> ~ In a (removeFirst a l).
Proof.
  induction 1 as [|x l Hx Hl IH]; cbn; [auto|].
  destruct (Avatar_eqb x a) eqn:E.
  - apply Avatar_eqb_eq in E. subst x. exact Hx.
  - intros [H|H]; [|apply IH; exact H].
    subst x. rewrite Avatar_eqb_refl in E. discriminate.
Qed.

Lemma NoDup_app_l (A : Type) (l1 l2 : list A) : NoDup (l1 ++ l2) -> NoDup l1.
Proof.
  induction l1 as [|x l1 IH]; cbn; intros H; [constructor|].
  inversion H; subst. constructor.
  - intros Hin. apply H2. apply in_or_app. left; exact Hin.
  - apply IH. assumption.
Qed.

Lemma NoDup_app_r (A : Type) (l1 l2 : list A) : NoDup (l1 ++ l2) -> NoDup l2.
Proof.
  induction l1 as [|x l1 IH]; cbn; intros H; [exact H|].
  inversion H; subst. apply IH. assumption.
Qed.

Lemma NoDup_app_disjoint (A : Type) (l1 l2 : list A) (x : A) :
  NoDup (l1 ++ l2) -> In x l1 -> In x l2 -> False.
Proof.
  induction l1 as [|y l1 IH]; cbn; intros H H1 H2; [exact H1|].
  inversion H; subst. destruct H1 as [->|H1].
  - apply H4. apply in_or_app. right; exact H2.
  - apply IH; assumption.
Qed.

(** In a world that satisfies the invariant the three arrays are
    duplicate free and pairwise disjoint. *)
Lemma Inv_NoDup_all (w : World) : Inv w -> NoDup (allPassengers (game w)).
Proof.
  intros H. apply (Permutation_NoDup (l := avatars (game w))).
  - symmetry. apply inv_perm. exact H.
  - apply inv_nodup. exact H.
Qed.

Lemma Inv_lengths (w : World) :
  Inv w ->
  getPassengerCount (dockOrigin (game w)) + getPassengerCount (boat (game w)) +
  getPassengerCount (dockDestination (game w)) = totalAvatars (game w).
Proof.
  intros H. rewrite (inv_total H).
  rewrite <- (Permutation_length (inv_perm H)).
  unfold allPassengers, getPassengerCount, getPassengers.
  rewrite !length_app. lia.
Qed.

Lemma Permutation_move_in (a : Avatar) (x y z : list Avatar) :
  Permutation (x ++ (y ++ [a]) ++ z) (a :: x ++ y ++ z).
Proof.
  rewrite <- app_assoc. cbn. rewrite !app_assoc.
  symmetry. apply Permutation_middle.
Qed.

Lemma Permutation_take_first (a : Avatar) (x y : list Avatar) :
  In a x -> Permutation (x ++ y) (a :: removeFirst a x ++ y).
Proof.
  intros H. rewrite (removeFirst_Permutation a x H) at 1. reflexivity.
Qed.

Lemma Permutation_take_middle (a : Avatar) (x y z : list Avatar) :
  In a y -> Permutation (x ++ y ++ z) (a :: x ++ removeFirst a y ++ z).
Proof.
  intros H. rewrite (removeFirst_Permutation a y H) at 1. cbn.
  symmetry. apply Permutation_middle.
Qed.

Lemma Permutation_take_last (a : Avatar) (x y z : list Avatar) :
  In a z -> Permutation (x ++ y ++ z) (a :: x ++ y ++ removeFirst a z).
Proof.
  intros H. rewrite (removeFirst_Permutation a z H) at 1.
  rewrite !app_assoc. symmetry. apply Permutation_middle.
Qed.

Lemma Permutation_put_first (a : Avatar) (x y z : list Avatar) :
  Permutation ((x ++ [a]) ++ y ++ z) (a :: x ++ y ++ z).
Proof.
  rewrite <- app_assoc. cbn. symmetry. apply Permutation_middle.
Qed.

Lemma Permutation_put_last (a : Avatar) (x y z : list Avatar) :
  Permutation (x ++ y ++ z ++ [a]) (a :: x ++ y ++ z).
Proof.
  rewrite !app_assoc. symmetry. apply Permutation_cons_append.
Qed.

(** Boarding keeps the invariant. *)
Lemma Inv_boarded (r : DockRef) (a : Avatar) (w : World) :
  Inv w ->
  In a (getPassengers (dockAt r (game w))) ->
  isFull (boat (game w)) = false ->
  Inv (boarded r a w).
Proof.
  intros H Hin Hfull.
  pose proof (Inv_NoDup_all H) as Hnd.
  unfold allPassengers, getPassengers in *.
  unfold isFull in Hfull. apply Nat.leb_gt in Hfull.
  destruct H.
  destruct r; cbn [dockAt] in Hin.
  - (* from the origin dock *)
    assert (Hgone : ~ In a (removeFirst a (_passengers (dockOrigin (game w))))).
    { apply removeFirst_NoDup. apply (NoDup_app_l _ _ Hnd). }
    assert (Hdest : ~ In a (_passengers (dockDestination (game w)))).
    { intros Hd. apply (NoDup_app_disjoint _ _ a Hnd Hin).
      apply in_or_app. right; exact Hd. }
    constructor; unfold boarded, allPassengers, getPassengers, getPassengerCount,
      getMounted in *; cbn in *; try assumption.
    + rewrite Permutation_move_in.
      rewrite <- inv_perm0. symmetry. apply Permutation_take_first. exact Hin.
    + rewrite length_app. cbn. lia.
    + intros b Hb. unfold heap_set. destruct (Avatar_eqb b a) eqn:E; [reflexivity|].
      apply in_app_or in Hb. destruct Hb as [Hb|[Hb|[]]].
      * apply inv_on_boat0. exact Hb.
      * subst b. rewrite Avatar_eqb_refl in E. discriminate.
    + intros b Hb. unfold heap_set. destruct (Avatar_eqb b a) eqn:E.
      * apply Avatar_eqb_eq in E. subst b. destruct Hb; contradiction.
      * apply inv_on_dock0. destruct Hb as [Hb|Hb]; [left|right; exact Hb].
        apply (removeFirst_incl _ _ _ Hb).
  - (* from the destination dock *)
    assert (Hgone : ~ In a (removeFirst a (_passengers (dockDestination (game w))))).
    { apply removeFirst_NoDup.
      apply (NoDup_app_r _ _ (NoDup_app_r _ _ Hnd)). }
    assert (Horig : ~ In a (_passengers (dockOrigin (game w)))).
    { intros Ho. apply (NoDup_app_disjoint _ _ a Hnd Ho).
      apply in_or_app. right; exact Hin. }
    constructor; unfold boarded, allPassengers, getPassengers, getPassengerCount,
      getMounted in *; cbn in *; try assumption.
    + rewrite <- inv_perm0.
      rewrite (Permutation_take_last a _ _ _ Hin).
      rewrite <- app_assoc. cbn. rewrite !app_assoc.
      symmetry. apply Permutation_middle.
    + rewrite length_app. cbn. lia.
    + intros b Hb. unfold heap_set. destruct (Avatar_eqb b a) eqn:E; [reflexivity|].
      apply in_app_or in Hb. destruct Hb as [Hb|[Hb|[]]].
      * apply inv_on_boat0. exact Hb.
      * subst b. rewrite Avatar_eqb_refl in E. discriminate.
    + intros b Hb. unfold heap_set. destruct (Avatar_eqb b a) eqn:E.
      * apply Avatar_eqb_eq in E. subst b. destruct Hb; contradiction.
      * apply inv_on_dock0. destruct Hb as [Hb|Hb]; [left; exact Hb|right].
        apply (removeFirst_incl _ _ _ Hb).
Qed.

Lemma removeFirst_length_le (a : Avatar) (l : list Avatar) :
  length (removeFirst a l) <= length l.
Proof.
  induction l as [|x l IH]; cbn; [lia|].
  destruct (Avatar_eqb x a); cbn; lia.
Qed.

(** Leaving the boat keeps the invariant. *)
Lemma Inv_disembarked (r : DockRef) (a : Avatar) (w : World) :
  Inv w ->
  In a (getPassengers (boat (game w))) ->
  Inv (disembarked r a w).
Proof.
  intros H Hin.
  pose proof (Inv_NoDup_all H) as Hnd.
  unfold allPassengers, getPassengers in *.
  assert (Hgone : ~ In a (removeFirst a (_passengers (boat (game w))))).
  { apply removeFirst_NoDup. apply (NoDup_app_l _ _ (NoDup_app_r _ _ Hnd)). }
  pose proof (removeFirst_length_le a (_passengers (boat (game w)))) as Hlen.
  destruct H.
  destruct r;
    (constructor; unfold disembarked, allPassengers, getPassengers, getPassengerCount,
       getMounted in *; cbn in *; try assumption).
  - rewrite Permutation_put_first. rewrite <- inv_perm0.
    symmetry. apply Permutation_take_middle. exact Hin.
  - lia.
  - intros b Hb. unfold heap_set. destruct (Avatar_eqb b a) eqn:E.
    + apply Avatar_eqb_eq in E. subst b. contradiction.
    + apply inv_on_boat0. apply (removeFirst_incl _ _ _ Hb).
  - intros b Hb. unfold heap_set. destruct (Avatar_eqb b a) eqn:E; [reflexivity|].
    apply inv_on_dock0. destruct Hb as [Hb|Hb]; [|right; exact Hb].
    apply in_app_or in Hb. destruct Hb as [Hb|[Hb|[]]]; [left; exact Hb|].
    subst b. rewrite Avatar_eqb_refl in E. discriminate.
  - rewrite Permutation_put_last. rewrite <- inv_perm0.
    symmetry. apply Permutation_take_middle. exact Hin.
  - lia.
  - intros b Hb. unfold heap_set. destruct (Avatar_eqb b a) eqn:E.
    + apply Avatar_eqb_eq in E. subst b. contradiction.
    + apply inv_on_boat0. apply (removeFirst_incl _ _ _ Hb).
  - intros b Hb. unfold heap_set. destruct (Avatar_eqb b a) eqn:E; [reflexivity|].
    apply inv_on_dock0. destruct Hb as [Hb|Hb]; [left; exact Hb|].
    apply in_app_or in Hb. destruct Hb as [Hb|[Hb|[]]]; [right; exact Hb|].
    subst b. rewrite Avatar_eqb_refl in E. discriminate.
Qed.

(** With somebody aboard, neither dock is full. *)
Lemma Inv_dock_not_full (r : DockRef) (a : Avatar) (w : World) :
  Inv w ->
  In a (getPassengers (boat (game w))) ->
  isFull (dockAt r (game w)) = false.
Proof.
  intros H Hin. pose proof (Inv_lengths H) as Hl.
  unfold isFull. apply Nat.leb_gt.
  unfold getPassengerCount, getPassengers in *.
  destruct (_passengers (boat (game w))) as [|x l] eqn:E; [destruct Hin|].
  cbn in Hl.
  destruct r; cbn [dockAt].
  - rewrite (inv_origin_cap H). lia.
  - rewrite (inv_dest_cap H). lia.
Qed.

(** Launching keeps the invariant. *)
Lemma Inv_launched (w : World) :
  Inv w -> status (game w) = ONGOING -> Inv (launched w).
Proof.
  intros [] Hs.
  constructor; unfold launched, allPassengers, getPassengers, getPassengerCount,
    getMounted in *; cbn in *; try assumption.
  - tauto.
  - auto.
  - intros l Hl. apply in_app_or in Hl. destruct Hl as [Hl|[Hl|[]]].
    + apply inv_voyage0. exact Hl.
    + inversion Hl. apply getDestinationLocation_side.
  - intros Hf. apply in_app_or in Hf. destruct Hf as [Hf|[Hf|[]]].
    + apply inv_feast0. exact Hf.
    + discriminate.
  - intros a Ha. rewrite setLocations_mounted. apply inv_on_boat0. exact Ha.
  - intros a Ha. rewrite setLocations_mounted. apply inv_on_dock0. exact Ha.
Qed.

(** ** Arrival and the timeouts *)

Lemma voyageArrival_exec (voyageTo : Location) (w : World) :
  voyageArrival voyageTo w = (Normal tt, arrived voyageTo w).
Proof.
  unfold voyageArrival, bind, gets.
  unfold modify at 1 2. cbn [fst snd game set_game with_boat boat Boat_setStatus
    Boat_setLocation boat_super boat_location boat_status].
  rewrite forEach_setLocation. reflexivity.
Qed.

Lemma voyageCallback_exec (voyageTo : Location) (w : World) :
  exec (voyageCallback voyageTo) w = exec handleGameStatus (arrived voyageTo w).
Proof.
  unfold voyageCallback, exec, bind. rewrite voyageArrival_exec.
  destruct (handleGameStatus (arrived voyageTo w)) as [[o|e] w']; reflexivity.
Qed.

Lemma voyageTimeout_exec (voyageTo : Location) (w : World) :
  exec (voyageTimeout voyageTo) w =
  exec handleGameStatus (arrived voyageTo (set_view (with_isAnimating false) w)).
Proof.
  unfold voyageTimeout. unfold exec at 1, bind at 1, modify at 1.
  fold (exec (voyageCallback voyageTo) (set_view (with_isAnimating false) w)).
  apply voyageCallback_exec.
Qed.

(** What a declared loss leaves behind. *)
Lemma declareLoss_view (r : DockRef) (w : World) :
  heap (exec (declareLoss r) w) = heap w /\
  isAnimating (view (exec (declareLoss r) w)) = true /\
  (timers (view (exec (declareLoss r) w)) = timers (view w) \/
   timers (view (exec (declareLoss r) w)) = timers (view w) ++ [FeastTimeout]).
Proof.
  unfold declareLoss, handleFeast, playFeastAnimation, exec, bind, gets, modify, called, ret.
  cbn [fst snd game view set_game set_view].
  destruct (fst (feastLists _ _)), (snd (feastLists _ _)); cbn; auto.
Qed.

(** Changing the status away from ongoing, with the boat docked, keeps
    the invariant, also when a feast timeout is added. *)
Lemma Inv_decided (s : GameStatus) (w w' : World) :
  Inv w ->
  boat_location (boat (game w)) <> RIVER ->
  s <> ONGOING ->
  game w' = with_status s (game w) ->
  heap w' = heap w ->
  (forall t, In t (timers (view w')) -> In t (timers (view w)) \/ t = FeastTimeout) ->
  Inv w'.
Proof.
  intros [] Hloc Hs Hg Hh Ht.
  constructor; rewrite ?Hg, ?Hh; unfold allPassengers in *; cbn; try assumption.
  - intros H'; contradiction.
  - intros l Hl. destruct (Ht _ Hl) as [H'|H']; [|discriminate].
    apply inv_voyage0. exact H'.
  - intros _. exact Hs.
Qed.

Lemma Inv_handleGameStatus (w : World) :
  Inv w ->
  boat_location (boat (game w)) <> RIVER ->
  Inv (exec handleGameStatus w).
Proof.
  intros H Hloc. unfold exec. rewrite handleGameStatus_cases.
  destruct (negb (GameStatus_eqb (status (game w)) ONGOING)); [exact H|].
  destruct (winConditionb (game w)).
  { apply Inv_decided with (s := WON) (w := w);
      [exact H|exact Hloc|discriminate|reflexivity|reflexivity|].
    cbn. auto. }
  assert (Hloss : forall r, Inv (exec (declareLoss r) w)).
  { intros r. destruct (declareLoss_view r w) as (Hh & _ & Ht).
    apply Inv_decided with (s := LOST) (w := w);
      [exact H|exact Hloc|discriminate| |exact Hh|].
    - apply declareLoss_game.
    - intros t Hin. destruct Ht as [Ht|Ht]; rewrite Ht in Hin; [left; exact Hin|].
      apply in_app_or in Hin. destruct Hin as [Hin|[Hin|[]]]; [left; exact Hin|].
      right; symmetry; exact Hin. }
  destruct (negb (isBalanced (game w) (dockOrigin (game w)))); [apply Hloss|].
  destruct (negb (isBalanced (game w) (dockDestination (game w)))); [apply Hloss|].
  exact H.
Qed.

(** Docking keeps the invariant, whatever the flag, once the timeout
    that fired is off the list. *)
Lemma Inv_arrived (voyageTo : Location) (w w0 : World) :
  Inv w ->
  voyageTo <> RIVER ->
  game w0 = game w ->
  heap w0 = heap w ->
  (forall t, In t (timers (view w0)) -> In t (timers (view w))) ->
  Inv (arrived voyageTo w0).
Proof.
  intros [] Hl Hg Hh Ht.
  constructor; unfold arrived, allPassengers, getPassengers, getPassengerCount,
    getMounted in *; rewrite ?Hg, ?Hh; cbn; try assumption.
  - split; [intros; contradiction | discriminate].
  - intros; contradiction.
  - intros l Hin. apply inv_voyage0. apply Ht. exact Hin.
  - intros Hin. apply inv_feast0. apply Ht. exact Hin.
  - intros a Ha. rewrite setLocations_mounted. apply inv_on_boat0. exact Ha.
  - intros a Ha. rewrite setLocations_mounted. apply inv_on_dock0. exact Ha.
Qed.

Lemma removeNth_incl (A : Type) (n : nat) (l : list A) (x : A) :
  In x (removeNth n l) -> In x l.
Proof.
  unfold removeNth. intros H. apply in_app_or in H.
  rewrite <- (firstn_skipn n l). apply in_or_app.
  destruct H as [H|H]; [left; exact H|right].
  rewrite <- (firstn_skipn 1 (skipn n l)). apply in_or_app. right.
  rewrite skipn_skipn. cbn. exact H.
Qed.

(** The end of the feast keeps the invariant: a feast is pending on a
    decided game only, and then the boat is docked. *)
Lemma Inv_feastTimeout (w w0 : World) :
  Inv w ->
  In FeastTimeout (timers (view w)) ->
  game w0 = game w ->
  heap w0 = heap w ->
  (forall t, In t (timers (view w0)) -> In t (timers (view w))) ->
  Inv (exec feastTimeout w0).
Proof.
  intros [] Hf Hg Hh Ht.
  specialize (inv_feast0 Hf).
  constructor; unfold feastTimeout, exec, modify; cbn; rewrite ?Hg, ?Hh; try assumption.
  - intros Hr. destruct (inv_river0 Hr) as [_ Hs]. contradiction.
  - intros l Hin. apply inv_voyage0. apply Ht. exact Hin.
  - intros _. exact inv_feast0.
Qed.

(** ** The freshly initialized game *)

Lemma createAvatar_exec (type : AvatarType) (prefix : string) (i : nat) (w : World) :
  createAvatar type prefix i w =
  (Normal tt,
   mkWorld
     (with_dockOrigin
        (mkDock (snd (addPassenger (newAvatar type prefix i) (dockOrigin (game w))))
                (dock_location (dockOrigin (game w))))
        (with_avatars (avatars (game w) ++ [newAvatar type prefix i]) (game w)))
     (heap_set (heap w) (newAvatar type prefix i) (mkAvatarFields ORIGIN ON_DOCK))
     (view w)).
Proof.
  unfold createAvatar, Avatar_new, bind, modify, Dock_addPassenger, ret. cbn.
  fold (newAvatar type prefix i).
  destruct (addPassenger (newAvatar type prefix i) (dockOrigin (game w))); reflexivity.
Qed.

(** A creation loop that fits on the origin dock appends its avatars to
    [avatars] and to the dock, all of them standing on the dock. *)
Lemma createLoop (type : AvatarType) (prefix : string) (l : list nat) (w : World) :
  (forall a, heap w a = mkAvatarFields ORIGIN ON_DOCK) ->
  length (_passengers (dockOrigin (game w))) + length l <=
    _maxCapacity (dockOrigin (game w)) ->
  let d := dockOrigin (game w) in
  exists h',
    (forall a, h' a = mkAvatarFields ORIGIN ON_DOCK) /\
    forEach l (createAvatar type prefix) w =
    (Normal tt,
     mkWorld
       (with_dockOrigin
          (mkDock (mkMountObj (_minCapacity d) (_maxCapacity d)
                              (_passengers d ++ map (newAvatar type prefix) l))
                  (dock_location d))
          (with_avatars (avatars (game w) ++ map (newAvatar type prefix) l) (game w)))
       h' (view w)).
Proof.
  revert w. induction l as [|i l IH]; intros w Hh Hcap d; subst d.
  - exists (heap w). split; [exact Hh|]. cbn. rewrite !app_nil_r.
    destruct w as [[] hp v]. cbn. destruct dockOrigin0 as [[] ?]. reflexivity.
  - cbn [forEach]. unfold bind. rewrite createAvatar_exec.
    cbn [length] in Hcap.
    rewrite addPassenger_snd. unfold isFull.
    destruct (_maxCapacity (dockOrigin (game w)) <=?
              length (_passengers (dockOrigin (game w)))) eqn:E;
      [apply Nat.leb_le in E; lia|].
    match goal with |- context [forEach l _ ?w1] => destruct (IH w1) as (h' & Hh' & E') end.
    + intros a. cbn. unfold heap_set. destruct (Avatar_eqb _ _); [reflexivity|apply Hh].
    + cbn. rewrite length_app. cbn. lia.
    + exists h'. split; [exact Hh'|]. rewrite E'. cbn.
      rewrite <- !app_assoc. reflexivity.
Qed.

Lemma bind_modify (B : Type) (f : World -> World) (k : unit -> Js B) (w : World) :
  bind (modify f) k w = k tt (f w).
Proof. reflexivity. Qed.

Lemma bind_gets (A B : Type) (f : World -> A) (k : A -> Js B) (w : World) :
  bind (gets f) k w = k (f w) w.
Proof. reflexivity. Qed.

Lemma bind_normal (A B : Type) (c : Js A) (k : A -> Js B) (w w' : World) (a : A) :
  c w = (Normal a, w') -> bind c k w = k a w'.
Proof. intros E. unfold bind. rewrite E. reflexivity. Qed.

Lemma initialize_exec (m h c : nat) :
  exists h',
    (forall a, h' a = mkAvatarFields ORIGIN ON_DOCK) /\
    initialize (World_new m h c) =
    (Normal tt, mkWorld (initialGame m h c) h' (mkView false [] [] [])).
Proof.
  unfold initialize. rewrite !bind_modify, bind_gets.
  match goal with |- context [bind (forEach ?l ?f) ?k ?w0] =>
    destruct (@createLoop MONSTER "monster-" l w0) as (h1 & Hh1 & E1)
  end.
  { reflexivity. }
  { cbn. rewrite length_seq. lia. }
  rewrite (@bind_normal _ _ _ _ _ _ _ E1). clear E1. rewrite bind_gets.
  match goal with |- context [forEach ?l ?f ?w0] =>
    destruct (@createLoop HUMAN "human-" l w0) as (h2 & Hh2 & E2)
  end.
  { exact Hh1. }
  { cbn. rewrite length_map, !length_seq. lia. }
  rewrite E2. clear E2.
  exists h2. split; [exact Hh2|].
  cbn. unfold initialGame, initialAvatars. reflexivity.
Qed.

(** The world [startNewGame] returns. *)
Lemma startNewGame_world (m h c : nat) :
  game (startNewGame m h c) = initialGame m h c /\
  (forall a, heap (startNewGame m h c) a = mkAvatarFields ORIGIN ON_DOCK) /\
  view (startNewGame m h c) = mkView false (initialAvatars m h ++ []) [] [].
Proof.
  destruct (initialize_exec m h c) as (h' & Hh' & E).
  unfold startNewGame, exec. rewrite (@bind_normal _ _ _ _ _ _ _ E).
  cbn. repeat split. exact Hh'.
Qed.

(** The ids [initialize] hands out are pairwise different. *)
Lemma string_of_nat_inj (i j : nat) : string_of_nat i = string_of_nat j -> i = j.
Proof.
  unfold string_of_nat. intros E.
  apply Unsigned.to_uint_inj.
  pose proof (NilEmpty.usu (Nat.to_uint i)) as Hi.
  pose proof (NilEmpty.usu (Nat.to_uint j)) as Hj.
  rewrite E in Hi. congruence.
Qed.

Lemma append_inj (prefix s1 s2 : string) :
  String.append prefix s1 = String.append prefix s2 -> s1 = s2.
Proof.
  induction prefix as [|c prefix IH]; cbn; intros E; [exact E|].
  inversion E. auto.
Qed.

Lemma newAvatar_inj (type : AvatarType) (prefix : string) (i j : nat) :
  newAvatar type prefix i = newAvatar type prefix j -> i = j.
Proof.
  unfold newAvatar. intros E. inversion E as [E'].
  apply string_of_nat_inj. apply (append_inj _ _ _ E').
Qed.

Lemma newAvatars_NoDup (type : AvatarType) (prefix : string) (n : nat) :
  NoDup (map (newAvatar type prefix) (seq 0 n)).
Proof.
  generalize 0. induction n as [|n IH]; intros start; cbn; constructor.
  - rewrite in_map_iff. intros (j & E & Hj).
    apply newAvatar_inj in E. apply in_seq in Hj. lia.
  - apply IH.
Qed.

Lemma initialize_avatars_NoDup (numMonsters numHumans : nat) :
  NoDup (initialAvatars numMonsters numHumans).
Proof.
  unfold initialAvatars. apply NoDup_app; try apply newAvatars_NoDup.
  intros a Hm Hh.
  apply in_map_iff in Hm. destruct Hm as (i & <- & _).
  apply in_map_iff in Hh. destruct Hh as (j & E & _).
  discriminate.
Qed.

(** The freshly initialized game satisfies the invariant. *)
Lemma Inv_start (m h c : nat) : Inv (startNewGame m h c).
Proof.
  destruct (startNewGame_world m h c) as (Hg & Hh & Hv).
  constructor; unfold allPassengers, getPassengers, getPassengerCount, getMounted;
    rewrite ?Hg, ?Hv, ?Hh; cbn; try reflexivity; try lia.
  - apply initialize_avatars_NoDup.
  - rewrite app_nil_r. reflexivity.
  - unfold initialAvatars. rewrite length_app, !length_map, !length_seq. reflexivity.
  - split; discriminate.
  - discriminate.
  - intros a _. rewrite Hh. reflexivity.
Qed.

(** Every delivered event keeps the invariant. *)
Lemma Inv_dispatch (e : Event) (w : World) : Inv w -> Inv (exec (dispatch e) w).
Proof.
  intros H. destruct e as [avatar| |n]; unfold dispatch, exec.
  - (* a click on an avatar *)
    rewrite bind_gets.
    destruct (negb (existsb (Avatar_eqb avatar) (listeners (view w)))); [exact H|].
    rewrite bind_gets.
    destruct (isAnimating (view w)) eqn:Ea; cbn [negb]; [exact H|].
    assert (Hloc : boat_location (boat (game w)) <> RIVER).
    { intros Hr. destruct (inv_river H Hr) as [Ht _]. congruence. }
    rewrite handleAvatarClick_cases.
    destruct (negb (GameStatus_eqb (status (game w)) ONGOING)); [exact H|].
    destruct (getMounted (heap w) avatar).
    + destruct (getDockByLocation (boat_location (boat (game w)))) as [r|]; [|exact H].
      destruct (hasPassenger (dockAt r (game w)) avatar) eqn:Eh; cbn [negb];
        [|apply Inv_showMessage; exact H].
      destruct (isFull (boat (game w))) eqn:Ef; [apply Inv_showMessage; exact H|].
      rewrite board_boarded by exact Ef. cbn [snd].
      apply Inv_boarded; [exact H| |exact Ef].
      apply hasPassenger_In. exact Eh.
    + destruct (hasPassenger (boat (game w)) avatar) eqn:Eh; cbn [negb]; [|exact H].
      apply hasPassenger_In in Eh.
      destruct (getDockByLocation (boat_location (boat (game w)))) as [r|] eqn:Ed.
      * rewrite (disembark_disembarked _ _ Ed (Inv_dock_not_full r _ H Eh)).
        cbn [snd]. apply Inv_disembarked; assumption.
      * destruct (boat_location (boat (game w))); try discriminate. congruence.
  - (* a click on the boat *)
    rewrite bind_gets.
    destruct (isAnimating (view w)) eqn:Ea; cbn [negb]; [exact H|].
    rewrite handleBoatClick_cases.
    destruct (GameStatus_eqb (status (game w)) ONGOING) eqn:Es; cbn [negb]; [|exact H].
    apply GameStatus_eqb_eq in Es.
    destruct (negb (canSail (boat (game w)))); [apply Inv_showMessage; exact H|].
    apply Inv_launched; assumption.
  - (* a timeout *)
    rewrite bind_gets.
    destruct (nth_error (timers (view w)) n) as [t|] eqn:En; [|exact H].
    apply nth_error_In in En.
    rewrite bind_modify.
    set (w0 := set_view (fun v => with_timers (removeNth n (timers v)) v) w).
    assert (Ht : forall t', In t' (timers (view w0)) -> In t' (timers (view w))).
    { intros t'. apply removeNth_incl. }
    destruct t as [voyageTo|].
    + fold (exec (voyageTimeout voyageTo) w0). rewrite voyageTimeout_exec.
      assert (Hside : voyageTo <> RIVER) by (apply (inv_voyage H); exact En).
      apply Inv_handleGameStatus; [|exact Hside].
      apply (Inv_arrived (w := w)); auto.
    + fold (exec feastTimeout w0).
      apply (Inv_feastTimeout (w := w)); auto.
Qed.

Lemma reachable_Inv (w : World) : reachable w -> Inv w.
Proof.
  induction 1 as [m h c|e w _ IH]; [apply Inv_start | apply Inv_dispatch; exact IH].
Qed.

Lemma reachable_run (events : list Event) (w : World) :
  reachable w -> reachable (run events w).
Proof.
  revert w. induction events as [|e events IH]; intros w H; cbn; [exact H|].
  apply IH. apply reachable_step. exact H.
Qed.

(** ** The capacity of the boat *)

(** Whatever happens in [disembark], the boat's array loses the avatar
    and the status of the game is not touched. *)
Lemma disembark_frame (avatar : Avatar) (w : World) :
  let g' := game (exec (disembark avatar) w) in
  boat g' =
    mkBoat (mkMountObj (_minCapacity (boat (game w))) (_maxCapacity (boat (game w)))
                       (removeFirst avatar (_passengers (boat (game w)))))
           (boat_location (boat (game w))) (boat_status (boat (game w))) /\
  status g' = status (game w).
Proof.
  unfold exec, disembark, bind, Boat_removePassenger, gets.
  destruct (removePassenger avatar (boat (game w))) as [ok m] eqn:Er.
  pose proof (removePassenger_snd avatar (boat (game w))) as Hm.
  rewrite Er in Hm. cbn [snd] in Hm. subst m.
  cbn [game set_game with_boat boat boat_location].
  destruct (getDockByLocation (boat_location (boat (game w)))) as [r|];
    [|split; reflexivity].
  unfold Dock_addPassenger. cbn [game set_game].
  destruct (addPassenger avatar _) as [ok' m'].
  destruct r; split; reflexivity.
Qed.

Lemma handleGameStatus_frame (w : World) :
  exists s, game (exec handleGameStatus w) = with_status s (game w) /\
            heap (exec handleGameStatus w) = heap w.
Proof.
  unfold exec. rewrite handleGameStatus_cases.
  assert (Hsame : game w = with_status (status (game w)) (game w))
    by (destruct (game w); reflexivity).
  assert (Hloss : forall r, exists s,
             game (snd (declareLoss r w)) = with_status s (game w) /\
             heap (snd (declareLoss r w)) = heap w).
  { intros r. exists LOST. split; [apply declareLoss_game|].
    apply (declareLoss_view r w). }
  destruct (negb (GameStatus_eqb (status (game w)) ONGOING));
    [exists (status (game w)); split; [exact Hsame|reflexivity]|].
  destruct (winConditionb (game w)); [exists WON; split; reflexivity|].
  destruct (negb (isBalanced (game w) (dockOrigin (game w)))); [apply Hloss|].
  destruct (negb (isBalanced (game w) (dockDestination (game w)))); [apply Hloss|].
  exists (status (game w)); split; [exact Hsame|reflexivity].
Qed.

(** Each method of the game keeps the boat within its capacity, in any
    world, also when it throws. *)
Lemma handleAvatarClick_capacity (avatar : Avatar) (w : World) :
  boatWithinCapacity w -> boatWithinCapacity (exec (handleAvatarClick avatar) w).
Proof.
  unfold boatWithinCapacity, getPassengerCount, exec. intros H.
  rewrite handleAvatarClick_cases.
  destruct (negb (GameStatus_eqb (status (game w)) ONGOING)); [exact H|].
  destruct (getMounted (heap w) avatar).
  - destruct (getDockByLocation (boat_location (boat (game w)))) as [r|]; [|exact H].
    destruct (negb (hasPassenger (dockAt r (game w)) avatar)); [exact H|].
    destruct (isFull (boat (game w))) eqn:Ef; [exact H|].
    rewrite board_boarded by exact Ef.
    unfold isFull in Ef. apply Nat.leb_gt in Ef.
    unfold boarded. cbn. rewrite length_app. cbn. lia.
  - destruct (negb (hasPassenger (boat (game w)) avatar)); [exact H|].
    fold (exec (disembark avatar) w).
    destruct (disembark_frame avatar w) as [Hb _]. rewrite Hb. cbn.
    pose proof (removeFirst_length_le avatar (_passengers (boat (game w)))). lia.
Qed.

Lemma handleBoatClick_capacity (w : World) :
  boatWithinCapacity w -> boatWithinCapacity (exec handleBoatClick w).
Proof.
  unfold boatWithinCapacity, exec. intros H. rewrite handleBoatClick_cases.
  destruct (negb (GameStatus_eqb (status (game w)) ONGOING)); [exact H|].
  destruct (negb (canSail (boat (game w)))); exact H.
Qed.

Lemma voyageCallback_capacity (voyageTo : Location) (w : World) :
  boatWithinCapacity w -> boatWithinCapacity (exec (voyageCallback voyageTo) w).
Proof.
  unfold boatWithinCapacity. intros H. rewrite voyageCallback_exec.
  destruct (handleGameStatus_frame (arrived voyageTo w)) as (s & Hg & _).
  rewrite Hg. exact H.
Qed.

(** C9. In every world the program reaches, the boat holds at most
    [_maxCapacity] passengers, and that capacity is the configured
    [boatCapacity].  Moreover each method of the game ([handleAvatarClick],
    [handleBoatClick], the voyage callback) keeps the boat within its
    capacity, from any world. *)
Theorem reachable_boat_capacity (w : World) :
  reachable w ->
  getPassengerCount (boat (game w)) <= _maxCapacity (boat (game w)) /\
  _maxCapacity (boat (game w)) = boatCapacity (game w) /\
  (forall w0 avatar, boatWithinCapacity w0 ->
     boatWithinCapacity (exec (handleAvatarClick avatar) w0)) /\
  (forall w0, boatWithinCapacity w0 -> boatWithinCapacity (exec handleBoatClick w0)) /\
  (forall w0 voyageTo, boatWithinCapacity w0 ->
     boatWithinCapacity (exec (voyageCallback voyageTo) w0)).
Proof.
  intros Hr. apply reachable_Inv in Hr.
  split; [apply inv_boat_cap; exact Hr|].
  split; [apply inv_boat_max; exact Hr|].
  split; [intros w0 avatar; apply handleAvatarClick_capacity|].
  split; [apply handleBoatClick_capacity|].
  intros w0 voyageTo. apply voyageCallback_capacity.
Qed.

(** ** Clicks during a voyage *)

(** While the flag is set, the listeners of the view drop every click:
    the game is not called. *)
Lemma dispatch_click_animating (w : World) :
  isAnimating (view w) = true ->
  (forall avatar, dispatch (AvatarClicked avatar) w = (Normal tt, w)) /\
  dispatch BoatClicked w = (Normal tt, w).
Proof.
  intros Ha. split.
  - intros avatar. unfold dispatch. rewrite bind_gets.
    destruct (negb (existsb (Avatar_eqb avatar) (listeners (view w)))); [reflexivity|].
    rewrite bind_gets, Ha. reflexivity.
  - unfold dispatch. rewrite bind_gets, Ha. reflexivity.
Qed.

Lemma Inv_in_flight (w : World) :
  Inv w ->
  boat_status (boat (game w)) = SAILING ->
  boat_location (boat (game w)) = RIVER /\
  status (game w) = ONGOING /\
  isAnimating (view w) = true.
Proof.
  intros H Hs. apply (inv_sailing H) in Hs.
  destruct (inv_river H Hs) as [Ha Ho]. auto.
Qed.

(** C4, as the code has it.  In every world the program reaches, while
    the boat is sailing the view's flag [isAnimating] is set, and the
    click listeners of the view (on the avatars and on the boat button)
    return without calling the game: the world is left as it was. *)
Theorem clicks_dropped_in_flight (w : World) :
  reachable w ->
  boat_status (boat (game w)) = SAILING ->
  boat_location (boat (game w)) = RIVER /\
  status (game w) = ONGOING /\
  isAnimating (view w) = true /\
  (forall avatar, dispatch (AvatarClicked avatar) w = (Normal tt, w)) /\
  dispatch BoatClicked w = (Normal tt, w).
Proof.
  intros Hr Hs. apply reachable_Inv in Hr.
  destruct (Inv_in_flight Hr Hs) as (Hl & Ho & Ha).
  destruct (dispatch_click_animating w Ha) as [Hc Hb].
  auto.
Qed.

(** ** Rejections *)

Lemma disembark_completion (avatar : Avatar) (currentDock : DockRef) (w : World) :
  getDockByLocation (boat_location (boat (game w))) = Some currentDock ->
  completion (disembark avatar) w = Normal tt.
Proof.
  intros Hd.
  unfold completion, disembark, bind, Boat_removePassenger, gets.
  destruct (removePassenger avatar (boat (game w))) as [ok m].
  cbn [game set_game with_boat boat boat_location]. rewrite Hd.
  unfold Dock_addPassenger.
  destruct (addPassenger avatar _) as [ok' m']. reflexivity.
Qed.

Lemma handleAvatarClick_completion (avatar : Avatar) (w : World) :
  boat_location (boat (game w)) <> RIVER ->
  completion (handleAvatarClick avatar) w = Normal tt.
Proof.
  intros Hloc. unfold completion. rewrite handleAvatarClick_cases.
  destruct (negb (GameStatus_eqb (status (game w)) ONGOING)); [reflexivity|].
  destruct (getDockByLocation (boat_location (boat (game w)))) as [r|] eqn:Ed;
    [|destruct (boat_location (boat (game w))); try discriminate; congruence].
  destruct (getMounted (heap w) avatar).
  - destruct (negb (hasPassenger (dockAt r (game w)) avatar)); [reflexivity|].
    destruct (isFull (boat (game w))) eqn:Ef; [reflexivity|].
    rewrite board_boarded by exact Ef. reflexivity.
  - destruct (negb (hasPassenger (boat (game w)) avatar)); [reflexivity|].
    apply (disembark_completion avatar w Ed).
Qed.

Lemma handleBoatClick_completion (w : World) :
  completion handleBoatClick w = Normal tt.
Proof.
  unfold completion. rewrite handleBoatClick_cases.
  destruct (negb (GameStatus_eqb (status (game w)) ONGOING)); [reflexivity|].
  destruct (negb (canSail (boat (game w)))); reflexivity.
Qed.

Lemma handleAvatarClick_decided (avatar : Avatar) (w : World) :
  status (game w) <> ONGOING -> handleAvatarClick avatar w = (Normal tt, w).
Proof.
  intros Hs. rewrite handleAvatarClick_cases.
  destruct (status (game w)); [congruence|reflexivity|reflexivity].
Qed.

Lemma handleBoatClick_decided (w : World) :
  status (game w) <> ONGOING -> handleBoatClick w = (Normal tt, w).
Proof.
  intros Hs. rewrite handleBoatClick_cases.
  destruct (status (game w)); [congruence|reflexivity|reflexivity].
Qed.

(** C5, as the code has it.  With the boat lying at a dock,
    [handleAvatarClick] returns normally, and [handleBoatClick] always
    does.  Boarding from the wrong shore, boarding a full boat and
    launching with too few passengers return after asking the view to show
    a message, which leaves the game and the avatars as they were; on a
    game that is won or lost both methods return at once.  While the boat
    is sailing, in a world the program reaches, it is the click listeners
    of the view that return without calling the game. *)
Theorem rejections_return_normally (avatar : Avatar) (w : World) :
  let g := game w in
  (boat_location (boat g) <> RIVER ->
     completion (handleAvatarClick avatar) w = Normal tt) /\
  completion handleBoatClick w = Normal tt /\
  (forall message type,
     showMessage message type w =
     (Normal tt,
      mkWorld g (heap w)
              (with_calls (calls (view w) ++ [ShowMessage message type]) (view w)))) /\
  (forall currentDock,
     status g = ONGOING ->
     getMounted (heap w) avatar = ON_DOCK ->
     getDockByLocation (boat_location (boat g)) = Some currentDock ->
     (~ In avatar (getPassengers (dockAt currentDock g)) ->
        handleAvatarClick avatar w =
        showMessage "Boat is on the other side!" "info" w) /\
     (In avatar (getPassengers (dockAt currentDock g)) -> isFull (boat g) = true ->
        handleAvatarClick avatar w =
        showMessage "Boat is at full capacity!" "info" w)) /\
  (status g = ONGOING ->
   getPassengerCount (boat g) < _minCapacity (boat g) ->
     handleBoatClick w = showMessage "Someone needs to row the boat!" "info" w) /\
  (status g <> ONGOING ->
     handleAvatarClick avatar w = (Normal tt, w) /\
     handleBoatClick w = (Normal tt, w)) /\
  (reachable w -> boat_status (boat g) = SAILING ->
     dispatch (AvatarClicked avatar) w = (Normal tt, w) /\
     dispatch BoatClicked w = (Normal tt, w)).
Proof.
  intros g. subst g.
  split; [apply handleAvatarClick_completion|].
  split; [apply handleBoatClick_completion|].
  split; [intros message type; reflexivity|].
  split; [|split; [|split]].
  - intros currentDock Hs Hm Hd. rewrite handleAvatarClick_cases, Hs, Hm, Hd.
    cbn [GameStatus_eqb negb]. unfold getPassengers. split.
    + intros Hn. apply hasPassenger_false in Hn. rewrite Hn. reflexivity.
    + intros Hin Hf. apply hasPassenger_In in Hin. rewrite Hin, Hf. reflexivity.
  - intros Hs Hlt. rewrite handleBoatClick_cases, Hs. cbn [GameStatus_eqb negb].
    unfold canSail. unfold getPassengerCount in Hlt.
    apply Nat.leb_gt in Hlt. rewrite Hlt. reflexivity.
  - intros Hs. split; [apply handleAvatarClick_decided | apply handleBoatClick_decided];
      exact Hs.
  - intros Hr Hs. apply reachable_Inv in Hr.
    destruct (Inv_in_flight Hr Hs) as (_ & _ & Ha).
    destruct (dispatch_click_animating w Ha) as [Hc Hb]. auto.
Qed.

(** C7, as the code has it.  In a world the program reaches, with the
    game ongoing and the boat docked, [handleAvatarClick] on an avatar
    that is aboard takes it out of the boat's array, appends it to the
    array of the dock the boat lies at and makes it on-dock; nothing else
    of the game changes.  In any world, a click on an avatar whose mount
    state is on-boat while the boat's array does not hold it changes
    nothing, and so does any click once the game is won or lost. *)
Theorem handleAvatarClick_disembark (avatar : Avatar) (w : World) :
  let g := game w in
  let w' := exec (handleAvatarClick avatar) w in
  let g' := game w' in
  (reachable w ->
   status g = ONGOING ->
   boat_status (boat g) = DOCKED ->
   In avatar (getPassengers (boat g)) ->
     exists currentDock,
       getDockByLocation (boat_location (boat g)) = Some currentDock /\
       completion (handleAvatarClick avatar) w = Normal tt /\
       getPassengers (boat g') = removeFirst avatar (getPassengers (boat g)) /\
       ~ In avatar (getPassengers (boat g')) /\
       getPassengers (dockAt currentDock g') =
         getPassengers (dockAt currentDock g) ++ [avatar] /\
       dockAt (otherDock currentDock) g' = dockAt (otherDock currentDock) g /\
       getMounted (heap w') avatar = ON_DOCK /\
       getLocation (heap w') avatar = getLocation (heap w) avatar /\
       (forall b, b <> avatar -> heap w' b = heap w b) /\
       status g' = ONGOING /\
       tripCount g' = tripCount g /\
       boat_location (boat g') = boat_location (boat g) /\
       boat_status (boat g') = DOCKED) /\
  (getMounted (heap w) avatar = ON_BOAT ->
   ~ In avatar (getPassengers (boat g)) ->
     handleAvatarClick avatar w = (Normal tt, w)) /\
  (status g <> ONGOING -> handleAvatarClick avatar w = (Normal tt, w)).
Proof.
  intros g w' g'. subst g w' g'. split; [|split].
  - intros Hr Hs Hd Hin. apply reachable_Inv in Hr.
    assert (Hloc : boat_location (boat (game w)) <> RIVER).
    { intros E. apply (inv_sailing Hr) in E. congruence. }
    destruct (getDockByLocation (boat_location (boat (game w)))) as [r|] eqn:Ed;
      [|destruct (boat_location (boat (game w))); try discriminate; congruence].
    exists r. split; [reflexivity|].
    pose proof (Inv_NoDup_all Hr) as Hnd.
    assert (Hgone : ~ In avatar (removeFirst avatar (_passengers (boat (game w))))).
    { apply removeFirst_NoDup.
      apply (NoDup_app_l _ _ (NoDup_app_r _ _ Hnd)). }
    unfold exec, completion.
    rewrite handleAvatarClick_cases, Hs, (inv_on_boat Hr _ Hin).
    cbn [GameStatus_eqb negb].
    unfold getPassengers in *.
    rewrite (proj2 (hasPassenger_In _ _) Hin). cbn [negb].
    rewrite (disembark_disembarked _ _ Ed (Inv_dock_not_full r _ Hr Hin)).
    cbn [fst snd].
    assert (Hself : getMounted (heap (disembarked r avatar w)) avatar = ON_DOCK /\
                    getLocation (heap (disembarked r avatar w)) avatar =
                    getLocation (heap w) avatar).
    { unfold disembarked, getMounted, getLocation, heap_set. cbn [heap].
      rewrite Avatar_eqb_refl. split; reflexivity. }
    assert (Hothers : forall b, b <> avatar ->
                                heap (disembarked r avatar w) b = heap w b).
    { intros b Hb. unfold disembarked, heap_set. cbn [heap].
      apply Avatar_eqb_neq in Hb. rewrite Hb. reflexivity. }
    destruct Hself as [Hself1 Hself2].
    destruct r; (repeat split; try assumption).
  - intros Hm Hn. rewrite handleAvatarClick_cases, Hm.
    apply hasPassenger_false in Hn. rewrite Hn.
    destruct (negb (GameStatus_eqb (status (game w)) ONGOING)); reflexivity.
  - apply handleAvatarClick_decided.
Qed.

(** ** Declaring the game won *)

Lemma handleGameStatus_won (w : World) :
  status (game (exec handleGameStatus w)) = WON <->
  status (game w) = WON \/ (status (game w) = ONGOING /\ winCondition (game w)).
Proof.
  rewrite <- winConditionb_true.
  unfold exec. rewrite handleGameStatus_cases.
  destruct (status (game w)) eqn:Hs; cbn [GameStatus_eqb negb].
  - destruct (winConditionb (game w)).
    + split; [intros _; right; split; reflexivity | intros _; apply declareWin_status].
    + assert (Hloss : forall r, status (game (snd (declareLoss r w))) = WON <->
                                ONGOING = WON \/ ONGOING = ONGOING /\ false = true).
      { intros r. fold (exec (declareLoss r) w). rewrite declareLoss_game. cbn.
        split; [discriminate | intros [H|[_ H]]; discriminate]. }
      destruct (negb (isBalanced (game w) (dockOrigin (game w)))); [apply Hloss|].
      destruct (negb (isBalanced (game w) (dockDestination (game w)))); [apply Hloss|].
      cbn. rewrite Hs. split; [discriminate | intros [H|[_ H]]; discriminate].
  - cbn. rewrite Hs. split; [intros _; left; reflexivity | reflexivity].
  - cbn. rewrite Hs. split; [discriminate | intros [H|[H _]]; discriminate].
Qed.

Lemma handleAvatarClick_status (avatar : Avatar) (w : World) :
  status (game (exec (handleAvatarClick avatar) w)) = status (game w).
Proof.
  unfold exec. rewrite handleAvatarClick_cases.
  destruct (negb (GameStatus_eqb (status (game w)) ONGOING)); [reflexivity|].
  destruct (getMounted (heap w) avatar).
  - destruct (getDockByLocation (boat_location (boat (game w)))) as [r|]; [|reflexivity].
    destruct (negb (hasPassenger (dockAt r (game w)) avatar)); [reflexivity|].
    destruct (isFull (boat (game w))) eqn:Ef; [reflexivity|].
    rewrite board_boarded by exact Ef. destruct r; reflexivity.
  - destruct (negb (hasPassenger (boat (game w)) avatar)); [reflexivity|].
    apply (disembark_frame avatar w).
Qed.

Lemma handleBoatClick_status (w : World) :
  status (game (exec handleBoatClick w)) = status (game w).
Proof.
  unfold exec. rewrite handleBoatClick_cases.
  destruct (negb (GameStatus_eqb (status (game w)) ONGOING)); [reflexivity|].
  destruct (negb (canSail (boat (game w)))); reflexivity.
Qed.

Lemma winCondition_with_status (s : GameStatus) (g : Game) :
  winCondition (with_status s g) <-> winCondition g.
Proof. reflexivity. Qed.

(** C1. On an ongoing game [handleGameStatus] sets the status to won
    exactly when the origin dock is empty, the boat lies at the
    destination and the destination dock and the boat together hold at
    least [totalAvatars] avatars; on a game that is not ongoing it changes
    nothing.  No event makes a game won otherwise: when the status becomes
    won, the event is a timeout and the game it leaves meets the win
    condition. *)
Theorem handleGameStatus_won_iff (w : World) (e : Event) :
  (status (game w) = ONGOING ->
   (status (game (exec handleGameStatus w)) = WON <-> winCondition (game w))) /\
  (status (game w) <> ONGOING -> handleGameStatus w = (Normal None, w)) /\
  (status (game w) <> WON ->
   status (game (exec (dispatch e) w)) = WON ->
   winCondition (game (exec (dispatch e) w)) /\ exists n, e = TimeoutFired n).
Proof.
  split; [|split].
  - intros Hs. rewrite handleGameStatus_won, Hs.
    split; [intros [H|[_ H]]; [discriminate|exact H] | intros H; right; auto].
  - intros Hs. rewrite handleGameStatus_cases.
    destruct (status (game w)); [congruence | reflexivity | reflexivity].
  - intros Hs. destruct e as [avatar| |n]; unfold dispatch, exec.
    + rewrite bind_gets.
      destruct (negb (existsb (Avatar_eqb avatar) (listeners (view w))));
        [intros H; contradiction|].
      rewrite bind_gets.
      destruct (negb (isAnimating (view w))); [|intros H; contradiction].
      fold (exec (handleAvatarClick avatar) w). rewrite handleAvatarClick_status.
      intros H; contradiction.
    + rewrite bind_gets.
      destruct (negb (isAnimating (view w))); [|intros H; contradiction].
      fold (exec handleBoatClick w). rewrite handleBoatClick_status.
      intros H; contradiction.
    + rewrite bind_gets.
      destruct (nth_error (timers (view w)) n) as [t|]; [|intros H; contradiction].
      rewrite bind_modify.
      set (w0 := set_view (fun v => with_timers (removeNth n (timers v)) v) w).
      destruct t as [voyageTo|]; [|intros H; contradiction].
      fold (exec (voyageTimeout voyageTo) w0). rewrite voyageTimeout_exec.
      set (w1 := arrived voyageTo (set_view (with_isAnimating false) w0)).
      intros Hw. split; [|exists n; reflexivity].
      destruct (handleGameStatus_frame w1) as (s & Hg & _). rewrite Hg.
      apply winCondition_with_status.
      apply handleGameStatus_won in Hw.
      destruct Hw as [Hw|[_ Hw]]; [contradiction|exact Hw].
Qed.

(** ** Conservation of the avatars *)

Lemma occurrences_all (g : Game) (a : Avatar) :
  occurrences g a = count_occ Avatar_eq_dec (allPassengers g) a.
Proof. unfold occurrences, allPassengers. rewrite !count_occ_app. lia. Qed.

Lemma Conserved_Inv (w : World) : Inv w -> Conserved (game w).
Proof. intros []. constructor; assumption. Qed.

(** Conservation looks at the roster, the three arrays, the configured
    numbers and the capacities of the docks only. *)
Lemma Conserved_ext (g g' : Game) :
  avatars g' = avatars g ->
  allPassengers g' = allPassengers g ->
  totalAvatars g' = totalAvatars g ->
  numMonsters g' + numHumans g' = numMonsters g + numHumans g ->
  _maxCapacity (dockOrigin g') = _maxCapacity (dockOrigin g) ->
  _maxCapacity (dockDestination g') = _maxCapacity (dockDestination g) ->
  Conserved g -> Conserved g'.
Proof.
  intros Ha Hp Ht Hc Ho Hd [].
  constructor; rewrite ?Ha, ?Hp, ?Ht, ?Hc, ?Ho, ?Hd; assumption.
Qed.

Lemma Conserved_with_status (s : GameStatus) (g : Game) :
  Conserved g -> Conserved (with_status s g).
Proof. apply Conserved_ext; reflexivity. Qed.

Lemma Conserved_NoDup_all (g : Game) : Conserved g -> NoDup (allPassengers g).
Proof.
  intros H. apply (Permutation_NoDup (l := avatars g)).
  - symmetry. apply cs_perm. exact H.
  - apply cs_nodup. exact H.
Qed.

Lemma Conserved_lengths (g : Game) :
  Conserved g ->
  getPassengerCount (dockOrigin g) + getPassengerCount (boat g) +
  getPassengerCount (dockDestination g) = totalAvatars g.
Proof.
  intros H. rewrite (cs_total H).
  rewrite <- (Permutation_length (cs_perm H)).
  unfold allPassengers, getPassengerCount, getPassengers.
  rewrite !length_app. lia.
Qed.

(** Boarding moves one avatar from a dock's array to the boat's. *)
Lemma Conserved_boarded (r : DockRef) (a : Avatar) (w : World) :
  Conserved (game w) ->
  In a (getPassengers (dockAt r (game w))) ->
  Conserved (game (boarded r a w)).
Proof.
  intros H Hin. unfold getPassengers in Hin. destruct H.
  destruct r; cbn [dockAt] in Hin;
    (constructor; unfold boarded, allPassengers, getPassengers in *; cbn in *;
     try assumption).
  - rewrite Permutation_move_in.
    rewrite <- cs_perm0. symmetry. apply Permutation_take_first. exact Hin.
  - rewrite <- cs_perm0.
    rewrite (Permutation_take_last a _ _ _ Hin).
    rewrite <- app_assoc. cbn. rewrite !app_assoc.
    symmetry. apply Permutation_middle.
Qed.

(** Leaving the boat moves one avatar from the boat's array to a dock's. *)
Lemma Conserved_disembarked (r : DockRef) (a : Avatar) (w : World) :
  Conserved (game w) ->
  In a (getPassengers (boat (game w))) ->
  Conserved (game (disembarked r a w)).
Proof.
  intros H Hin. unfold getPassengers in Hin. destruct H.
  destruct r;
    (constructor; unfold disembarked, allPassengers, getPassengers in *; cbn in *;
     try assumption).
  - rewrite Permutation_put_first. rewrite <- cs_perm0.
    symmetry. apply Permutation_take_middle. exact Hin.
  - rewrite Permutation_put_last. rewrite <- cs_perm0.
    symmetry. apply Permutation_take_middle. exact Hin.
Qed.

(** With somebody aboard, neither dock is full. *)
Lemma Conserved_dock_not_full (r : DockRef) (a : Avatar) (g : Game) :
  Conserved g ->
  In a (getPassengers (boat g)) ->
  isFull (dockAt r g) = false.
Proof.
  intros H Hin. pose proof (Conserved_lengths H) as Hl.
  unfold isFull. apply Nat.leb_gt.
  unfold getPassengerCount, getPassengers in *.
  destruct (_passengers (boat g)) as [|x l] eqn:E; [destruct Hin|].
  cbn in Hl.
  destruct r; cbn [dockAt].
  - rewrite (cs_origin_cap H). lia.
  - rewrite (cs_dest_cap H). lia.
Qed.

(** [handleAvatarClick] with the boat at a dock, in any world. *)
Lemma Conserved_handleAvatarClick (avatar : Avatar) (w : World) :
  Conserved (game w) ->
  boat_location (boat (game w)) <> RIVER ->
  Conserved (game (exec (handleAvatarClick avatar) w)).
Proof.
  intros H Hloc. unfold exec. rewrite handleAvatarClick_cases.
  destruct (negb (GameStatus_eqb (status (game w)) ONGOING)); [exact H|].
  destruct (getMounted (heap w) avatar).
  - destruct (getDockByLocation (boat_location (boat (game w)))) as [r|]; [|exact H].
    destruct (hasPassenger (dockAt r (game w)) avatar) eqn:Eh; cbn [negb]; [|exact H].
    destruct (isFull (boat (game w))) eqn:Ef; [exact H|].
    rewrite board_boarded by exact Ef. cbn [snd].
    apply Conserved_boarded; [exact H|].
    apply hasPassenger_In. exact Eh.
  - destruct (hasPassenger (boat (game w)) avatar) eqn:Eh; cbn [negb]; [|exact H].
    apply hasPassenger_In in Eh.
    destruct (getDockByLocation (boat_location (boat (game w)))) as [r|] eqn:Ed.
    + rewrite (disembark_disembarked _ _ Ed (Conserved_dock_not_full r _ H Eh)).
      cbn [snd]. apply Conserved_disembarked; assumption.
    + destruct (boat_location (boat (game w))); try discriminate. congruence.
Qed.

(** [handleBoatClick], in any world: during a voyage too. *)
Lemma Conserved_handleBoatClick (w : World) :
  Conserved (game w) -> Conserved (game (exec handleBoatClick w)).
Proof.
  intros H. unfold exec. rewrite handleBoatClick_cases.
  destruct (negb (GameStatus_eqb (status (game w)) ONGOING)); [exact H|].
  destruct (negb (canSail (boat (game w)))); [exact H|].
  cbn [snd]. revert H. apply Conserved_ext; reflexivity.
Qed.

(** A timeout, in any world. *)
Lemma Conserved_timeout (n : nat) (w : World) :
  Conserved (game w) -> Conserved (game (exec (dispatch (TimeoutFired n)) w)).
Proof.
  intros H. unfold dispatch, exec. rewrite bind_gets.
  destruct (nth_error (timers (view w)) n) as [t|]; [|exact H].
  rewrite bind_modify.
  set (w0 := set_view (fun v => with_timers (removeNth n (timers v)) v) w).
  destruct t as [voyageTo|]; [|exact H].
  fold (exec (voyageTimeout voyageTo) w0). rewrite voyageTimeout_exec.
  destruct (handleGameStatus_frame
              (arrived voyageTo (set_view (with_isAnimating false) w0))) as (s & Hg & _).
  rewrite Hg. apply Conserved_with_status.
  revert H. apply Conserved_ext; reflexivity.
Qed.

Lemma engineReachable_Conserved (w : World) :
  engineReachable w -> Conserved (game w).
Proof.
  induction 1 as [m h c|avatar w _ IH Hloc|w _ IH|n w _ IH].
  - apply Conserved_Inv. apply Inv_start.
  - apply Conserved_handleAvatarClick; assumption.
  - apply Conserved_handleBoatClick. exact IH.
  - apply Conserved_timeout. exact IH.
Qed.

(** What the view's listeners and timeouts do is among these calls: the
    listeners call the game only while [isAnimating] is clear, and then
    the boat lies at a dock. *)
Lemma reachable_engineReachable (w : World) : reachable w -> engineReachable w.
Proof.
  induction 1 as [m h c|e w Hr IH]; [apply engine_start|].
  apply reachable_Inv in Hr.
  destruct e as [avatar| |n].
  - assert (E : exec (dispatch (AvatarClicked avatar)) w = w \/
                exec (dispatch (AvatarClicked avatar)) w =
                  exec (handleAvatarClick avatar) w /\
                isAnimating (view w) = false).
    { unfold dispatch, exec. rewrite bind_gets.
      destruct (negb (existsb (Avatar_eqb avatar) (listeners (view w))));
        [left; reflexivity|].
      rewrite bind_gets.
      destruct (isAnimating (view w)); cbn [negb];
        [left; reflexivity|right; split; reflexivity]. }
    destruct E as [E|[E Ea]]; rewrite E; [exact IH|].
    apply engine_avatar; [exact IH|].
    intros Hl. destruct (inv_river Hr Hl) as [Ht _]. congruence.
  - assert (E : exec (dispatch BoatClicked) w = w \/
                exec (dispatch BoatClicked) w = exec handleBoatClick w).
    { unfold dispatch, exec. rewrite bind_gets.
      destruct (isAnimating (view w)); cbn [negb]; [left|right]; reflexivity. }
    destruct E as [E|E]; rewrite E; [exact IH|].
    apply engine_boat. exact IH.
  - apply engine_timeout. exact IH.
Qed.

(** C8, as the code has it.  In every world reached from a freshly
    initialized game by calls of the game's methods, by whatever caller
    ([handleBoatClick] at any time, the callbacks of the pending
    timeouts, [handleAvatarClick] whenever the boat lies at a dock, which
    covers every call the view's listeners make), every avatar of the
    game occurs exactly once in the arrays of the origin dock, the boat
    and the destination dock taken together, nothing else occurs in
    them, and the three arrays together hold
    [totalAvatars = numMonsters + numHumans] avatars. *)
Theorem engine_conservation (w : World) :
  engineReachable w ->
  let g := game w in
  (forall a, In a (avatars g) -> occurrences g a = 1) /\
  (forall a, ~ In a (avatars g) -> occurrences g a = 0) /\
  getPassengerCount (dockOrigin g) + getPassengerCount (boat g) +
    getPassengerCount (dockDestination g) = totalAvatars g /\
  totalAvatars g = numMonsters g + numHumans g /\
  length (avatars g) = totalAvatars g.
Proof.
  intros Hr g. subst g. apply engineReachable_Conserved in Hr.
  pose proof (cs_perm Hr) as Hp.
  pose proof (proj1 (Permutation_count_occ Avatar_eq_dec _ _) Hp) as Hc.
  split; [|split; [|split; [|split]]].
  - intros a Ha. rewrite occurrences_all, Hc.
    pose proof (proj1 (NoDup_count_occ Avatar_eq_dec _) (cs_nodup Hr) a) as Hle.
    apply (count_occ_In Avatar_eq_dec) in Ha. lia.
  - intros a Ha. rewrite occurrences_all, Hc.
    apply count_occ_not_In. exact Ha.
  - apply Conserved_lengths. exact Hr.
  - apply cs_config. exact Hr.
  - symmetry. apply cs_total. exact Hr.
Qed.

(** * Concrete games *)

Lemma dispatch_timeout_evaluation (voyageTo : Location) (w : World) :
  nth_error (timers (view w)) 0 = Some (VoyageTimeout voyageTo) ->
  exec (dispatch (TimeoutFired 0)) w = exec handleGameStatus (atEvaluation voyageTo w).
Proof.
  intros E. unfold dispatch, exec at 1. rewrite bind_gets, E, bind_modify.
  apply voyageTimeout_exec.
Qed.

Lemma reachable_classicStart : reachable classicStart.
Proof. apply reachable_start. Qed.

Lemma reachable_oneAboard : reachable oneAboard.
Proof. apply reachable_run, reachable_start. Qed.

Lemma reachable_midVoyage : reachable midVoyage.
Proof. apply reachable_run, reachable_oneAboard. Qed.

Lemma reachable_landed : reachable landed.
Proof. apply reachable_run, reachable_start. Qed.

Lemma reachable_wonGame : reachable wonGame.
Proof. apply reachable_run, reachable_start. Qed.

Lemma reachable_outnumberedSailing : reachable outnumberedSailing.
Proof. apply reachable_run, reachable_start. Qed.

Lemma reachable_lastSailing : reachable lastSailing.
Proof. apply reachable_run, reachable_start. Qed.

Lemma reachable_splitSailing : reachable splitSailing.
Proof. apply reachable_run, reachable_start. Qed.

Lemma existsb_In (a : Avatar) (l : list Avatar) :
  existsb (Avatar_eqb a) l = true -> In a l.
Proof.
  intros H. apply existsb_exists in H. destruct H as (x & Hx & E).
  apply Avatar_eqb_eq in E. subst x. exact Hx.
Qed.

(** ** The theorems at concrete games *)

Lemma handleGameStatus_won_iff_witness :
  (status (game (atEvaluation DESTINATION lastSailing)) = ONGOING /\
   status (game (exec handleGameStatus (atEvaluation DESTINATION lastSailing))) = WON) /\
  (status (game lastSailing) <> WON /\
   winCondition (game (exec (dispatch (TimeoutFired 0)) lastSailing))).
Proof.
  assert (Hs : status (game (atEvaluation DESTINATION lastSailing)) = ONGOING)
    by (vm_compute; reflexivity).
  assert (Hn : status (game lastSailing) <> WON) by (vm_compute; discriminate).
  split; split; try assumption.
  - apply (proj1 (handleGameStatus_won_iff (atEvaluation DESTINATION lastSailing)
                    BoatClicked) Hs).
    vm_compute. split; [reflexivity|]. split; [reflexivity|apply le_n].
  - apply (proj2 (proj2 (handleGameStatus_won_iff lastSailing (TimeoutFired 0))) Hn).
    vm_compute. reflexivity.
Defined.

(** C2 fails as stated: in the game of two monsters and one human, on
    the last crossing the destination side holds one human and two
    monsters when the outcome is evaluated, yet the game is declared won
    and no loss is declared at the destination dock. *)
Lemma handleGameStatus_win_despite_imbalance :
  reachable outnumberedSailing /\
  nth_error (timers (view outnumberedSailing)) 0 = Some (VoyageTimeout DESTINATION) /\
  status (game outnumberedArrival) = ONGOING /\
  countType HUMAN (sideAvatars (game outnumberedArrival)
                               (dockDestination (game outnumberedArrival))) = 1 /\
  countType MONSTER (sideAvatars (game outnumberedArrival)
                                 (dockDestination (game outnumberedArrival))) = 2 /\
  isBalanced (game outnumberedArrival) (dockDestination (game outnumberedArrival)) = false /\
  status (game (exec handleGameStatus outnumberedArrival)) = WON /\
  status (game (exec (dispatch (TimeoutFired 0)) outnumberedSailing)) = WON /\
  handleGameStatus outnumberedArrival <> declareLoss DockDestination outnumberedArrival.
Proof.
  split; [exact reachable_outnumberedSailing|].
  do 7 (split; [vm_compute; reflexivity|]).
  intros E.
  apply (f_equal (fun r => status (game (snd r)))) in E.
  vm_compute in E. discriminate.
Qed.

Lemma handleGameStatus_loss_witness :
  status (game humanAlone) = ONGOING /\
  ~ winCondition (game humanAlone) /\
  isBalanced (game humanAlone) (dockOrigin (game humanAlone)) = false /\
  handleGameStatus humanAlone = declareLoss DockOrigin humanAlone /\
  status (game (exec handleGameStatus humanAlone)) = LOST.
Proof.
  assert (Hs : status (game humanAlone) = ONGOING) by (vm_compute; reflexivity).
  assert (Hw : ~ winCondition (game humanAlone)).
  { intros (H & _). vm_compute in H. discriminate. }
  assert (Hb : isBalanced (game humanAlone) (dockOrigin (game humanAlone)) = false)
    by (vm_compute; reflexivity).
  destruct (handleGameStatus_loss humanAlone) as (_ & Hloss & _).
  destruct (Hloss Hs Hw) as (Ho & _ & _ & Hiff).
  split; [exact Hs|]. split; [exact Hw|]. split; [exact Hb|]. split.
  - apply Ho. exact Hb.
  - apply Hiff. left. exact Hb.
Defined.

Lemma handleBoatClick_launch_witness :
  status (game oneAboard) = ONGOING /\
  tripCount (game (exec handleBoatClick oneAboard)) = tripCount (game oneAboard) + 1 /\
  boat_status (boat (game (exec handleBoatClick oneAboard))) = SAILING.
Proof.
  assert (Hs : status (game oneAboard) = ONGOING) by (vm_compute; reflexivity).
  assert (Hc : _minCapacity (boat (game oneAboard)) <=
               getPassengerCount (boat (game oneAboard)))
    by (vm_compute; apply le_n).
  destruct (handleBoatClick_launch oneAboard Hs) as (_ & _ & Hgo & _).
  destruct (Hgo Hc) as (Hsail & _ & _ & Htrip & _).
  split; [exact Hs|]. split; [exact Htrip|exact Hsail].
Defined.

(** C4 fails as stated for the game's own method: called while the boat
    is sailing, [handleBoatClick] launches again; the trip counter goes
    from 1 to 2 and a second arrival is scheduled. *)
Lemma handleBoatClick_in_flight :
  reachable midVoyage /\
  boat_status (boat (game midVoyage)) = SAILING /\
  tripCount (game midVoyage) = 1 /\
  tripCount (game (exec handleBoatClick midVoyage)) = 2 /\
  timers (view (exec handleBoatClick midVoyage)) =
    [VoyageTimeout DESTINATION; VoyageTimeout ORIGIN] /\
  game (exec handleBoatClick midVoyage) <> game midVoyage.
Proof.
  split; [exact reachable_midVoyage|].
  do 4 (split; [vm_compute; reflexivity|]).
  intros E. apply (f_equal tripCount) in E. vm_compute in E. discriminate.
Qed.

Lemma clicks_dropped_in_flight_witness :
  boat_status (boat (game midVoyage)) = SAILING /\
  isAnimating (view midVoyage) = true /\
  dispatch (AvatarClicked (monster 0)) midVoyage = (Normal tt, midVoyage) /\
  dispatch BoatClicked midVoyage = (Normal tt, midVoyage).
Proof.
  assert (Hs : boat_status (boat (game midVoyage)) = SAILING)
    by (vm_compute; reflexivity).
  destruct (clicks_dropped_in_flight reachable_midVoyage Hs)
    as (_ & _ & Ha & Hc & Hb).
  split; [exact Hs|]. split; [exact Ha|]. split; [apply Hc|exact Hb].
Defined.

(** C5 fails as stated for the game's own method: called while the boat
    is sailing, [handleAvatarClick] throws, for an avatar on a dock and
    for one aboard; the latter has left the boat's array by then. *)
Lemma handleAvatarClick_in_flight_throws :
  reachable midVoyage /\
  boat_status (boat (game midVoyage)) = SAILING /\
  completion (handleAvatarClick (monster 0)) midVoyage = Throw TypeError /\
  completion (handleAvatarClick (human 0)) midVoyage = Throw TypeError /\
  getPassengers (boat (game midVoyage)) = [human 0] /\
  getPassengers (boat (game (exec (handleAvatarClick (human 0)) midVoyage))) = [].
Proof.
  split; [exact reachable_midVoyage|].
  do 4 (split; [vm_compute; reflexivity|]).
  vm_compute; reflexivity.
Qed.

Lemma rejections_return_normally_witness :
  completion (handleAvatarClick (human 0)) landed = Normal tt /\
  handleBoatClick classicStart =
    showMessage "Someone needs to row the boat!" "info" classicStart /\
  handleAvatarClick (monster 1) landed =
    showMessage "Boat is on the other side!" "info" landed /\
  handleAvatarClick (human 0) wonGame = (Normal tt, wonGame) /\
  dispatch BoatClicked midVoyage = (Normal tt, midVoyage).
Proof.
  split; [|split; [|split; [|split]]].
  - apply (proj1 (rejections_return_normally (human 0) landed)).
    vm_compute. discriminate.
  - destruct (rejections_return_normally (human 0) classicStart)
      as (_ & _ & _ & _ & H & _).
    apply H; [vm_compute; reflexivity | vm_compute; apply le_n].
  - destruct (rejections_return_normally (monster 1) landed)
      as (_ & _ & _ & H & _).
    apply (H DockDestination); try (vm_compute; reflexivity).
    apply hasPassenger_false. vm_compute. reflexivity.
  - destruct (rejections_return_normally (human 0) wonGame)
      as (_ & _ & _ & _ & _ & H & _).
    apply H. vm_compute. discriminate.
  - destruct (rejections_return_normally (human 0) midVoyage)
      as (_ & _ & _ & _ & _ & _ & H).
    apply H; [exact reachable_midVoyage | vm_compute; reflexivity].
Defined.

Lemma handleAvatarClick_board_witness :
  getMounted (heap classicStart) (human 0) = ON_DOCK /\
  getPassengers (boat (game (exec (handleAvatarClick (human 0)) classicStart))) =
    getPassengers (boat (game classicStart)) ++ [human 0] /\
  getMounted (heap (exec (handleAvatarClick (human 0)) classicStart)) (human 0) = ON_BOAT.
Proof.
  assert (Hm : getMounted (heap classicStart) (human 0) = ON_DOCK)
    by (vm_compute; reflexivity).
  assert (Hd : getDockByLocation (boat_location (boat (game classicStart))) =
               Some DockOrigin) by (vm_compute; reflexivity).
  destruct (@handleAvatarClick_board (human 0) DockOrigin classicStart Hm Hd)
    as (Hboard & _).
  destruct Hboard as (_ & _ & Hb & Hon & _).
  - vm_compute; reflexivity.
  - apply existsb_In. vm_compute. reflexivity.
  - vm_compute; reflexivity.
  - split; [exact Hm|]. split; [exact Hb|exact Hon].
Defined.

(** C7 fails as stated: after the winning crossing the passengers are
    still aboard, the boat is docked at the destination, and a click on a
    passenger leaves it aboard. *)
Lemma handleAvatarClick_aboard_after_win :
  reachable wonGame /\
  status (game wonGame) = WON /\
  boat_status (boat (game wonGame)) = DOCKED /\
  boat_location (boat (game wonGame)) = DESTINATION /\
  In (human 0) (getPassengers (boat (game wonGame))) /\
  handleAvatarClick (human 0) wonGame = (Normal tt, wonGame) /\
  getPassengers (dockDestination (game (exec (handleAvatarClick (human 0)) wonGame))) = [].
Proof.
  split; [exact reachable_wonGame|].
  do 3 (split; [vm_compute; reflexivity|]).
  split; [apply existsb_In; vm_compute; reflexivity|].
  split; [apply handleAvatarClick_decided; vm_compute; discriminate|].
  vm_compute; reflexivity.
Qed.

Lemma handleAvatarClick_disembark_witness :
  In (human 0) (getPassengers (boat (game landed))) /\
  ~ In (human 0) (getPassengers (boat (game (exec (handleAvatarClick (human 0)) landed)))) /\
  getMounted (heap (exec (handleAvatarClick (human 0)) landed)) (human 0) = ON_DOCK.
Proof.
  assert (Hin : In (human 0) (getPassengers (boat (game landed))))
    by (apply existsb_In; vm_compute; reflexivity).
  destruct (handleAvatarClick_disembark (human 0) landed) as (Hleave & _).
  destruct Hleave as (r & _ & _ & _ & Hgone & _ & _ & Hdock & _).
  - exact reachable_landed.
  - vm_compute; reflexivity.
  - vm_compute; reflexivity.
  - exact Hin.
  - split; [exact Hin|]. split; [exact Hgone|exact Hdock].
Defined.

(** C8 fails as stated: with a human aboard and the boat on the river,
    a world the program reaches, [handleAvatarClick] for that passenger
    takes the avatar off the boat's array and throws before any dock
    receives it; the avatar is on the roster and in none of the three
    arrays, which together hold five of the six avatars. *)
Lemma handleAvatarClick_in_flight_drops_avatar :
  reachable midVoyage /\
  boat_location (boat (game midVoyage)) = RIVER /\
  occurrences (game midVoyage) (human 0) = 1 /\
  completion (handleAvatarClick (human 0)) midVoyage = Throw TypeError /\
  In (human 0) (avatars (game overboard)) /\
  occurrences (game overboard) (human 0) = 0 /\
  getPassengerCount (dockOrigin (game overboard)) +
  getPassengerCount (boat (game overboard)) +
  getPassengerCount (dockDestination (game overboard)) = 5 /\
  totalAvatars (game overboard) = 6.
Proof.
  split; [exact reachable_midVoyage|].
  do 3 (split; [vm_compute; reflexivity|]).
  split; [apply existsb_In; vm_compute; reflexivity|].
  do 2 (split; [vm_compute; reflexivity|]).
  vm_compute; reflexivity.
Qed.

Lemma engine_conservation_witness :
  boat_location (boat (game midVoyage)) = RIVER /\
  timers (view relaunched) = [VoyageTimeout DESTINATION; VoyageTimeout ORIGIN] /\
  (forall a, In a (avatars (game relaunched)) -> occurrences (game relaunched) a = 1) /\
  getPassengerCount (dockOrigin (game relaunched)) +
  getPassengerCount (boat (game relaunched)) +
  getPassengerCount (dockDestination (game relaunched)) = totalAvatars (game relaunched).
Proof.
  assert (Hr : engineReachable relaunched).
  { apply engine_boat. apply reachable_engineReachable. exact reachable_midVoyage. }
  destruct (engine_conservation Hr) as (H1 & _ & H3 & _).
  split; [vm_compute; reflexivity|]. split; [vm_compute; reflexivity|].
  split; assumption.
Defined.

Lemma reachable_boat_capacity_witness :
  getPassengerCount (boat (game landed)) <= _maxCapacity (boat (game landed)).
Proof.
  apply (proj1 (reachable_boat_capacity reachable_landed)).
Defined.

Lemma handleGameStatus_origin_first_witness :
  isBalanced (game splitArrival) (dockOrigin (game splitArrival)) = false /\
  isBalanced (game splitArrival) (dockDestination (game splitArrival)) = false /\
  status (game (exec handleGameStatus splitArrival)) = LOST /\
  calls (view (exec handleGameStatus splitArrival)) =
    calls (view splitArrival) ++
    [PlayFeastAnimation [monster 2; monster 3] [human 1]].
Proof.
  assert (Ho : isBalanced (game splitArrival) (dockOrigin (game splitArrival)) = false)
    by (vm_compute; reflexivity).
  assert (Hd : isBalanced (game splitArrival) (dockDestination (game splitArrival)) = false)
    by (vm_compute; reflexivity).
  assert (Hs : status (game splitArrival) = ONGOING) by (vm_compute; reflexivity).
  assert (Hl : dock_location (dockOrigin (game splitArrival)) = ORIGIN)
    by (vm_compute; reflexivity).
  destruct (handleGameStatus_origin_first splitArrival Hs Hl Ho Hd)
    as (_ & _ & Hlost & Hcalls).
  split; [exact Ho|]. split; [exact Hd|]. split; [exact Hlost|].
  rewrite Hcalls. vm_compute. reflexivity.
Defined.

(** * More properties of the code *)

(** ** MountObj *)

Lemma addPassenger_result (a : Avatar) (m : MountObj) :
  addPassenger a m =
  if isFull m then (false, m)
  else (true, mkMountObj (_minCapacity m) (_maxCapacity m) (_passengers m ++ [a])).
Proof. reflexivity. Qed.

Lemma removePassenger_fst (a : Avatar) (m : MountObj) :
  fst (removePassenger a m) = hasPassenger m a.
Proof.
  unfold removePassenger, hasPassenger.
  induction (_passengers m) as [|x l IH]; cbn; [reflexivity|].
  destruct (Avatar_eqb x a) eqn:E.
  - apply Avatar_eqb_eq in E. subst x. rewrite Avatar_eqb_refl. reflexivity.
  - assert (E' : Avatar_eqb a x = false).
    { apply Avatar_eqb_neq. apply Avatar_eqb_neq in E. congruence. }
    rewrite E'. cbn. destruct (indexOf a l); exact IH.
Qed.

Lemma applyMountOp_frame (m : MountObj) (op : MountOp) :
  _minCapacity (applyMountOp m op) = _minCapacity m /\
  _maxCapacity (applyMountOp m op) = _maxCapacity m /\
  (getPassengerCount m <= _maxCapacity m ->
   getPassengerCount (applyMountOp m op) <= _maxCapacity m).
Proof.
  destruct op as [a|a]; cbn [applyMountOp].
  - rewrite addPassenger_snd. unfold isFull, getPassengerCount.
    destruct (_maxCapacity m <=? length (_passengers m)) eqn:E; cbn.
    + auto.
    + apply Nat.leb_gt in E. rewrite length_app. cbn. repeat split; lia.
  - rewrite removePassenger_snd. unfold getPassengerCount. cbn.
    pose proof (removeFirst_length_le a (_passengers m)). repeat split; lia.
Qed.

(** X1. A mount made by the constructor and then used through
    [addPassenger] and [removePassenger] only, in any order and with any
    avatars, never holds more than [maxCapacity] passengers, and its two
    capacities stay the ones given to the constructor. *)
Theorem MountObj_within_capacity (minCapacity maxCapacity : nat) (ops : list MountOp) :
  getPassengerCount (fold_left applyMountOp ops (MountObj_new minCapacity maxCapacity))
    <= maxCapacity /\
  _maxCapacity (fold_left applyMountOp ops (MountObj_new minCapacity maxCapacity))
    = maxCapacity /\
  _minCapacity (fold_left applyMountOp ops (MountObj_new minCapacity maxCapacity))
    = minCapacity.
Proof.
  assert (H : forall m,
             getPassengerCount m <= _maxCapacity m ->
             getPassengerCount (fold_left applyMountOp ops m) <= _maxCapacity m /\
             _maxCapacity (fold_left applyMountOp ops m) = _maxCapacity m /\
             _minCapacity (fold_left applyMountOp ops m) = _minCapacity m).
  { induction ops as [|op ops IH]; intros m Hm; cbn [fold_left]; [auto|].
    destruct (applyMountOp_frame m op) as (Hmin & Hmax & Hcap).
    destruct (IH (applyMountOp m op)) as (H1 & H2 & H3).
    - rewrite Hmax. apply Hcap. exact Hm.
    - rewrite <- Hmax, <- Hmin. auto. }
  apply (H (MountObj_new minCapacity maxCapacity)). cbn. lia.
Qed.

Lemma removeFirst_count_same (a : Avatar) (l : list Avatar) :
  count_occ Avatar_eq_dec (removeFirst a l) a = pred (count_occ Avatar_eq_dec l a).
Proof.
  induction l as [|x l IH]; cbn; [reflexivity|].
  destruct (Avatar_eqb x a) eqn:E.
  - apply Avatar_eqb_eq in E. subst x.
    destruct (Avatar_eq_dec a a); [reflexivity|congruence].
  - apply Avatar_eqb_neq in E. cbn.
    destruct (Avatar_eq_dec x a); [congruence|exact IH].
Qed.

Lemma removeFirst_count_other (a b : Avatar) (l : list Avatar) :
  b <> a ->
  count_occ Avatar_eq_dec (removeFirst a l) b = count_occ Avatar_eq_dec l b.
Proof.
  intros Hb. induction l as [|x l IH]; cbn; [reflexivity|].
  destruct (Avatar_eqb x a) eqn:E.
  - apply Avatar_eqb_eq in E. subst x.
    destruct (Avatar_eq_dec a b); [congruence|reflexivity].
  - cbn. destruct (Avatar_eq_dec x b); [rewrite IH; reflexivity|exact IH].
Qed.

Lemma removeFirst_length (a : Avatar) (l : list Avatar) :
  In a l -> length (removeFirst a l) + 1 = length l.
Proof.
  intros H. rewrite (Permutation_length (removeFirst_Permutation a l H)). cbn. lia.
Qed.

(** X2. [removePassenger] returns [true] exactly when the mount holds
    the avatar.  It then takes out one occurrence of it, the first, and
    leaves every other passenger, so the mount holds one passenger less;
    when it returns [false] the mount is unchanged.  The capacities are
    never touched. *)
Theorem removePassenger_one (avatar : Avatar) (m : MountObj) :
  let ok := fst (removePassenger avatar m) in
  let m' := snd (removePassenger avatar m) in
  (ok = true <-> In avatar (getPassengers m)) /\
  getPassengers m' = removeFirst avatar (getPassengers m) /\
  count_occ Avatar_eq_dec (getPassengers m') avatar =
    pred (count_occ Avatar_eq_dec (getPassengers m) avatar) /\
  (forall b, b <> avatar ->
     count_occ Avatar_eq_dec (getPassengers m') b =
     count_occ Avatar_eq_dec (getPassengers m) b) /\
  (ok = true -> getPassengerCount m' + 1 = getPassengerCount m) /\
  (ok = false -> m' = m) /\
  _minCapacity m' = _minCapacity m /\
  _maxCapacity m' = _maxCapacity m.
Proof.
  intros ok m'. subst ok m'.
  rewrite removePassenger_fst, removePassenger_snd.
  unfold getPassengers, getPassengerCount. cbn.
  split; [apply hasPassenger_In|].
  split; [reflexivity|].
  split; [apply removeFirst_count_same|].
  split; [intros b Hb; apply removeFirst_count_other; exact Hb|].
  split; [intros H; apply removeFirst_length; apply hasPassenger_In; exact H|].
  split; [|split; reflexivity].
  intros H. apply hasPassenger_false in H.
  rewrite (removeFirst_notin _ _ H). destruct m; reflexivity.
Qed.

Lemma removeFirst_app_last (a : Avatar) (l : list Avatar) :
  ~ In a l -> removeFirst a (l ++ [a]) = l.
Proof.
  induction l as [|x l IH]; intros Hn; cbn.
  - rewrite Avatar_eqb_refl. reflexivity.
  - destruct (Avatar_eqb x a) eqn:E.
    + apply Avatar_eqb_eq in E. subst x. exfalso. apply Hn. left; reflexivity.
    + f_equal. apply IH. intros H. apply Hn. right; exact H.
Qed.

(** X3. Adding an avatar the mount does not hold, to a mount that is
    not full, and removing it again gives back the mount as it was, both
    calls returning [true].  The other way round, removing an avatar the
    mount holds and adding it again, in a mount within its capacity, also
    returns [true] twice and keeps the same passengers, with the avatar
    moved to the end of the array. *)
Theorem add_remove_round_trip (avatar : Avatar) (m : MountObj) :
  (~ In avatar (getPassengers m) -> isFull m = false ->
     fst (addPassenger avatar m) = true /\
     removePassenger avatar (snd (addPassenger avatar m)) = (true, m)) /\
  (In avatar (getPassengers m) -> getPassengerCount m <= _maxCapacity m ->
     fst (removePassenger avatar m) = true /\
     fst (addPassenger avatar (snd (removePassenger avatar m))) = true /\
     getPassengers (snd (addPassenger avatar (snd (removePassenger avatar m)))) =
       removeFirst avatar (getPassengers m) ++ [avatar] /\
     Permutation
       (getPassengers (snd (addPassenger avatar (snd (removePassenger avatar m)))))
       (getPassengers m)).
Proof.
  unfold getPassengers, getPassengerCount. split.
  - intros Hn Hf. rewrite addPassenger_result, Hf. cbn [fst snd].
    split; [reflexivity|].
    rewrite (surjective_pairing (removePassenger avatar _)).
    rewrite removePassenger_fst, removePassenger_snd.
    cbn [_passengers _minCapacity _maxCapacity].
    rewrite (removeFirst_app_last _ _ Hn).
    f_equal; [|destruct m; reflexivity].
    apply hasPassenger_In. cbn [_passengers].
    apply in_or_app. right. left. reflexivity.
  - intros Hin Hcap.
    rewrite removePassenger_fst, removePassenger_snd.
    split; [apply hasPassenger_In; exact Hin|].
    pose proof (removeFirst_length avatar _ Hin) as Hl.
    rewrite addPassenger_result. unfold isFull. cbn [_passengers _maxCapacity].
    destruct (_maxCapacity m <=? length (removeFirst avatar (_passengers m))) eqn:E;
      [apply Nat.leb_le in E; lia|].
    cbn. split; [reflexivity|]. split; [reflexivity|].
    rewrite (removeFirst_Permutation avatar _ Hin) at 2.
    symmetry. apply Permutation_cons_append.
Qed.

(** ** The new game *)

Lemma countType_newAvatars (type t : AvatarType) (prefix : string) (l : list nat) :
  countType t (map (newAvatar type prefix) l) =
  if AvatarType_eqb type t then length l else 0.
Proof.
  unfold countType. induction l as [|i l IH]; cbn.
  - destruct (AvatarType_eqb type t); reflexivity.
  - unfold isType at 1. cbn.
    destruct (AvatarType_eqb type t); cbn; rewrite IH; reflexivity.
Qed.

Lemma newAvatar_id_inj (type : AvatarType) (prefix : string) (i j : nat) :
  getId (newAvatar type prefix i) = getId (newAvatar type prefix j) -> i = j.
Proof.
  cbn. intros E. apply string_of_nat_inj. apply (append_inj _ _ _ E).
Qed.

Lemma newAvatars_ids_NoDup (type : AvatarType) (prefix : string) (n : nat) :
  NoDup (map getId (map (newAvatar type prefix) (seq 0 n))).
Proof.
  generalize 0. induction n as [|n IH]; intros start; cbn [seq map]; constructor.
  - rewrite map_map, in_map_iff. intros (j & E & Hj).
    apply newAvatar_id_inj in E. apply in_seq in Hj. lia.
  - apply IH.
Qed.

Lemma initialAvatars_ids_NoDup (m h : nat) : NoDup (map getId (initialAvatars m h)).
Proof.
  unfold initialAvatars. rewrite map_app.
  apply NoDup_app; try apply newAvatars_ids_NoDup.
  intros id Hm Hh.
  rewrite map_map in Hm, Hh.
  apply in_map_iff in Hm. destruct Hm as (i & <- & _).
  apply in_map_iff in Hh. destruct Hh as (j & E & _).
  cbn in E. discriminate.
Qed.

(** X4. [startNewGame] gives an ongoing game with no trip made: the
    [numMonsters] monsters, numbered from 0, followed by the [numHumans]
    humans, numbered from 0, all with different ids, stand on the origin
    dock in that order, on-dock and at the origin; the boat is empty,
    docked at the origin, with room for [boatCapacity] and a minimum crew
    of 1; the destination dock is empty; both docks have room for
    everybody; nothing is animating, no timeout is pending and every
    avatar can be clicked. *)
Theorem startNewGame_initial (m h c : nat) :
  let w := startNewGame m h c in
  let g := game w in
  (status g = ONGOING /\ tripCount g = 0 /\
   numMonsters g = m /\ numHumans g = h /\ totalAvatars g = m + h /\
   boatCapacity g = c) /\
  (getPassengers (dockOrigin g) = avatars g /\
   getPassengers (boat g) = [] /\
   getPassengers (dockDestination g) = [] /\
   _maxCapacity (dockOrigin g) = m + h /\
   _maxCapacity (dockDestination g) = m + h) /\
  (boat_location (boat g) = ORIGIN /\ boat_status (boat g) = DOCKED /\
   _maxCapacity (boat g) = c /\ _minCapacity (boat g) = 1) /\
  (length (avatars g) = m + h /\
   countType MONSTER (avatars g) = m /\
   countType HUMAN (avatars g) = h /\
   NoDup (map getId (avatars g)) /\
   (forall i, i < m -> nth_error (avatars g) i = Some (monster i)) /\
   (forall i, i < h -> nth_error (avatars g) (m + i) = Some (human i))) /\
  (forall a, getMounted (heap w) a = ON_DOCK /\ getLocation (heap w) a = ORIGIN) /\
  (isAnimating (view w) = false /\ timers (view w) = [] /\
   listeners (view w) = avatars g).
Proof.
  intros w g. subst w g.
  destruct (startNewGame_world m h c) as (Hg & Hh & Hv).
  assert (Hlen : length (initialAvatars m h) = m + h).
  { unfold initialAvatars. rewrite length_app, !length_map, !length_seq. reflexivity. }
  assert (Hmon : countType MONSTER (initialAvatars m h) = m).
  { unfold initialAvatars.
    rewrite countType_app, !countType_newAvatars, !length_seq. cbn. lia. }
  assert (Hhum : countType HUMAN (initialAvatars m h) = h).
  { unfold initialAvatars.
    rewrite countType_app, !countType_newAvatars, !length_seq. reflexivity. }
  assert (Hnm : forall i, i < m -> nth_error (initialAvatars m h) i = Some (monster i)).
  { intros i Hi. unfold initialAvatars.
    rewrite nth_error_app1 by (rewrite length_map, length_seq; exact Hi).
    rewrite nth_error_map, nth_error_seq.
    destruct (Nat.ltb_spec i m); [reflexivity|lia]. }
  assert (Hnh : forall i, i < h -> nth_error (initialAvatars m h) (m + i) = Some (human i)).
  { intros i Hi. unfold initialAvatars.
    rewrite nth_error_app2 by (rewrite length_map, length_seq; lia).
    rewrite length_map, length_seq.
    replace (m + i - m) with i by lia.
    rewrite nth_error_map, nth_error_seq.
    destruct (Nat.ltb_spec i h); [reflexivity|lia]. }
  pose proof (initialAvatars_ids_NoDup m h) as Hnd.
  rewrite Hg, Hv. unfold initialGame, getMounted, getLocation.
  remember (initialAvatars m h) as L eqn:EL. cbn.
  split; [repeat split|]. split; [repeat split|]. split; [repeat split|].
  split; [repeat split; assumption|]. split.
  - intros a. rewrite Hh. split; reflexivity.
  - rewrite app_nil_r. repeat split.
Qed.

(** ** Evaluating the outcome twice *)

Lemma handleGameStatus_completion (w : World) :
  exists o, completion handleGameStatus w = Normal o.
Proof.
  unfold completion. rewrite handleGameStatus_cases.
  destruct (negb (GameStatus_eqb (status (game w)) ONGOING)); [exists None; reflexivity|].
  destruct (winConditionb (game w)); [exists (Some true); reflexivity|].
  destruct (isBalanced (game w) (dockOrigin (game w))) eqn:Eo; cbn [negb].
  - destruct (isBalanced (game w) (dockDestination (game w))) eqn:Ed; cbn [negb].
    + exists None; reflexivity.
    + exists None. apply (declareLoss_completion DockDestination w Ed).
  - exists None. apply (declareLoss_completion DockOrigin w Eo).
Qed.

(** X6. [handleGameStatus] never throws, in any world: the feast it
    starts always has a prey.  And it is idempotent: called again right
    after itself it returns without changing anything, whether the first
    call declared a win, declared a loss or left the game ongoing. *)
Theorem handleGameStatus_idempotent (w : World) :
  (exists o, completion handleGameStatus w = Normal o) /\
  handleGameStatus (exec handleGameStatus w) = (Normal None, exec handleGameStatus w).
Proof.
  split; [apply handleGameStatus_completion|].
  assert (Hdecided : forall w', status (game w') <> ONGOING ->
                                handleGameStatus w' = (Normal None, w')).
  { intros w' Hs. rewrite handleGameStatus_cases.
    destruct (status (game w')); [congruence|reflexivity|reflexivity]. }
  assert (Hloss : forall r, handleGameStatus (exec (declareLoss r) w) =
                            (Normal None, exec (declareLoss r) w)).
  { intros r. apply Hdecided. rewrite declareLoss_game. discriminate. }
  unfold exec. rewrite (handleGameStatus_cases w).
  destruct (negb (GameStatus_eqb (status (game w)) ONGOING)) eqn:Es.
  - cbn [snd]. rewrite handleGameStatus_cases, Es. reflexivity.
  - destruct (winConditionb (game w)) eqn:Ew.
    + apply Hdecided. cbn. discriminate.
    + destruct (negb (isBalanced (game w) (dockOrigin (game w)))) eqn:Eo;
        [apply Hloss|].
      destruct (negb (isBalanced (game w) (dockDestination (game w)))) eqn:Ed;
        [apply Hloss|].
      cbn [snd]. rewrite handleGameStatus_cases, Es, Ew, Eo, Ed. reflexivity.
Qed.

(** ** The feast *)

Lemma isType_human_monster (a : Avatar) : isType HUMAN a = negb (isType MONSTER a).
Proof. destruct a as [[] id]; reflexivity. Qed.

Lemma filter_partition_Permutation (l : list Avatar) :
  Permutation (filter (isType MONSTER) l ++ filter (isType HUMAN) l) l.
Proof.
  induction l as [|a l IH]; cbn; [reflexivity|].
  rewrite isType_human_monster. destruct (isType MONSTER a); cbn.
  - apply perm_skip. exact IH.
  - rewrite <- Permutation_middle. apply perm_skip. exact IH.
Qed.

(** X7. The two lists [handleFeast] passes to the view split the side
    of the dock (the dock's passengers, then the boat's when the boat lies
    there): the predators are its monsters and the prey its humans, each
    in the order of the arrays, and nobody is left out or added.  The side
    is unbalanced exactly when there is a prey and there are more
    predators than prey. *)
Theorem feastLists_split (g : Game) (dock : Dock) :
  let predatorList := fst (feastLists g dock) in
  let preyList := snd (feastLists g dock) in
  predatorList = filter (isType MONSTER) (sideAvatars g dock) /\
  preyList = filter (isType HUMAN) (sideAvatars g dock) /\
  Forall (fun a => getType a = MONSTER) predatorList /\
  Forall (fun a => getType a = HUMAN) preyList /\
  Permutation (predatorList ++ preyList) (sideAvatars g dock) /\
  (isBalanced g dock = false <->
   0 < length preyList /\ length preyList < length predatorList).
Proof.
  intros predatorList preyList. subst predatorList preyList.
  rewrite feastLists_filter. cbn [fst snd].
  split; [reflexivity|]. split; [reflexivity|].
  split; [|split; [|split]].
  - apply Forall_forall. intros a Ha. apply filter_In in Ha.
    destruct Ha as [_ Ha]. apply AvatarType_eqb_eq. exact Ha.
  - apply Forall_forall. intros a Ha. apply filter_In in Ha.
    destruct Ha as [_ Ha]. apply AvatarType_eqb_eq. exact Ha.
  - apply filter_partition_Permutation.
  - apply isBalanced_false_iff.
Qed.

(** ** The targets of the feast *)

Lemma Map_get_set_same (key value : string) (targets : list (string * string)) :
  Map_get key (Map_set key value targets) = Some value.
Proof.
  induction targets as [|[k v] rest IH]; cbn.
  - rewrite String.eqb_refl. reflexivity.
  - destruct (String.eqb k key) eqn:E; cbn; rewrite E; [reflexivity|exact IH].
Qed.

Lemma Map_get_set_other (key key' value : string) (targets : list (string * string)) :
  key' <> key ->
  Map_get key' (Map_set key value targets) = Map_get key' targets.
Proof.
  intros Hk. induction targets as [|[k v] rest IH]; cbn.
  - destruct (String.eqb key key') eqn:E; [|reflexivity].
    apply String.eqb_eq in E. congruence.
  - destruct (String.eqb k key) eqn:E; cbn.
    + apply String.eqb_eq in E. subst k.
      destruct (String.eqb key key') eqn:E'; [|reflexivity].
      apply String.eqb_eq in E'. congruence.
    + destruct (String.eqb k key'); [reflexivity|exact IH].
Qed.

(** The assignment from any point of the loop on: with a prey list that
    is not empty and an index inside it, the loop ends normally, leaves
    the entries of other keys alone and gives the predator number [i] of
    what is left the prey number [(preyIndex + i) mod length]. *)
Lemma assignTargets_from (preyList : list Avatar) (predatorList : list Avatar) :
  forall (preyIndex : nat) (targets0 : list (string * string)),
  preyIndex < length preyList ->
  NoDup (map getId predatorList) ->
  exists targets,
    assignTargets predatorList preyList preyIndex targets0 = Normal targets /\
    (forall key, ~ In key (map getId predatorList) ->
                 Map_get key targets = Map_get key targets0) /\
    (forall i predator,
        nth_error predatorList i = Some predator ->
        exists prey,
          nth_error preyList ((preyIndex + i) mod length preyList) = Some prey /\
          Map_get (getId predator) targets = Some (getId prey)).
Proof.
  induction predatorList as [|p rest IH]; intros preyIndex targets0 Hk Hnd.
  - exists targets0. split; [reflexivity|]. split; [reflexivity|].
    intros i predator H. destruct i; discriminate.
  - cbn [assignTargets].
    destruct (nth_error preyList preyIndex) as [q|] eqn:Eq;
      [|apply nth_error_None in Eq; lia].
    cbn [map] in Hnd. inversion Hnd as [|x l Hp Hrest]; subst.
    assert (Hn : length preyList <> 0) by lia.
    destruct (@IH ((preyIndex + 1) mod length preyList)
                  (Map_set (getId p) (getId q) targets0))
      as (targets & Hrun & Hframe & Hget).
    { apply Nat.mod_upper_bound. exact Hn. }
    { exact Hrest. }
    exists targets. split; [exact Hrun|]. split.
    + intros key Hkey. rewrite Hframe.
      * apply Map_get_set_other. intros E. apply Hkey. left. congruence.
      * intros H. apply Hkey. right. exact H.
    + intros i predator Hi. destruct i as [|i]; cbn in Hi.
      * inversion Hi; subst predator. exists q.
        rewrite Nat.add_0_r, Nat.mod_small by exact Hk.
        split; [exact Eq|].
        rewrite Hframe by exact Hp. apply Map_get_set_same.
      * destruct (Hget i predator Hi) as (prey & Hprey & Hmap).
        exists prey. split; [|exact Hmap].
        rewrite Nat.Div0.add_mod_idemp_l in Hprey.
        replace (preyIndex + S i) with (preyIndex + 1 + i) by lia. exact Hprey.
Qed.

(** X8. The target assignment of [playFeastAnimation] throws exactly
    when there is a predator and no prey, which is the case the model of
    [playFeastAnimation] throws in.  With at least one prey and predators
    of different ids it gives predator number [i] the prey number
    [i mod preyList.length] (the prey are handed out in turn), so when
    there are at least as many predators as prey, as in every declared
    loss, each prey is the target of some predator. *)
Theorem assignTargets_round_robin (predatorList preyList : list Avatar) :
  (assignTargets predatorList preyList 0 [] = Throw TypeError <->
   predatorList <> [] /\ preyList = []) /\
  (preyList <> [] -> NoDup (map getId predatorList) ->
   exists targets,
     assignTargets predatorList preyList 0 [] = Normal targets /\
     (forall i predator,
         nth_error predatorList i = Some predator ->
         exists prey,
           nth_error preyList (i mod length preyList) = Some prey /\
           Map_get (getId predator) targets = Some (getId prey)) /\
     (length preyList <= length predatorList ->
      forall prey, In prey preyList ->
        exists predator, In predator predatorList /\
                         Map_get (getId predator) targets = Some (getId prey))).
Proof.
  split.
  - destruct preyList as [|q preyList].
    + destruct predatorList as [|p rest]; cbn.
      * split; [discriminate | intros [H _]; congruence].
      * split; [intros _; split; [discriminate|reflexivity] | reflexivity].
    + split; [|intros [_ H]; discriminate].
      intros H. exfalso. revert H.
      assert (Hgen : forall (l : list Avatar) k t,
                 k < length (q :: preyList) ->
                 assignTargets l (q :: preyList) k t <> Throw TypeError).
      { induction l as [|p rest IH]; intros k t Hk; cbn [assignTargets];
          [discriminate|].
        destruct (nth_error (q :: preyList) k) eqn:E;
          [|apply nth_error_None in E; lia].
        apply IH. apply Nat.mod_upper_bound. discriminate. }
      apply Hgen. cbn. lia.
  - intros Hprey Hnd.
    assert (Hlen : 0 < length preyList)
      by (destruct preyList; [congruence | cbn; lia]).
    destruct (@assignTargets_from preyList predatorList 0 [] Hlen Hnd)
      as (targets & Hrun & _ & Hget).
    exists targets. split; [exact Hrun|]. split; [exact Hget|].
    intros Hle prey Hin.
    apply In_nth_error in Hin. destruct Hin as (i & Hi).
    assert (Hi' : i < length preyList) by (apply nth_error_Some; congruence).
    destruct (nth_error predatorList i) as [predator|] eqn:Ep;
      [|apply nth_error_None in Ep; lia].
    exists predator. split; [apply (nth_error_In _ _ Ep)|].
    destruct (Hget i predator Ep) as (prey' & Hprey' & Hmap).
    cbn [Nat.add] in Hprey'. rewrite Nat.mod_small in Hprey' by exact Hi'.
    rewrite Hi in Hprey'. inversion Hprey'; subst prey'. exact Hmap.
Qed.

(** ** Sides and clicks *)

Lemma countType_Permutation (t : AvatarType) (l l' : list Avatar) :
  Permutation l l' -> countType t l = countType t l'.
Proof.
  unfold countType. induction 1 as [|x l l' _ IH|x y l|l l' l'' _ IH1 _ IH2]; cbn.
  - reflexivity.
  - destruct (isType t x); cbn; rewrite IH; reflexivity.
  - destruct (isType t x), (isType t y); reflexivity.
  - rewrite IH1. exact IH2.
Qed.

Lemma isBalanced_same_side (g g' : Game) (d d' : Dock) :
  Permutation (sideAvatars g d) (sideAvatars g' d') ->
  isBalanced g d = isBalanced g' d'.
Proof.
  intros H. rewrite !isBalanced_counts.
  rewrite (countType_Permutation HUMAN H), (countType_Permutation MONSTER H).
  reflexivity.
Qed.

Lemma getDockByLocation_Some (l : Location) (r : DockRef) :
  getDockByLocation l = Some r ->
  l = match r with DockOrigin => ORIGIN | DockDestination => DESTINATION end.
Proof. destruct l, r; cbn; congruence. Qed.

(** Boarding and leaving the boat keep the avatars of each side, up to
    their order. *)
Lemma boarded_sides (r r' : DockRef) (a : Avatar) (w : World) :
  Inv w ->
  getDockByLocation (boat_location (boat (game w))) = Some r ->
  In a (getPassengers (dockAt r (game w))) ->
  Permutation
    (sideAvatars (game (boarded r a w)) (dockAt r' (game (boarded r a w))))
    (sideAvatars (game w) (dockAt r' (game w))).
Proof.
  intros H Hd Hin. apply getDockByLocation_Some in Hd.
  pose proof (inv_origin_loc H) as Ho. pose proof (inv_dest_loc H) as Hdst.
  unfold sideAvatars, boarded, getPassengers in *.
  destruct r, r'; cbn in *; rewrite ?Ho, ?Hdst, Hd; cbn; rewrite ?app_nil_r.
  - rewrite (removeFirst_Permutation a _ Hin) at 2. cbn.
    rewrite app_assoc. symmetry. apply Permutation_cons_append.
  - reflexivity.
  - reflexivity.
  - rewrite (removeFirst_Permutation a _ Hin) at 2. cbn.
    rewrite app_assoc. symmetry. apply Permutation_cons_append.
Qed.

Lemma disembarked_sides (r r' : DockRef) (a : Avatar) (w : World) :
  Inv w ->
  getDockByLocation (boat_location (boat (game w))) = Some r ->
  In a (getPassengers (boat (game w))) ->
  Permutation
    (sideAvatars (game (disembarked r a w)) (dockAt r' (game (disembarked r a w))))
    (sideAvatars (game w) (dockAt r' (game w))).
Proof.
  intros H Hd Hin. apply getDockByLocation_Some in Hd.
  pose proof (inv_origin_loc H) as Ho. pose proof (inv_dest_loc H) as Hdst.
  unfold sideAvatars, disembarked, getPassengers in *.
  destruct r, r'; cbn in *; rewrite ?Ho, ?Hdst, Hd; cbn; rewrite ?app_nil_r.
  - rewrite (removeFirst_Permutation a _ Hin) at 2.
    rewrite <- app_assoc. cbn. apply Permutation_app_head.
    symmetry. apply Permutation_refl.
  - reflexivity.
  - reflexivity.
  - rewrite (removeFirst_Permutation a _ Hin) at 2.
    rewrite <- app_assoc. cbn. apply Permutation_app_head.
    symmetry. apply Permutation_refl.
Qed.

(** ** The second invariant *)

Lemma Coherent_ext (w w' : World) :
  game w' = game w ->
  heap w' = heap w ->
  isAnimating (view w') = isAnimating (view w) ->
  timers (view w') = timers (view w) ->
  listeners (view w') = listeners (view w) ->
  Coherent w -> Coherent w'.
Proof.
  intros Hg Hh Ha Ht Hl [].
  constructor; unfold phase, atRest, inFlight, feasting in *;
    rewrite ?Hg, ?Hh, ?Ha, ?Ht, ?Hl; assumption.
Qed.

Lemma Coherent_showMessage (message type : string) (w : World) :
  Coherent w -> Coherent (exec (showMessage message type) w).
Proof. apply Coherent_ext; reflexivity. Qed.

Lemma Inv_boat_dock_disjoint (w : World) (a : Avatar) :
  Inv w ->
  In a (getPassengers (boat (game w))) ->
  ~ In a (getPassengers (dockOrigin (game w))) /\
  ~ In a (getPassengers (dockDestination (game w))).
Proof.
  intros H Hin. pose proof (Inv_NoDup_all H) as Hnd.
  unfold allPassengers in Hnd. split; intros Hd.
  - apply (NoDup_app_disjoint _ _ a Hnd Hd). apply in_or_app. left; exact Hin.
  - apply (NoDup_app_disjoint _ _ a (NoDup_app_r _ _ Hnd) Hin Hd).
Qed.

Lemma Coherent_boarded (r : DockRef) (a : Avatar) (w : World) :
  Inv w -> Coherent w ->
  status (game w) = ONGOING ->
  atRest w ->
  getDockByLocation (boat_location (boat (game w))) = Some r ->
  In a (getPassengers (dockAt r (game w))) ->
  Coherent (boarded r a w).
Proof.
  intros HI HC Hs Hrest Hd Hin.
  pose proof (fun r' => @boarded_sides r r' a w HI Hd Hin) as Hsides.
  pose proof (@isBalanced_same_side _ _ _ _ (Hsides DockOrigin)) as Hbo.
  pose proof (@isBalanced_same_side _ _ _ _ (Hsides DockDestination)) as Hbd.
  cbn [dockAt] in Hbo, Hbd.
  assert (Hloc : forall b, getLocation (heap (boarded r a w)) b = getLocation (heap w) b).
  { intros b. unfold boarded, getLocation, heap_set. cbn [heap].
    destruct (Avatar_eqb b a) eqn:E; [|reflexivity].
    apply Avatar_eqb_eq in E. subst b. reflexivity. }
  assert (Hazone : getLocation (heap w) a = boat_location (boat (game w))).
  { rewrite (getDockByLocation_Some _ Hd).
    destruct r; cbn [dockAt] in Hin;
      [apply (co_zone_origin HC) | apply (co_zone_dest HC)]; exact Hin. }
  assert (Hstat : status (game (boarded r a w)) = ONGOING)
    by (destruct r; exact Hs).
  destruct HC.
  constructor; try (rewrite Hbo, Hbd); try (intros a0; rewrite Hloc).
  - destruct r; assumption.
  - destruct r; assumption.
  - intros Hb. apply co_zone_origin0. destruct r; cbn in Hb; [|exact Hb].
    apply (removeFirst_incl _ _ _ Hb).
  - intros Hb. apply co_zone_dest0. destruct r; cbn in Hb; [exact Hb|].
    apply (removeFirst_incl _ _ _ Hb).
  - intros Hb.
    assert (Hb' : In a0 (getPassengers (boat (game w))) \/ a0 = a).
    { destruct r; cbn in Hb; apply in_app_or in Hb;
        destruct Hb as [Hb|[Hb|[]]]; auto. }
    replace (boat_location (boat (game (boarded r a w))))
      with (boat_location (boat (game w))) by (destruct r; reflexivity).
    destruct Hb' as [Hb'| ->]; [apply co_zone_boat0; exact Hb' | exact Hazone].
  - left. destruct Hrest as (Ht & Ha & Hl). unfold atRest.
    destruct r; cbn; auto.
  - destruct r; exact co_parity0.
  - destruct r; exact co_balanced0.
  - rewrite Hstat. discriminate.
  - rewrite Hstat. discriminate.
  - reflexivity.
Qed.

Lemma Coherent_disembarked (r : DockRef) (a : Avatar) (w : World) :
  Inv w -> Coherent w ->
  status (game w) = ONGOING ->
  atRest w ->
  getDockByLocation (boat_location (boat (game w))) = Some r ->
  In a (getPassengers (boat (game w))) ->
  Coherent (disembarked r a w).
Proof.
  intros HI HC Hs Hrest Hd Hin.
  pose proof (fun r' => @disembarked_sides r r' a w HI Hd Hin) as Hsides.
  pose proof (@isBalanced_same_side _ _ _ _ (Hsides DockOrigin)) as Hbo.
  pose proof (@isBalanced_same_side _ _ _ _ (Hsides DockDestination)) as Hbd.
  cbn [dockAt] in Hbo, Hbd.
  assert (Hloc : forall b, getLocation (heap (disembarked r a w)) b =
                           getLocation (heap w) b).
  { intros b. unfold disembarked, getLocation, heap_set. cbn [heap].
    destruct (Avatar_eqb b a) eqn:E; [|reflexivity].
    apply Avatar_eqb_eq in E. subst b. reflexivity. }
  assert (Hazone : getLocation (heap w) a =
                   match r with DockOrigin => ORIGIN | DockDestination => DESTINATION end).
  { rewrite <- (getDockByLocation_Some _ Hd). apply (co_zone_boat HC). exact Hin. }
  assert (Hstat : status (game (disembarked r a w)) = ONGOING)
    by (destruct r; exact Hs).
  destruct HC.
  constructor; try (rewrite Hbo, Hbd); try (intros a0; rewrite Hloc).
  - destruct r; assumption.
  - destruct r; assumption.
  - intros Hb. destruct r; cbn in Hb; [|apply co_zone_origin0; exact Hb].
    apply in_app_or in Hb. destruct Hb as [Hb|[Hb|[]]];
      [apply co_zone_origin0; exact Hb | subst a0; exact Hazone].
  - intros Hb. destruct r; cbn in Hb; [apply co_zone_dest0; exact Hb|].
    apply in_app_or in Hb. destruct Hb as [Hb|[Hb|[]]];
      [apply co_zone_dest0; exact Hb | subst a0; exact Hazone].
  - intros Hb.
    replace (boat_location (boat (game (disembarked r a w))))
      with (boat_location (boat (game w))) by (destruct r; reflexivity).
    apply co_zone_boat0. destruct r; cbn in Hb; apply (removeFirst_incl _ _ _ Hb).
  - left. destruct Hrest as (Ht & Ha & Hl). unfold atRest.
    destruct r; cbn; auto.
  - destruct r; exact co_parity0.
  - destruct r; exact co_balanced0.
  - rewrite Hstat. discriminate.
  - rewrite Hstat. discriminate.
  - reflexivity.
Qed.

Lemma Coherent_launched (w : World) :
  Inv w -> Coherent w ->
  status (game w) = ONGOING ->
  atRest w ->
  canSail (boat (game w)) = true ->
  Coherent (launched w).
Proof.
  intros HI HC Hs (Ht & Ha & Hl) Hsail.
  assert (Hcrew : getPassengers (boat (game w)) <> []).
  { unfold canSail in Hsail. rewrite (co_min HC) in Hsail.
    apply Nat.leb_le in Hsail. unfold getPassengers.
    destruct (_passengers (boat (game w))); [cbn in Hsail; lia|discriminate]. }
  pose proof (co_parity HC Hl) as Hpar.
  destruct HC.
  constructor; unfold launched, getLocation, getPassengers in *; cbn.
  - assumption.
  - assumption.
  - intros a Hin. rewrite setLocations_notin; [apply co_zone_origin0; exact Hin|].
    intros Hb. apply (proj1 (@Inv_boat_dock_disjoint w a HI Hb)). exact Hin.
  - intros a Hin. rewrite setLocations_notin; [apply co_zone_dest0; exact Hin|].
    intros Hb. apply (proj2 (@Inv_boat_dock_disjoint w a HI Hb)). exact Hin.
  - intros a Hin. apply setLocations_in. exact Hin.
  - right. left. exists (getDestinationLocation (boat (game w))).
    unfold inFlight. cbn. rewrite Ht. cbn.
    split; [reflexivity|]. split; [reflexivity|]. split; [reflexivity|].
    split; [exact Hs|]. split; [apply getDestinationLocation_side|].
    split; [exact Hcrew|].
    rewrite Nat.add_1_r, Nat.even_succ, <- Nat.negb_even, Hpar.
    unfold getDestinationLocation.
    destruct (boat_location (boat (game w))); reflexivity.
  - intros H; congruence.
  - intros _ H; congruence.
  - rewrite Hs. discriminate.
  - rewrite Hs. discriminate.
  - reflexivity.
Qed.

(** A loss declared at an unbalanced side: the feast has a prey, so its
    last timeout is set. *)
Lemma declareLoss_exec_unbalanced (r : DockRef) (w : World) :
  isBalanced (game w) (dockAt r (game w)) = false ->
  exec (declareLoss r) w =
  mkWorld (with_status LOST (game w)) (heap w)
    (mkView true (listeners (view w)) (timers (view w) ++ [FeastTimeout])
       (calls (view w) ++
        [PlayFeastAnimation
           (filter (isType MONSTER) (sideAvatars (game w) (dockAt r (game w))))
           (filter (isType HUMAN) (sideAvatars (game w) (dockAt r (game w))))])).
Proof.
  intros Hb. apply isBalanced_false_iff in Hb. destruct Hb as [Hh _].
  unfold declareLoss, handleFeast, playFeastAnimation, exec, bind, gets, modify,
    called, ret.
  cbn [fst snd game view set_game set_view].
  replace (dockAt r (with_status LOST (game w))) with (dockAt r (game w))
    by (destruct r; reflexivity).
  replace (feastLists (with_status LOST (game w)) (dockAt r (game w)))
    with (feastLists (game w) (dockAt r (game w))) by reflexivity.
  rewrite feastLists_filter. cbn [fst snd].
  unfold countType in Hh.
  destruct (filter (isType HUMAN) _); [cbn in Hh; lia|].
  destruct (filter (isType MONSTER) _); reflexivity.
Qed.

(** Evaluating the outcome of an ongoing game that has just docked. *)
Lemma Coherent_evaluated (w : World) :
  avatars (game w) = initialAvatars (numMonsters (game w)) (numHumans (game w)) ->
  _minCapacity (boat (game w)) = 1 ->
  (forall a, In a (getPassengers (dockOrigin (game w))) ->
             getLocation (heap w) a = ORIGIN) ->
  (forall a, In a (getPassengers (dockDestination (game w))) ->
             getLocation (heap w) a = DESTINATION) ->
  (forall a, In a (getPassengers (boat (game w))) ->
             getLocation (heap w) a = boat_location (boat (game w))) ->
  atRest w ->
  Nat.even (tripCount (game w)) = Location_eqb (boat_location (boat (game w))) ORIGIN ->
  listeners (view w) = renderedListeners (game w) ->
  status (game w) = ONGOING ->
  Coherent (exec handleGameStatus w).
Proof.
  intros Hro Hmin Hzo Hzd Hzb (Ht & Ha & Hl) Hpar Hlis Hs.
  unfold exec. rewrite handleGameStatus_cases, Hs. cbn [GameStatus_eqb negb].
  destruct (winConditionb (game w)) eqn:Ew.
  { apply winConditionb_true in Ew.
    constructor; cbn; try assumption; try discriminate.
    - left. unfold atRest. cbn. auto.
    - intros _. exact Hpar.
    - intros _. exact Ew. }
  assert (Hloss : forall r, isBalanced (game w) (dockAt r (game w)) = false ->
                            Coherent (exec (declareLoss r) w)).
  { intros r Hb. rewrite (declareLoss_exec_unbalanced r w Hb).
    constructor; cbn; try assumption; try discriminate.
    - right. right. unfold feasting. cbn. rewrite Ht. auto.
    - intros _. exact Hpar.
    - intros _. destruct r; [left|right]; exact Hb. }
  destruct (isBalanced (game w) (dockOrigin (game w))) eqn:Eo; cbn [negb];
    [|apply (Hloss DockOrigin); exact Eo].
  destruct (isBalanced (game w) (dockDestination (game w))) eqn:Ed; cbn [negb];
    [|apply (Hloss DockDestination); exact Ed].
  constructor; cbn; try assumption.
  - left. unfold atRest. auto.
  - intros _. exact Hpar.
  - intros _ _ _. auto.
  - rewrite Hs. discriminate.
  - rewrite Hs. discriminate.
Qed.

Lemma Coherent_voyageTimeout (voyageTo : Location) (w : World) :
  Inv w -> Coherent w ->
  inFlight voyageTo w ->
  Coherent (exec (voyageTimeout voyageTo)
                 (set_view (fun v => with_timers (removeNth 0 (timers v)) v) w)).
Proof.
  intros HI HC (Ht & Ha & Hl & Hs & Hside & Hcrew & Hpar).
  rewrite voyageTimeout_exec.
  destruct HC.
  apply Coherent_evaluated; unfold arrived, getLocation, getPassengers in *; cbn.
  - assumption.
  - assumption.
  - intros a Hin. rewrite setLocations_notin; [apply co_zone_origin0; exact Hin|].
    intros Hb. apply (proj1 (@Inv_boat_dock_disjoint w a HI Hb)). exact Hin.
  - intros a Hin. rewrite setLocations_notin; [apply co_zone_dest0; exact Hin|].
    intros Hb. apply (proj2 (@Inv_boat_dock_disjoint w a HI Hb)). exact Hin.
  - intros a Hin. apply setLocations_in. exact Hin.
  - unfold atRest. cbn. rewrite Ht. auto.
  - exact Hpar.
  - reflexivity.
  - exact Hs.
Qed.

Lemma Coherent_feastTimeout (w : World) :
  Coherent w ->
  feasting w ->
  Coherent (exec feastTimeout
                 (set_view (fun v => with_timers (removeNth 0 (timers v)) v) w)).
Proof.
  intros [] (Ht & Ha & Hs & Hl).
  constructor; unfold feastTimeout, exec, modify; cbn; try assumption.
  left. unfold atRest. cbn. rewrite Ht. auto.
Qed.

Lemma Coherent_start (m h c : nat) : Coherent (startNewGame m h c).
Proof.
  destruct (startNewGame_world m h c) as (Hg & Hh & Hv).
  constructor; unfold phase, atRest, getLocation, getPassengers;
    rewrite ?Hg, ?Hv, ?Hh; cbn; try reflexivity.
  - intros a _. rewrite Hh. reflexivity.
  - intros a [].
  - intros a [].
  - left. repeat split. discriminate.
  - intros _ _ H. lia.
  - discriminate.
  - discriminate.
Qed.

Lemma phase_not_animating (w : World) :
  phase w -> isAnimating (view w) = false -> atRest w.
Proof.
  intros [H|[(l & H)|H]] Ha; [exact H| |].
  - destruct H as (_ & H & _). congruence.
  - destruct H as (_ & H & _). congruence.
Qed.

Lemma Coherent_dispatch (e : Event) (w : World) :
  Inv w -> Coherent w -> Coherent (exec (dispatch e) w).
Proof.
  intros HI HC. destruct e as [avatar| |n]; unfold dispatch, exec.
  - rewrite bind_gets.
    destruct (negb (existsb (Avatar_eqb avatar) (listeners (view w)))); [exact HC|].
    rewrite bind_gets.
    destruct (isAnimating (view w)) eqn:Ea; cbn [negb]; [exact HC|].
    pose proof (phase_not_animating (co_phase HC) Ea) as Hrest.
    assert (Hloc : boat_location (boat (game w)) <> RIVER) by apply Hrest.
    rewrite handleAvatarClick_cases.
    destruct (GameStatus_eqb (status (game w)) ONGOING) eqn:Es; cbn [negb];
      [|exact HC].
    apply GameStatus_eqb_eq in Es.
    destruct (getDockByLocation (boat_location (boat (game w)))) as [r|] eqn:Ed;
      [|destruct (boat_location (boat (game w))); try discriminate; congruence].
    destruct (getMounted (heap w) avatar).
    + destruct (hasPassenger (dockAt r (game w)) avatar) eqn:Eh; cbn [negb];
        [|apply Coherent_showMessage; exact HC].
      destruct (isFull (boat (game w))) eqn:Ef;
        [apply Coherent_showMessage; exact HC|].
      rewrite board_boarded by exact Ef. cbn [snd].
      apply Coherent_boarded; try assumption.
      apply hasPassenger_In. exact Eh.
    + destruct (hasPassenger (boat (game w)) avatar) eqn:Eh; cbn [negb]; [|exact HC].
      apply hasPassenger_In in Eh.
      rewrite (disembark_disembarked _ _ Ed (Inv_dock_not_full r _ HI Eh)).
      cbn [snd]. apply Coherent_disembarked; assumption.
  - rewrite bind_gets.
    destruct (isAnimating (view w)) eqn:Ea; cbn [negb]; [exact HC|].
    pose proof (phase_not_animating (co_phase HC) Ea) as Hrest.
    rewrite handleBoatClick_cases.
    destruct (GameStatus_eqb (status (game w)) ONGOING) eqn:Es; cbn [negb];
      [|exact HC].
    apply GameStatus_eqb_eq in Es.
    destruct (canSail (boat (game w))) eqn:Ec; cbn [negb];
      [|apply Coherent_showMessage; exact HC].
    apply Coherent_launched; assumption.
  - rewrite bind_gets.
    destruct (co_phase HC) as [Hrest|[(l & Hfl)|Hfe]].
    + destruct Hrest as (Ht & _). rewrite Ht.
      destruct n; exact HC.
    + pose proof Hfl as (Ht & _). rewrite Ht.
      destruct n as [|n]; cbn [nth_error]; [|destruct n; exact HC].
      rewrite bind_modify.
      apply (Coherent_voyageTimeout HI HC Hfl).
    + pose proof Hfe as (Ht & _). rewrite Ht.
      destruct n as [|n]; cbn [nth_error]; [|destruct n; exact HC].
      rewrite bind_modify.
      apply (Coherent_feastTimeout HC Hfe).
Qed.

Lemma reachable_Coherent (w : World) : reachable w -> Coherent w.
Proof.
  induction 1 as [m h c|e w Hr IH]; [apply Coherent_start|].
  apply Coherent_dispatch; [apply reachable_Inv; exact Hr | exact IH].
Qed.

(** ** Looking an avatar up by its id *)

Lemma find_by_id (l : list Avatar) (a : Avatar) :
  NoDup (map getId l) -> In a l ->
  find (fun avatar => String.eqb (getId avatar) (getId a)) l = Some a.
Proof.
  induction l as [|x l IH]; intros Hnd Hin; [destruct Hin|].
  cbn [map] in Hnd. inversion Hnd as [|y m Hx Hl]; subst.
  cbn [find]. destruct (String.eqb (getId x) (getId a)) eqn:E.
  - destruct Hin as [->|Hin]; [reflexivity|].
    apply String.eqb_eq in E. exfalso. apply Hx. rewrite E.
    apply in_map. exact Hin.
  - destruct Hin as [->|Hin]; [rewrite String.eqb_refl in E; discriminate|].
    apply IH; assumption.
Qed.

(** X5. In every world the program reaches, [getAvatarById] called
    with the id of an avatar of the game returns that very avatar.  In any
    game, what it returns is an avatar of the game with the id asked for,
    and it returns [undefined] exactly when no avatar of the game has that
    id. *)
Theorem getAvatarById_round_trip (w : World) :
  (reachable w ->
   forall a, In a (avatars (game w)) -> getAvatarById (game w) (getId a) = Some a) /\
  (forall id a, getAvatarById (game w) id = Some a ->
                In a (avatars (game w)) /\ getId a = id) /\
  (forall id, getAvatarById (game w) id = None <->
              forall a, In a (avatars (game w)) -> getId a <> id).
Proof.
  unfold getAvatarById. split; [|split].
  - intros Hr a Ha. apply reachable_Coherent in Hr.
    apply find_by_id; [|exact Ha].
    rewrite (co_roster Hr). apply initialAvatars_ids_NoDup.
  - intros id a H. apply find_some in H. destruct H as [Hin E].
    apply String.eqb_eq in E. auto.
  - intros id. split.
    + intros H a Ha E. pose proof (find_none _ _ H a Ha) as Hf. cbn in Hf.
      rewrite E, String.eqb_refl in Hf. discriminate.
    + intros H. destruct (find _ (avatars (game w))) as [a|] eqn:E; [|reflexivity].
      apply find_some in E. destruct E as [Hin E]. apply String.eqb_eq in E.
      exfalso. apply (H a Hin E).
Qed.

(** ** No handler of the current view throws *)

Lemma voyageTimeout_completion (voyageTo : Location) (w : World) :
  completion (voyageTimeout voyageTo) w = Normal tt.
Proof.
  unfold completion, voyageTimeout, voyageCallback.
  rewrite bind_modify.
  unfold bind at 1. unfold bind at 1. rewrite voyageArrival_exec.
  destruct (handleGameStatus_completion
              (arrived voyageTo (set_view (with_isAnimating false) w))) as (o & Ho).
  unfold completion in Ho.
  destruct (handleGameStatus _) as [c w'] eqn:E. cbn in Ho. subst c. reflexivity.
Qed.

(** X9. The handlers of the current view return normally.  In every
    world the program reaches through the listeners and timeouts of the
    current view, whatever that view receives next (a click on any
    avatar, a click on the boat button, any of its pending timeouts that
    clear the flag) is handled without an exception: the view calls
    [handleAvatarClick] only with the boat at a dock, and the feast has
    prey.  What a view replaced by a restart leaves behind is not an
    event of the current view and is not meant. *)
Theorem dispatch_returns_normally (e : Event) (w : World) :
  reachable w -> completion (dispatch e) w = Normal tt.
Proof.
  intros Hr. apply reachable_Inv in Hr.
  destruct e as [avatar| |n]; unfold dispatch, completion.
  - rewrite bind_gets.
    destruct (negb (existsb (Avatar_eqb avatar) (listeners (view w)))); [reflexivity|].
    rewrite bind_gets.
    destruct (isAnimating (view w)) eqn:Ea; cbn [negb]; [reflexivity|].
    apply handleAvatarClick_completion.
    intros Hl. destruct (inv_river Hr Hl) as [Ht _]. congruence.
  - rewrite bind_gets.
    destruct (negb (isAnimating (view w))); [|reflexivity].
    apply handleBoatClick_completion.
  - rewrite bind_gets.
    destruct (nth_error (timers (view w)) n) as [t|]; [|reflexivity].
    rewrite bind_modify.
    destruct t as [voyageTo|]; [apply voyageTimeout_completion | reflexivity].
Qed.

(** ** Phases *)

Lemma Inv_docked (w : World) :
  Inv w -> boat_status (boat (game w)) = DOCKED ->
  boat_location (boat (game w)) <> RIVER.
Proof. intros H Hd Hl. apply (inv_sailing H) in Hl. congruence. Qed.

(** X11. The flag and the timeouts that clear it.  Of the timeouts the
    view sets, the arrival set by [playVoyageAnimation] and the last one
    of [playFeastAnimation], the end of the feast, clear [isAnimating];
    [timers] lists those that are pending.  In every world the program
    reaches through the listeners and timeouts of the current view: the
    flag is set exactly while one of them is pending; while the boat is
    sailing the game is ongoing, the boat carries somebody, and exactly
    one is pending, the arrival at a dock; while the boat is docked no
    arrival is pending; the end of a feast is pending only in a lost game
    with the boat docked, and then it alone; in a decided game the boat
    is docked. *)
Theorem flag_and_timeouts (w : World) :
  reachable w ->
  (isAnimating (view w) = true <->
     (exists voyageTo, In (VoyageTimeout voyageTo) (timers (view w))) \/
     In FeastTimeout (timers (view w))) /\
  (boat_status (boat (game w)) = SAILING ->
     status (game w) = ONGOING /\
     getPassengers (boat (game w)) <> [] /\
     exists voyageTo, timers (view w) = [VoyageTimeout voyageTo] /\ voyageTo <> RIVER) /\
  (boat_status (boat (game w)) = DOCKED ->
     forall voyageTo, ~ In (VoyageTimeout voyageTo) (timers (view w))) /\
  (In FeastTimeout (timers (view w)) ->
     status (game w) = LOST /\
     boat_status (boat (game w)) = DOCKED /\
     timers (view w) = [FeastTimeout]) /\
  (status (game w) <> ONGOING -> boat_status (boat (game w)) = DOCKED).
Proof.
  intros Hr. pose proof (reachable_Inv Hr) as HI.
  pose proof (reachable_Coherent Hr) as HC.
  assert (Hdock : boat_location (boat (game w)) <> RIVER ->
                  boat_status (boat (game w)) = DOCKED).
  { intros Hl. destruct (boat_status (boat (game w))) eqn:E; [reflexivity|].
    apply (inv_sailing HI) in E. contradiction. }
  destruct (co_phase HC) as [(Ht & Ha & Hl)|[(l & Ht & Ha & Hl & Hs & Hside & Hcrew & _)
                                            |(Ht & Ha & Hs & Hl)]];
    rewrite Ht, Ha.
  - split; [split; [discriminate|intros [(l & [])|[]]]|].
    split; [intros E; apply (inv_sailing HI) in E; contradiction|].
    split; [intros _ l []|]. split; [intros []|intros _; apply Hdock; exact Hl].
  - split; [split; [intros _; left; exists l; left; reflexivity|reflexivity]|].
    split; [intros _; split; [exact Hs|]; split; [exact Hcrew|];
            exists l; split; [reflexivity|exact Hside]|].
    split; [intros E; apply (inv_sailing HI) in Hl; congruence|].
    split; [intros [E|[]]; discriminate|intros E; contradiction].
  - split; [split; [intros _; right; left; reflexivity|reflexivity]|].
    split; [intros E; apply (inv_sailing HI) in E; contradiction|].
    split; [intros _ l [E|[]]; discriminate|].
    split; [intros _; split; [exact Hs|]; split; [apply Hdock; exact Hl|reflexivity]|].
    intros _. apply Hdock. exact Hl.
Qed.

(** X10. A game that is won or lost stays as it is: in every world the
    program reaches with such a game, no click and no timeout changes
    the game or any avatar. *)
Theorem decided_is_final (e : Event) (w : World) :
  reachable w ->
  status (game w) <> ONGOING ->
  game (exec (dispatch e) w) = game w /\
  heap (exec (dispatch e) w) = heap w.
Proof.
  intros Hr Hs. pose proof (reachable_Coherent Hr) as HC.
  destruct e as [avatar| |n]; unfold dispatch, exec.
  - rewrite bind_gets.
    destruct (negb (existsb (Avatar_eqb avatar) (listeners (view w)))); [auto|].
    rewrite bind_gets.
    destruct (negb (isAnimating (view w))); [|auto].
    rewrite (handleAvatarClick_decided avatar w Hs). auto.
  - rewrite bind_gets.
    destruct (negb (isAnimating (view w))); [|auto].
    rewrite (handleBoatClick_decided w Hs). auto.
  - rewrite bind_gets.
    destruct (co_phase HC) as [(Ht & _)|[(l & _ & _ & _ & Ho & _)|(Ht & _)]].
    + rewrite Ht. destruct n; auto.
    + contradiction.
    + rewrite Ht. destruct n as [|n]; cbn [nth_error]; [|destruct n; auto].
      rewrite bind_modify. auto.
Qed.

(** ** A crossing *)

Lemma handleBoatClick_launched (w : World) :
  status (game w) = ONGOING ->
  canSail (boat (game w)) = true ->
  handleBoatClick w = (Normal tt, launched w).
Proof.
  intros Hs Hc. rewrite handleBoatClick_cases, Hs, Hc. reflexivity.
Qed.

(** X12. A whole crossing.  In a world the program reaches, with the
    game ongoing, nothing animating, the boat lying at a side and somebody
    aboard, a click on the boat followed by the timeout it sets brings the
    boat, docked, to the opposite side with the same passengers aboard,
    now located there; the trip counter has gone up by one, the two docks
    hold the same avatars as before, no mount state has changed, and no
    arrival is pending any more. *)
Theorem crossing (side : Location) (w : World) :
  let w' := run [BoatClicked; TimeoutFired 0] w in
  reachable w ->
  status (game w) = ONGOING ->
  isAnimating (view w) = false ->
  oppositeSide (boat_location (boat (game w))) = Some side ->
  getPassengers (boat (game w)) <> [] ->
  boat_location (boat (game w')) = side /\
  boat_status (boat (game w')) = DOCKED /\
  tripCount (game w') = tripCount (game w) + 1 /\
  getPassengers (boat (game w')) = getPassengers (boat (game w)) /\
  getPassengers (dockOrigin (game w')) = getPassengers (dockOrigin (game w)) /\
  getPassengers (dockDestination (game w')) = getPassengers (dockDestination (game w)) /\
  (forall a, In a (getPassengers (boat (game w))) -> getLocation (heap w') a = side) /\
  (forall a, getMounted (heap w') a = getMounted (heap w) a) /\
  (forall voyageTo, ~ In (VoyageTimeout voyageTo) (timers (view w'))).
Proof.
  intros w' Hr Hs Ha Hside Hcrew. subst w'.
  pose proof (reachable_Coherent Hr) as HC.
  destruct (phase_not_animating (co_phase HC) Ha) as (Ht & _ & Hl).
  assert (Hsail : canSail (boat (game w)) = true).
  { unfold canSail. rewrite (co_min HC). apply Nat.leb_le.
    unfold getPassengers in Hcrew.
    destruct (_passengers (boat (game w))); [congruence|cbn; lia]. }
  apply getDestinationLocation_opposite in Hside.
  cbn [run fold_left].
  assert (E1 : exec (dispatch BoatClicked) w = launched w).
  { unfold exec, dispatch. rewrite bind_gets, Ha. cbn [negb].
    rewrite (handleBoatClick_launched w Hs Hsail). reflexivity. }
  rewrite E1.
  assert (E2 : exec (dispatch (TimeoutFired 0)) (launched w) =
               exec handleGameStatus (atEvaluation side (launched w))).
  { apply dispatch_timeout_evaluation. cbn. rewrite Ht, Hside. reflexivity. }
  rewrite E2.
  destruct (handleGameStatus_frame (atEvaluation side (launched w))) as (s & Hg & Hh).
  assert (Hview : forall voyageTo,
             ~ In (VoyageTimeout voyageTo)
                  (timers (view (exec handleGameStatus (atEvaluation side (launched w)))))).
  { intros voyageTo. unfold exec. rewrite handleGameStatus_cases.
    assert (Hloss : forall r,
               ~ In (VoyageTimeout voyageTo)
                    (timers (view (snd (declareLoss r (atEvaluation side (launched w))))))).
    { intros r. fold (exec (declareLoss r) (atEvaluation side (launched w))).
      destruct (declareLoss_view r (atEvaluation side (launched w)))
        as (_ & _ & [E|E]); rewrite E; cbn; rewrite Ht; cbn;
        [tauto | intros [H|[]]; discriminate]. }
    destruct (negb (GameStatus_eqb _ ONGOING)); [cbn; rewrite Ht; cbn; tauto|].
    destruct (winConditionb _); [cbn; rewrite Ht; cbn; tauto|].
    destruct (negb (isBalanced _ (dockOrigin _))); [apply Hloss|].
    destruct (negb (isBalanced _ (dockDestination _))); [apply Hloss|].
    cbn. rewrite Ht. cbn. tauto. }
  rewrite Hg, Hh. unfold getLocation, getMounted, getPassengers. cbn.
  repeat split; try reflexivity.
  - intros a Hin. apply setLocations_in. exact Hin.
  - intros a. rewrite !setLocations_mounted. reflexivity.
  - exact Hview.
Qed.

(** ** What holds in every reachable world *)

(** X13. The boat lies at the origin only after an even number of
    trips and at the destination only after an odd number; so a game that
    is won has made an odd number of trips, at least one. *)
Theorem trip_parity (w : World) :
  reachable w ->
  (boat_location (boat (game w)) = ORIGIN -> Nat.even (tripCount (game w)) = true) /\
  (boat_location (boat (game w)) = DESTINATION ->
     Nat.odd (tripCount (game w)) = true) /\
  (status (game w) = WON ->
     Nat.odd (tripCount (game w)) = true /\ 1 <= tripCount (game w)).
Proof.
  intros Hr. pose proof (reachable_Coherent Hr) as HC.
  assert (Hdest : boat_location (boat (game w)) = DESTINATION ->
                  Nat.odd (tripCount (game w)) = true).
  { intros E. rewrite <- Nat.negb_even, (co_parity HC) by congruence.
    rewrite E. reflexivity. }
  split; [|split; [exact Hdest|]].
  - intros E. rewrite (co_parity HC) by congruence. rewrite E. reflexivity.
  - intros Hw. destruct (co_won HC Hw) as (_ & Hl & _).
    pose proof (Hdest Hl) as Hodd. split; [exact Hodd|].
    destruct (tripCount (game w)); [discriminate|lia].
Qed.

(** X14. Every avatar is where its container is: an avatar on the
    origin dock is on-dock and located at the origin, one on the
    destination dock is on-dock and located at the destination, and one
    aboard is on-boat and located where the boat is (the river while it
    sails), although boarding and leaving the boat never write a
    location. *)
Theorem avatar_zones (a : Avatar) (w : World) :
  reachable w ->
  (In a (getPassengers (dockOrigin (game w))) ->
     getLocation (heap w) a = ORIGIN /\ getMounted (heap w) a = ON_DOCK) /\
  (In a (getPassengers (dockDestination (game w))) ->
     getLocation (heap w) a = DESTINATION /\ getMounted (heap w) a = ON_DOCK) /\
  (In a (getPassengers (boat (game w))) ->
     getLocation (heap w) a = boat_location (boat (game w)) /\
     getMounted (heap w) a = ON_BOAT).
Proof.
  intros Hr. pose proof (reachable_Inv Hr) as HI.
  pose proof (reachable_Coherent Hr) as HC.
  split; [|split]; intros Hin; split.
  - apply (co_zone_origin HC). exact Hin.
  - apply (inv_on_dock HI). left; exact Hin.
  - apply (co_zone_dest HC). exact Hin.
  - apply (inv_on_dock HI). right; exact Hin.
  - apply (co_zone_boat HC). exact Hin.
  - apply (inv_on_boat HI). exact Hin.
Qed.

(** X15. An ongoing game whose boat is docked after at least one trip
    is balanced on both sides: every imbalance an arrival leaves has been
    declared a loss, and clicks on avatars cannot create one. *)
Theorem ongoing_docked_balanced (w : World) :
  reachable w ->
  status (game w) = ONGOING ->
  boat_status (boat (game w)) = DOCKED ->
  1 <= tripCount (game w) ->
  isBalanced (game w) (dockOrigin (game w)) = true /\
  isBalanced (game w) (dockDestination (game w)) = true.
Proof.
  intros Hr Hs Hd Ht. pose proof (reachable_Inv Hr) as HI.
  apply (co_balanced (reachable_Coherent Hr) Hs (Inv_docked HI Hd) Ht).
Qed.

(** X16. What a decided game looks like.  A won game has its boat
    docked at the destination, nobody on the origin dock, and every avatar
    of the game on the destination dock or aboard.  A lost game has its
    boat docked and a side that is unbalanced. *)
Theorem decided_meaning (w : World) :
  reachable w ->
  (status (game w) = WON ->
     boat_location (boat (game w)) = DESTINATION /\
     boat_status (boat (game w)) = DOCKED /\
     getPassengers (dockOrigin (game w)) = [] /\
     (forall a, In a (avatars (game w)) ->
                In a (getPassengers (dockDestination (game w))) \/
                In a (getPassengers (boat (game w)))) /\
     getPassengerCount (dockDestination (game w)) + getPassengerCount (boat (game w)) =
       totalAvatars (game w)) /\
  (status (game w) = LOST ->
     boat_status (boat (game w)) = DOCKED /\
     (isBalanced (game w) (dockOrigin (game w)) = false \/
      isBalanced (game w) (dockDestination (game w)) = false)).
Proof.
  intros Hr. pose proof (reachable_Inv Hr) as HI.
  pose proof (reachable_Coherent Hr) as HC.
  assert (Hdock : boat_location (boat (game w)) <> RIVER ->
                  boat_status (boat (game w)) = DOCKED).
  { intros Hl. destruct (boat_status (boat (game w))) eqn:E; [reflexivity|].
    apply (inv_sailing HI) in E. contradiction. }
  split.
  - intros Hw. destruct (co_won HC Hw) as (He & Hl & _).
    unfold isEmpty in He. apply Nat.eqb_eq in He. apply length_zero_iff_nil in He.
    split; [exact Hl|]. split; [apply Hdock; congruence|].
    split; [exact He|]. split.
    + intros a Ha.
      apply (Permutation_in _ (Permutation_sym (inv_perm HI))) in Ha.
      unfold allPassengers, getPassengers in *. rewrite He in Ha. cbn in Ha.
      apply in_app_or in Ha. tauto.
    + pose proof (Inv_lengths HI) as Hlen.
      unfold getPassengerCount in *. rewrite He in Hlen. cbn in Hlen. lia.
  - intros Hlost. split; [|apply (co_lost HC Hlost)].
    apply Hdock. intros Hl. destruct (inv_river HI Hl) as [_ Ho]. congruence.
Qed.

(** X17. After every event the click listeners are those of the last
    rendering of the game as it is now: an avatar can be clicked exactly
    when it is on a dock, or aboard while the boat is docked. *)
Theorem reachable_listeners (a : Avatar) (w : World) :
  reachable w ->
  (In a (listeners (view w)) <->
   In a (getPassengers (dockOrigin (game w))) \/
   In a (getPassengers (dockDestination (game w))) \/
   (In a (getPassengers (boat (game w))) /\ boat_status (boat (game w)) = DOCKED)).
Proof.
  intros Hr. pose proof (reachable_Inv Hr) as HI.
  rewrite (co_listeners (reachable_Coherent Hr)).
  unfold renderedListeners, createAvatarElement. cbn [negb orb].
  rewrite !in_app_iff.
  destruct (Location_eqb (boat_location (boat (game w))) RIVER) eqn:E; cbn [negb].
  - apply Location_eqb_eq in E. apply (inv_sailing HI) in E. rewrite E.
    cbn. split; [tauto|]. intros [H|[H|[_ H]]]; [tauto|tauto|discriminate].
  - assert (Hd : boat_status (boat (game w)) = DOCKED).
    { destruct (boat_status (boat (game w))) eqn:Es; [reflexivity|].
      apply (inv_sailing HI) in Es. apply Location_eqb_eq in Es. congruence. }
    rewrite Hd. tauto.
Qed.

(** X18. The boat needs a crew: in every world the program reaches
    its minimum is 1, so a click on the boat with nobody aboard never
    launches it (the game and the avatars are left as they were), and in
    an ongoing game with nothing animating a click on the boat with
    somebody aboard always does. *)
Theorem empty_boat_stays (w : World) :
  reachable w ->
  _minCapacity (boat (game w)) = 1 /\
  (getPassengers (boat (game w)) = [] ->
     game (exec (dispatch BoatClicked) w) = game w /\
     heap (exec (dispatch BoatClicked) w) = heap w) /\
  (getPassengers (boat (game w)) <> [] ->
   status (game w) = ONGOING ->
   isAnimating (view w) = false ->
     exec (dispatch BoatClicked) w = launched w).
Proof.
  intros Hr. pose proof (reachable_Coherent Hr) as HC.
  split; [apply (co_min HC)|]. split.
  - intros He. unfold dispatch, exec. rewrite bind_gets.
    destruct (negb (isAnimating (view w))); [|auto].
    rewrite handleBoatClick_cases.
    destruct (negb (GameStatus_eqb (status (game w)) ONGOING)); [auto|].
    unfold canSail. unfold getPassengers in He. rewrite He, (co_min HC). cbn. auto.
  - intros Hcrew Hs Ha. unfold dispatch, exec. rewrite bind_gets, Ha. cbn [negb].
    rewrite handleBoatClick_launched; [reflexivity|exact Hs|].
    unfold canSail. rewrite (co_min HC). apply Nat.leb_le.
    unfold getPassengers in Hcrew.
    destruct (_passengers (boat (game w))); [congruence|cbn; lia].
Qed.

(** X19. A click on an avatar never changes who is on which side: in
    every world the program reaches, after the click each side (a dock
    with the boat when it lies there) has as many monsters and as many
    humans as before, so each dock is balanced after the click exactly
    when it was before. *)
Theorem avatar_click_keeps_sides (avatar : Avatar) (r : DockRef) (w : World) :
  let g := game w in
  let g' := game (exec (dispatch (AvatarClicked avatar)) w) in
  reachable w ->
  (forall t, countType t (sideAvatars g' (dockAt r g')) =
             countType t (sideAvatars g (dockAt r g))) /\
  isBalanced g' (dockAt r g') = isBalanced g (dockAt r g).
Proof.
  intros g g' Hr. subst g g'. pose proof (reachable_Inv Hr) as HI.
  assert (Hperm : Permutation
            (sideAvatars (game (exec (dispatch (AvatarClicked avatar)) w))
               (dockAt r (game (exec (dispatch (AvatarClicked avatar)) w))))
            (sideAvatars (game w) (dockAt r (game w)))).
  { unfold dispatch, exec. rewrite bind_gets.
    destruct (negb (existsb (Avatar_eqb avatar) (listeners (view w)))); [reflexivity|].
    rewrite bind_gets.
    destruct (isAnimating (view w)) eqn:Ea; cbn [negb]; [reflexivity|].
    assert (Hloc : boat_location (boat (game w)) <> RIVER).
    { intros Hl. destruct (inv_river HI Hl) as [Ht _]. congruence. }
    rewrite handleAvatarClick_cases.
    destruct (negb (GameStatus_eqb (status (game w)) ONGOING)); [reflexivity|].
    destruct (getDockByLocation (boat_location (boat (game w)))) as [r0|] eqn:Ed;
      [|destruct (boat_location (boat (game w))); try discriminate; congruence].
    destruct (getMounted (heap w) avatar).
    - destruct (hasPassenger (dockAt r0 (game w)) avatar) eqn:Eh; cbn [negb];
        [|reflexivity].
      destruct (isFull (boat (game w))) eqn:Ef; [reflexivity|].
      rewrite board_boarded by exact Ef. cbn [snd].
      apply boarded_sides; [exact HI|exact Ed|].
      apply hasPassenger_In. exact Eh.
    - destruct (hasPassenger (boat (game w)) avatar) eqn:Eh; cbn [negb]; [|reflexivity].
      apply hasPassenger_In in Eh.
      rewrite (disembark_disembarked _ _ Ed (Inv_dock_not_full r0 _ HI Eh)).
      cbn [snd]. apply disembarked_sides; assumption. }
  split; [intros t; apply countType_Permutation; exact Hperm|].
  apply isBalanced_same_side. exact Hperm.
Qed.

(** ** These properties at concrete games *)

Lemma reachable_twoAboard : reachable twoAboard.
Proof. apply reachable_run, reachable_start. Qed.

Lemma reachable_lostGame : reachable lostGame.
Proof. apply reachable_run, reachable_start. Qed.

Lemma removePassenger_one_witness :
  In (human 0) (getPassengers (dockOrigin (game classicStart))) /\
  fst (removePassenger (human 0) (dockOrigin (game classicStart))) = true /\
  getPassengerCount (snd (removePassenger (human 0) (dockOrigin (game classicStart)))) + 1 =
    getPassengerCount (dockOrigin (game classicStart)).
Proof.
  assert (Hin : In (human 0) (getPassengers (dockOrigin (game classicStart))))
    by (apply existsb_In; vm_compute; reflexivity).
  destruct (removePassenger_one (human 0) (dockOrigin (game classicStart)))
    as (Hok & _ & _ & _ & Hlen & _).
  split; [exact Hin|]. split; [apply Hok; exact Hin|].
  apply Hlen. apply Hok. exact Hin.
Defined.

Lemma add_remove_round_trip_witness :
  removePassenger (human 0) (snd (addPassenger (human 0) (boat (game classicStart)))) =
    (true, boat_super (boat (game classicStart))) /\
  Permutation
    (getPassengers (snd (addPassenger (human 0)
                           (snd (removePassenger (human 0)
                                   (dockOrigin (game classicStart)))))))
    (getPassengers (dockOrigin (game classicStart))).
Proof.
  destruct (add_remove_round_trip (human 0) (boat (game classicStart))) as (Hadd & _).
  destruct (add_remove_round_trip (human 0) (dockOrigin (game classicStart)))
    as (_ & Hrem).
  split.
  - apply Hadd; [vm_compute; tauto | vm_compute; reflexivity].
  - apply Hrem; [apply existsb_In; vm_compute; reflexivity | vm_compute; lia].
Defined.

Lemma getAvatarById_round_trip_witness :
  In (human 0) (avatars (game landed)) /\
  getAvatarById (game landed) (getId (human 0)) = Some (human 0).
Proof.
  assert (Hin : In (human 0) (avatars (game landed)))
    by (apply existsb_In; vm_compute; reflexivity).
  split; [exact Hin|].
  apply (proj1 (getAvatarById_round_trip landed) reachable_landed). exact Hin.
Defined.

Lemma assignTargets_round_robin_witness :
  exists targets,
    assignTargets [monster 0; monster 1; monster 2] [human 1; human 2] 0 [] =
      Normal targets /\
    Map_get (getId (monster 2)) targets = Some (getId (human 1)).
Proof.
  destruct (assignTargets_round_robin [monster 0; monster 1; monster 2]
                                      [human 1; human 2]) as (_ & H).
  destruct H as (targets & Hrun & Hget & _).
  - discriminate.
  - cbn. repeat constructor; cbn; intuition discriminate.
  - exists targets. split; [exact Hrun|].
    destruct (Hget 2 (monster 2) eq_refl) as (prey & Hprey & Hmap).
    cbn in Hprey. inversion Hprey; subst prey. exact Hmap.
Defined.

Lemma dispatch_returns_normally_witness :
  completion (dispatch (TimeoutFired 0)) midVoyage = Normal tt /\
  completion (dispatch (AvatarClicked (human 0))) landed = Normal tt.
Proof.
  split.
  - apply (dispatch_returns_normally (TimeoutFired 0) reachable_midVoyage).
  - apply (dispatch_returns_normally (AvatarClicked (human 0)) reachable_landed).
Defined.

Lemma decided_is_final_witness :
  status (game lostGame) = LOST /\
  game (exec (dispatch (AvatarClicked (monster 1))) lostGame) = game lostGame /\
  game (exec (dispatch (TimeoutFired 0)) lostGame) = game lostGame.
Proof.
  assert (Hs : status (game lostGame) <> ONGOING) by (vm_compute; discriminate).
  split; [vm_compute; reflexivity|]. split.
  - apply (decided_is_final (AvatarClicked (monster 1)) reachable_lostGame Hs).
  - apply (decided_is_final (TimeoutFired 0) reachable_lostGame Hs).
Defined.

Lemma flag_and_timeouts_witness :
  boat_status (boat (game midVoyage)) = SAILING /\
  isAnimating (view midVoyage) = true /\
  status (game midVoyage) = ONGOING /\
  getPassengers (boat (game midVoyage)) <> [] /\
  ~ In FeastTimeout (timers (view midVoyage)).
Proof.
  assert (Hs : boat_status (boat (game midVoyage)) = SAILING)
    by (vm_compute; reflexivity).
  destruct (flag_and_timeouts reachable_midVoyage) as (Hflag & Hsail & _ & Hfeast & _).
  destruct (Hsail Hs) as (Ho & Hcrew & l & Ht & _).
  split; [exact Hs|].
  split; [apply Hflag; left; exists l; rewrite Ht; left; reflexivity|].
  split; [exact Ho|]. split; [exact Hcrew|].
  intros Hf. destruct (Hfeast Hf) as (Hl & _). congruence.
Defined.

Lemma crossing_witness :
  boat_location (boat (game (run [BoatClicked; TimeoutFired 0] twoAboard))) = DESTINATION /\
  tripCount (game (run [BoatClicked; TimeoutFired 0] twoAboard)) =
    tripCount (game twoAboard) + 1 /\
  getPassengers (boat (game (run [BoatClicked; TimeoutFired 0] twoAboard))) =
    getPassengers (boat (game twoAboard)).
Proof.
  destruct (@crossing DESTINATION twoAboard) as (Hl & _ & Ht & Hp & _).
  - exact reachable_twoAboard.
  - vm_compute; reflexivity.
  - vm_compute; reflexivity.
  - vm_compute; reflexivity.
  - vm_compute; discriminate.
  - split; [exact Hl|]. split; [exact Ht|exact Hp].
Defined.

Lemma trip_parity_witness :
  status (game wonGame) = WON /\ Nat.odd (tripCount (game wonGame)) = true.
Proof.
  assert (Hw : status (game wonGame) = WON) by (vm_compute; reflexivity).
  split; [exact Hw|].
  apply (proj2 (proj2 (trip_parity reachable_wonGame)) Hw).
Defined.

Lemma avatar_zones_witness :
  In (human 0) (getPassengers (boat (game midVoyage))) /\
  getLocation (heap midVoyage) (human 0) = boat_location (boat (game midVoyage)) /\
  getMounted (heap midVoyage) (human 0) = ON_BOAT.
Proof.
  assert (Hin : In (human 0) (getPassengers (boat (game midVoyage))))
    by (apply existsb_In; vm_compute; reflexivity).
  split; [exact Hin|].
  apply (proj2 (proj2 (avatar_zones (human 0) reachable_midVoyage)) Hin).
Defined.

Lemma ongoing_docked_balanced_witness :
  isBalanced (game landed) (dockOrigin (game landed)) = true /\
  isBalanced (game landed) (dockDestination (game landed)) = true.
Proof.
  apply (ongoing_docked_balanced reachable_landed).
  - vm_compute; reflexivity.
  - vm_compute; reflexivity.
  - vm_compute. apply le_n.
Defined.

Lemma decided_meaning_witness :
  (status (game wonGame) = WON /\
   getPassengers (dockOrigin (game wonGame)) = []) /\
  (status (game lostGame) = LOST /\
   (isBalanced (game lostGame) (dockOrigin (game lostGame)) = false \/
    isBalanced (game lostGame) (dockDestination (game lostGame)) = false)).
Proof.
  assert (Hw : status (game wonGame) = WON) by (vm_compute; reflexivity).
  assert (Hl : status (game lostGame) = LOST) by (vm_compute; reflexivity).
  split; (split; [assumption|]).
  - apply (proj1 (decided_meaning reachable_wonGame) Hw).
  - apply (proj2 (decided_meaning reachable_lostGame) Hl).
Defined.

Lemma reachable_listeners_witness :
  In (monster 1) (getPassengers (dockOrigin (game midVoyage))) /\
  In (monster 1) (listeners (view midVoyage)).
Proof.
  assert (Hin : In (monster 1) (getPassengers (dockOrigin (game midVoyage))))
    by (apply existsb_In; vm_compute; reflexivity).
  split; [exact Hin|].
  apply (reachable_listeners (monster 1) reachable_midVoyage). left. exact Hin.
Defined.

Lemma empty_boat_stays_witness :
  getPassengers (boat (game classicStart)) = [] /\
  game (exec (dispatch BoatClicked) classicStart) = game classicStart.
Proof.
  assert (He : getPassengers (boat (game classicStart)) = [])
    by (vm_compute; reflexivity).
  split; [exact He|].
  apply (proj1 (proj2 (empty_boat_stays reachable_classicStart)) He).
Defined.

Lemma avatar_click_keeps_sides_witness :
  isBalanced (game (exec (dispatch (AvatarClicked (monster 0))) oneAboard))
             (dockOrigin (game (exec (dispatch (AvatarClicked (monster 0))) oneAboard))) =
  isBalanced (game oneAboard) (dockOrigin (game oneAboard)).
Proof.
  apply (proj2 (@avatar_click_keeps_sides (monster 0) DockOrigin oneAboard
                  reachable_oneAboard)).
Defined.
